(** * pomoday: the command parser and the task state machine of App.tsx

    A shallow embedding of [src/components/App.tsx]: the nine command
    patterns and [parseCommand], the key-press handler that applies a parsed
    command to the task list, [stopWorkLogging], the [Today] projection and
    [getInitialState]; then the properties C1-C10 of the specification.

    Modelling conventions.
    - A JavaScript string is the list of its UTF-16 code units ([N]).
    - The patterns are terms of a small regular-expression syntax, run by a
      backtracking matcher with capture groups; [str.match] returns the
      array of captures or nothing.
    - A JavaScript number holding an integer (task ids, millisecond
      timestamps) is a [Z]; double arithmetic is exact on such values up to
      2^53.  A timestamp of [0] is falsy, which is how the source tells an
      open work log from a closed one.
    - An evaluation that may throw returns a [completion].
    - [Date.now()] is an effect: every call takes the next reading of a
      clock, so two calls in one handler may differ.
    - An object literal [{...state, tasks: ...}] is a fresh object; the state
      object held by [React.useState] carries its address.
    - The handler mutates task objects in place and the array methods return
      new arrays holding the same objects.  No task object occurs twice in
      the list (each comes from its own literal or from [JSON.parse]), so
      the list is modelled by value. *)

From Stdlib Require Import ZArith NArith Lia Ascii String.
From stdpp Require Import base list numbers strings sorting.

(** ** Strings *)

Abbreviation jsstring := (list N).

Definition js (s : string) : jsstring := N_of_ascii <$> list_ascii_of_string s.

Section Characters.
Local Open Scope N_scope.

Definition in_range (lo hi c : N) : bool := (lo <=? c) && (c <=? hi).

(** LineTerminator: LF, CR, LS, PS. *)
Definition is_line_terminator (c : N) : bool :=
  (c =? 10) || (c =? 13) || (c =? 8232) || (c =? 8233).

(** WhiteSpace: TAB, VT, FF, SP, NBSP, ZWNBSP and the category Zs. *)
Definition is_white_space (c : N) : bool :=
  (c =? 9) || (c =? 11) || (c =? 12) || (c =? 32) || (c =? 160) ||
  (c =? 5760) || in_range 8192 8202 c || (c =? 8239) || (c =? 8287) ||
  (c =? 12288) || (c =? 65279).

(** [\s], also the set that [String.prototype.trim] strips. *)
Definition cls_s (c : N) : bool := is_white_space c || is_line_terminator c.
(** [\S] *)
Definition cls_S (c : N) : bool := negb (cls_s c).
(** [\d] *)
Definition cls_d (c : N) : bool := in_range 48 57 c.
(** [.] without the s flag *)
Definition cls_dot (c : N) : bool := negb (is_line_terminator c).
(** ['-] *)
Definition cls_quote_hyphen (c : N) : bool := (c =? 39) || (c =? 45).
(** [[0-9a-zA-Z'-]]; the i flag adds nothing to it. *)
Definition cls_tag (c : N) : bool :=
  in_range 48 57 c || in_range 97 122 c || in_range 65 90 c ||
  (c =? 39) || (c =? 45).

(** Canonicalize of the i flag (no u flag): the upper-case form.  A code
    unit above 127 never canonicalizes to an ASCII one, so against the
    ASCII literals of the patterns below only the ASCII folding matters. *)
Definition canonicalize (c : N) : N := if in_range 97 122 c then c - 32 else c.

(** [String.prototype.toLowerCase] on the ASCII range, which is all a
    parsed verb contains. *)
Definition toLowerCase (s : jsstring) : jsstring :=
  (λ c, if in_range 65 90 c then c + 32 else c) <$> s.
End Characters.

Fixpoint trimStart (s : jsstring) : jsstring :=
  match s with
  | c :: s' => if cls_s c then trimStart s' else s
  | [] => []
  end.

Definition trim (s : jsstring) : jsstring :=
  reverse (trimStart (reverse (trimStart s))).

(** [parseInt] of a string that starts with decimal digits: the value of the
    leading digit run.  Numbers are kept in [Z]: the result is that of the
    code for a digit run of value at most 2^53; above it JavaScript rounds
    to a double, which [Z] does not follow, and the properties that give
    the value of an id stop at that bound ([parsed_id]).  [None] stands for
    NaN; no digit gives NaN, and so does [undefined]. *)
Fixpoint digits_value (acc : Z) (s : jsstring) : Z :=
  match s with
  | c :: s' => if cls_d c then digits_value (10 * acc + (Z.of_N c - 48)) s' else acc
  | [] => acc
  end.

Definition parseInt (arg : option jsstring) : option Z :=
  match arg with
  | Some (c :: s) => if cls_d c then Some (digits_value 0 (c :: s)) else None
  | _ => None
  end.

(** ** Regular expressions

    The fragment of the pattern language the nine patterns use, with a
    backtracking matcher in continuation-passing style.  Quantifiers are
    greedy; [*] and [+] are applied to one-character atoms only. *)

Inductive regex :=
| Eps
| Bol                          (* ^ *)
| Chr (c : N)                  (* a literal character, compared under the i flag *)
| Cls (p : N → bool)           (* \s \d . or a bracket class *)
| Cat (r1 r2 : regex)
| Alt (r1 r2 : regex)          (* r1|r2 *)
| Opt (r : regex)              (* r? *)
| Star (p : N → bool)          (* p* *)
| Plus (p : N → bool)          (* p+ *)
| Grp (n : nat) (r : regex).   (* the n-th capturing parentheses *)

Infix "+++" := Cat (at level 60, right associativity).

Fixpoint lit (s : jsstring) : regex :=
  match s with
  | [] => Eps
  | c :: s' => Chr c +++ lit s'
  end.

(** The match array: index 0 is the whole match, [None] is undefined. *)
Abbreviation captures := (list (option jsstring)).

Definition cont := nat → jsstring → captures → option captures.

Fixpoint star (p : N → bool) (k : cont) (i : nat) (s : jsstring) (c : captures)
  : option captures :=
  match s with
  | x :: s' =>
      if p x then
        match star p k (S i) s' c with
        | Some res => Some res
        | None => k i s c
        end
      else k i s c
  | [] => k i s c
  end.

Fixpoint matcher (r : regex) (k : cont) (i : nat) (s : jsstring) (c : captures)
  : option captures :=
  match r with
  | Eps => k i s c
  | Bol => if decide (i = 0) then k i s c else None
  | Chr a =>
      match s with
      | x :: s' => if N.eqb (canonicalize x) (canonicalize a) then k (S i) s' c else None
      | [] => None
      end
  | Cls p =>
      match s with
      | x :: s' => if p x then k (S i) s' c else None
      | [] => None
      end
  | Cat r1 r2 => matcher r1 (λ i' s' c', matcher r2 k i' s' c') i s c
  | Alt r1 r2 =>
      match matcher r1 k i s c with
      | Some res => Some res
      | None => matcher r2 k i s c
      end
  | Opt r1 =>
      match matcher r1 k i s c with
      | Some res => Some res
      | None => k i s c
      end
  | Star p => star p k i s c
  | Plus p =>
      match s with
      | x :: s' => if p x then star p k (S i) s' c else None
      | [] => None
      end
  | Grp n r1 => matcher r1 (λ i' s' c', k i' s' (<[n := Some (take (i' - i) s)]> c')) i s c
  end.

Fixpoint ngroups (r : regex) : nat :=
  match r with
  | Cat r1 r2 | Alt r1 r2 => ngroups r1 `max` ngroups r2
  | Opt r1 => ngroups r1
  | Grp n r1 => S n `max` ngroups r1
  | _ => 0
  end.

(** [str.match(r)] for a pattern without the g flag: the first index at
    which the pattern matches, scanning from index 0. *)
Fixpoint search (r : regex) (i : nat) (s : jsstring) : option captures :=
  match matcher (Grp 0 r) (λ _ _ c, Some c) i s (replicate (ngroups (Grp 0 r)) None) with
  | Some c => Some c
  | None =>
      match s with
      | [] => None
      | _ :: s' => search r (S i) s'
      end
  end.

Definition str_match (s : jsstring) (r : regex) : option captures := search r 0 s.

(** [m[i]] *)
Definition group (m : captures) (i : nat) : option jsstring := mjoin (m !! i).

(** ** The command patterns (App.tsx, lines 50-58) *)

(** [x(?:yz)?] *)
Definition verb (short rest : string) : regex := lit (js short) +++ Opt (lit (js rest)).

(** [(@(?:\S*['-]?)(?:[0-9a-zA-Z'-]+))] as group [n] *)
Definition tag_group (n : nat) : regex :=
  Grp n (Chr 64 +++ (Star cls_S +++ Opt (Cls cls_quote_hyphen)) +++ Plus cls_tag).

Definition re_task : regex :=
  Bol +++ Grp 1 (verb "t" "ask") +++ Cls cls_s +++ Opt (tag_group 2) +++ Grp 3 (Star cls_dot).
Definition re_edit : regex :=
  Bol +++ Grp 1 (verb "e" "dit") +++ Cls cls_s +++ Grp 2 (Plus cls_d) +++ Grp 3 (Star cls_dot).
Definition re_move : regex :=
  Bol +++ Grp 1 (Alt (lit (js "mv")) (lit (js "move"))) +++ Cls cls_s +++
  Grp 2 (Plus cls_d) +++ Cls cls_s +++ tag_group 3.
Definition re_check : regex := Bol +++ Grp 1 (verb "c" "heck") +++ Cls cls_s +++ Grp 2 (Plus cls_d).
Definition re_begin : regex := Bol +++ Grp 1 (verb "b" "egin") +++ Cls cls_s +++ Grp 2 (Plus cls_d).
Definition re_delete : regex := Bol +++ Grp 1 (verb "d" "elete") +++ Cls cls_s +++ Grp 2 (Plus cls_d).
Definition re_flag : regex := Bol +++ Grp 1 (verb "fl" "ag") +++ Cls cls_s +++ Grp 2 (Plus cls_d).
Definition re_stop : regex := Bol +++ Grp 1 (verb "st" "op") +++ Cls cls_s +++ Grp 2 (Plus cls_d).
Definition re_other : regex :=
  Bol +++ Grp 1 (Alt (lit (js "close-help")) (Alt (lit (js "help")) (lit (js "today")))).

Definition parseTaskCommand (str : jsstring) := str_match str re_task.
Definition parseEditCommand (str : jsstring) := str_match str re_edit.
Definition parseMoveCommand (str : jsstring) := str_match str re_move.
Definition parseCheckCommand (str : jsstring) := str_match str re_check.
Definition parseBeginCommand (str : jsstring) := str_match str re_begin.
Definition parseDeleteCommand (str : jsstring) := str_match str re_delete.
Definition parseFlagCommand (str : jsstring) := str_match str re_flag.
Definition parseStopCommand (str : jsstring) := str_match str re_stop.
Definition parseOtherCommand (str : jsstring) := str_match str re_other.

(** ** parseCommand (lines 43-48, 60-107) *)

Record Command := {
  command : option jsstring;
  cmd_tag : option jsstring;
  cmd_text : option jsstring;
  cmd_id : option Z
}.

(** How an evaluation ends: with a value, or by throwing. *)
Inductive error := TypeError | SyntaxError.

Inductive completion (A : Type) :=
| Normal (a : A)
| Throw (e : error).
Arguments Normal {A} a.
Arguments Throw {A} e.

(** [s.trim()]: a TypeError when the receiver is undefined. *)
Definition trim_of (s : option jsstring) : completion jsstring :=
  match s with
  | Some s => Normal (trim s)
  | None => Throw TypeError
  end.

(** [a || b] on match results *)
Definition or_else {A} (a b : option A) : option A :=
  match a with
  | Some x => Some x
  | None => b
  end.

(** The result is [Normal None] for null. *)
Definition parseCommand (input : jsstring) : completion (option Command) :=
  match parseTaskCommand input with
  | Some matchTask =>
      match trim_of (group matchTask 3) with
      | Normal t =>
          Normal (Some {| command := group matchTask 1; cmd_tag := group matchTask 2;
                          cmd_text := Some t; cmd_id := None |})
      | Throw e => Throw e
      end
  | None =>
  match parseEditCommand input with
  | Some matchEdit =>
      match trim_of (group matchEdit 3) with
      | Normal t =>
          Normal (Some {| command := group matchEdit 1; cmd_tag := None;
                          cmd_text := Some t; cmd_id := parseInt (group matchEdit 2) |})
      | Throw e => Throw e
      end
  | None =>
  match parseMoveCommand input with
  | Some matchMove =>
      Normal (Some {| command := group matchMove 1; cmd_tag := group matchMove 3;
                      cmd_text := None; cmd_id := parseInt (group matchMove 2) |})
  | None =>
  match or_else (parseCheckCommand input)
       (or_else (parseBeginCommand input)
       (or_else (parseDeleteCommand input)
       (or_else (parseFlagCommand input)
                (parseStopCommand input)))) with
  | Some matchOther =>
      Normal (Some {| command := group matchOther 1; cmd_tag := None; cmd_text := None;
                      cmd_id := parseInt (group matchOther 2) |})
  | None =>
  match parseOtherCommand input with
  | Some matchHelp =>
      Normal (Some {| command := group matchHelp 1; cmd_tag := None; cmd_text := None; cmd_id := None |})
  | None => Normal None
  end end end end end.

(** ** Tasks and state (lines 35-41, 119-130) *)

Inductive TaskStatus := NONE | DONE | WIP | WAIT | FLAG.

Global Instance TaskStatus_eq_dec : EqDecision TaskStatus.
Proof. solve_decision. Defined.

(** [end_ = 0] is the open log: [begin] writes [end: 0]. *)
Record Worklog := {
  start : Z;
  end_ : Z
}.

(** [logs] is [None] while the property is absent, which is how the [task]
    command leaves it; [tag] is [None] only if a command without a tag was
    moved onto the task. *)
Record TaskItem := {
  id : Z;
  tag : option jsstring;
  title : jsstring;
  status : TaskStatus;
  logs : option (list Worklog)
}.

Record State := {
  tasks : list TaskItem;
  showHelp : bool;
  showToday : bool
}.

Definition set_end (l : Worklog) (e : Z) : Worklog := {| start := start l; end_ := e |}.
Definition set_tag (t : TaskItem) (g : option jsstring) : TaskItem :=
  {| id := id t; tag := g; title := title t; status := status t; logs := logs t |}.
Definition set_title (t : TaskItem) (x : jsstring) : TaskItem :=
  {| id := id t; tag := tag t; title := x; status := status t; logs := logs t |}.
Definition set_status (t : TaskItem) (s : TaskStatus) : TaskItem :=
  {| id := id t; tag := tag t; title := title t; status := s; logs := logs t |}.
Definition set_logs (t : TaskItem) (ls : list Worklog) : TaskItem :=
  {| id := id t; tag := tag t; title := title t; status := status t; logs := Some ls |}.
Definition set_tasks (s : State) (ts : list TaskItem) : State :=
  {| tasks := ts; showHelp := showHelp s; showToday := showToday s |}.
Definition set_showHelp (s : State) (b : bool) : State :=
  {| tasks := tasks s; showHelp := b; showToday := showToday s |}.
Definition set_showToday (s : State) (b : bool) : State :=
  {| tasks := tasks s; showHelp := showHelp s; showToday := b |}.

(** Truthiness of a number *)
Definition truthy (z : Z) : bool := negb (z =? 0)%Z.

(** [t.logs || []] *)
Definition logs_or_empty (t : TaskItem) : list Worklog := default [] (logs t).

(** [t.id === cmd.id]; an undefined or NaN id equals no task id. *)
Definition same_id (t : TaskItem) (cmd : Command) : bool :=
  match cmd_id cmd with
  | Some i => (id t =? i)%Z
  | None => false
  end.

(** ** The world: the clock and the allocator *)

Record World := {
  ticks : nat;       (* calls of Date.now() so far *)
  allocated : nat    (* state objects created so far *)
}.

Definition M (A : Type) : Type := World → A * World.

Definition ret {A} (a : A) : M A := λ w, (a, w).
Definition bind {A B} (m : M A) (f : A → M B) : M B :=
  λ w, let '(a, w') := m w in f a w'.

Notation "x <- m ;; k" := (bind m (λ x, k))
  (at level 100, m at next level, right associativity).

(** [arr.map(f)]: the callback runs on the elements in index order. *)
Fixpoint array_map {A B} (f : A → M B) (arr : list A) : M (list B) :=
  match arr with
  | [] => ret []
  | x :: arr' => y <- f x ;; ys <- array_map f arr' ;; ret (y :: ys)
  end.

(** The state object React holds, with its identity. *)
Record StateObj := {
  addr : nat;
  content : State
}.

(** An object literal passed to [setState]: a new object. *)
Definition setState (s : State) : M StateObj :=
  λ w, ({| addr := allocated w; content := s |},
        {| ticks := ticks w; allocated := S (allocated w) |}).

Section Handler.
(** The successive readings of [Date.now()]. *)
Variable clock : nat → Z.

Definition Date_now : M Z :=
  λ w, (clock (ticks w), {| ticks := S (ticks w); allocated := allocated w |}).

(** lines 260-273 *)
Definition stopWorkLogging (t : TaskItem) : M TaskItem :=
  match logs t ≫= last with
  | Some lastLog =>
      if truthy (start lastLog) && negb (truthy (end_ lastLog)) then
        now <- Date_now ;;
        ret (set_logs t (<[length (logs_or_empty t) - 1 := set_end lastLog now]> (logs_or_empty t)))
      else ret t
  | None =>
      s <- Date_now ;;
      e <- Date_now ;;
      ret (set_logs t [ {| start := s; end_ := e |} ])
  end.

(** The callbacks of the [map] calls of lines 290-377. *)
Definition move_task (cmd : Command) (t : TaskItem) : TaskItem :=
  if same_id t cmd then set_tag t (cmd_tag cmd) else t.

Definition begin_task (cmd : Command) (t : TaskItem) : M TaskItem :=
  if same_id t cmd then
    if decide (status t ≠ WIP) then
      now <- Date_now ;;
      ret (set_logs (set_status t WIP) (logs_or_empty t ++ [ {| start := now; end_ := 0 |} ]))
    else ret t
  else ret t.

Definition check_task (cmd : Command) (t : TaskItem) : M TaskItem :=
  if same_id t cmd then
    let t := set_status t (if decide (status t = DONE) then WAIT else DONE) in
    if decide (status t = DONE) then stopWorkLogging t else ret t
  else ret t.

Definition flag_task (cmd : Command) (t : TaskItem) : M TaskItem :=
  if same_id t cmd then
    let t := set_status t (if decide (status t = FLAG) then WAIT else FLAG) in
    stopWorkLogging t
  else ret t.

Definition stop_task (cmd : Command) (t : TaskItem) : M TaskItem :=
  if same_id t cmd then
    if decide (status t = WIP) then stopWorkLogging (set_status t WAIT) else ret t
  else ret t.

Definition edit_task (cmd : Command) (task : jsstring) (t : TaskItem) : TaskItem :=
  if same_id t cmd then set_title t task else t.

(** lines 383-388.  The ids are kept in [Z], and so is the [nextId + 1] of
    line 392: the sum is that of the code as long as the ids are below
    2^53 (at 2^53 the double addition gives 2^53 again). *)
Definition nextId (ts : list TaskItem) : Z :=
  foldl (λ maxId t, if (id t >? maxId)%Z then id t else maxId) 0%Z ts.

(** [case] labels of the switch *)
Definition is_case (v : jsstring) (labels : list string) : bool :=
  bool_decide (v ∈ js <$> labels).

(** The switch of lines 289-435 on a parsed command.  [Some s] is a call
    [setState(s)]; [None] is a path that does not call [setState]. *)
Definition dispatch (state : State) (cmd : Command) : M (option State) :=
  match toLowerCase <$> command cmd with
  | None => ret None            (* a TypeError: the handler is abandoned *)
  | Some v =>
      if is_case v ["mv"; "move"] then
        ret (Some (set_tasks state (move_task cmd <$> tasks state)))
      else if is_case v ["b"; "begin"] then
        bupdated <- array_map (begin_task cmd) (tasks state) ;;
        ret (Some (set_tasks state bupdated))
      else if is_case v ["c"; "check"] then
        cupdated <- array_map (check_task cmd) (tasks state) ;;
        ret (Some (set_tasks state cupdated))
      else if is_case v ["d"; "delete"] then
        ret (Some (set_tasks state (filter (λ t, same_id t cmd = false) (tasks state))))
      else if is_case v ["fl"; "flag"] then
        flupdated <- array_map (flag_task cmd) (tasks state) ;;
        ret (Some (set_tasks state flupdated))
      else if is_case v ["st"; "stop"] then
        stupdated <- array_map (stop_task cmd) (tasks state) ;;
        ret (Some (set_tasks state stupdated))
      else if is_case v ["t"; "task"] then
        let tag :=
          match cmd_tag cmd with
          | Some (c :: g) => c :: g
          | _ => js "@uncategorized"
          end in
        match cmd_text cmd with
        | Some (c :: x) =>
            ret (Some (set_tasks state
                   (tasks state ++
                    [ {| id := nextId (tasks state) + 1; tag := Some tag;
                         title := c :: x; status := WAIT; logs := None |} ])))
        | _ => ret None
        end
      else if is_case v ["e"; "edit"] then
        match cmd_text cmd with
        | Some (c :: x) =>
            ret (Some (set_tasks state (edit_task cmd (c :: x) <$> tasks state)))
        | _ => ret None
        end
      else if is_case v ["help"] then ret (Some (set_showHelp state true))
      else if is_case v ["close-help"] then ret (Some (set_showHelp state false))
      else if is_case v ["today"] then
        ret (Some (set_showToday state (negb (showToday state))))
      else ret None
  end.

(** A parsed command reaching the switch: the state object afterwards. *)
Definition handle (st : StateObj) (cmd : Command) : M StateObj :=
  next <- dispatch (content st) cmd ;;
  match next with
  | Some s => setState s
  | None => ret st
  end.

(** lines 283-440, for the Enter key: the state object after the event. *)
Definition onKeyPress (st : StateObj) (input : jsstring) : M StateObj :=
  match parseCommand input with
  | Normal (Some cmd) => handle st cmd
  | _ => ret st
  end.

Fixpoint handle_all (st : StateObj) (cmds : list Command) : M StateObj :=
  match cmds with
  | [] => ret st
  | cmd :: cmds' => st' <- handle st cmd ;; handle_all st' cmds'
  end.

Fixpoint type_all (st : StateObj) (inputs : list jsstring) : M StateObj :=
  match inputs with
  | [] => ret st
  | input :: inputs' => st' <- onKeyPress st input ;; type_all st' inputs'
  end.
End Handler.

(** ** The Today projection (lines 202-226) *)

(** An entry of the list [today]; [act_done] is rendered as FINISHED. *)
Record Activity := {
  act_task : jsstring;
  act_start : Z;
  act_end : Z;
  act_done : bool
}.

Definition isSameDay (a b : Z) : bool := (Z.abs (a - b) <=? 86400000)%Z.

(** The inner [reduce] over the logs of one task, with the index [i]. *)
Definition works (now : Z) (t : TaskItem) (ls : list Worklog) : list Activity :=
  mjoin (imap (λ i l,
    if truthy (start l) && isSameDay now (start l) then
      [ {| act_task := title t; act_start := start l; act_end := end_ l;
           act_done := truthy (end_ l) && bool_decide (i = length ls - 1) &&
                       bool_decide (status t = DONE) |} ]
    else []) ls).

(** The outer [reduce]: tasks without a logs property add nothing. *)
Definition activities (now : Z) (ts : list TaskItem) : list Activity :=
  t ← ts; match logs t with
          | Some ls => works now t ls
          | None => []
          end.

(** [today.sort((a, b) => a.start - b.start)]: the sort is stable, so its
    result is that of insertion from the right. *)
Fixpoint sort_insert (a : Activity) (l : list Activity) : list Activity :=
  match l with
  | [] => [a]
  | b :: l' => if (act_start a <=? act_start b)%Z then a :: b :: l' else b :: sort_insert a l'
  end.

Definition array_sort (l : list Activity) : list Activity := foldr sort_insert [] l.

Definition Today (clock : nat → Z) (state : State) : M (list Activity) :=
  now <- Date_now clock ;;
  ret (array_sort (activities now (tasks state))).

(** ** getInitialState (lines 241-258) *)

Definition default_state : State := {| tasks := []; showHelp := true; showToday := false |}.

Section Load.
(** The values [JSON.parse] produces, the parser and truthiness on them. *)
Variable json : Type.
Variable JSON_parse : jsstring → completion json.
Variable json_truthy : json → bool.

(** [window.localStorage.getItem]: [None] is null. *)
Definition Storage := jsstring → option jsstring.

(** What the function returns: the parsed value as it is, or the literal. *)
Inductive initial :=
| Saved (parsed : json)
| Literal (s : State).

Definition getInitialState (localStorage : option Storage) : completion initial :=
  let otherwise := Normal (Literal default_state) in
  match localStorage with
  | Some storage =>
      match storage (js "pomoday") with
      | Some (c :: s) =>
          match JSON_parse (c :: s) with
          | Normal parsed => if json_truthy parsed then Normal (Saved parsed) else otherwise
          | Throw _ => otherwise          (* catch {} *)
          end
      | _ => otherwise
      end
  | None => otherwise
  end.
End Load.

Arguments Saved {json} parsed.
Arguments Literal {json} s.

(** ** Vocabulary of the properties *)

(** The verb of [cmd], lower-cased, is one of [labels]. *)
Definition verb_in (cmd : Command) (labels : list string) : bool :=
  match command cmd with
  | Some v => is_case (toLowerCase v) labels
  | None => false
  end.

Definition is_task_cmd (cmd : Command) : bool :=
  verb_in cmd ["t"; "task"] &&
  match cmd_text cmd with
  | Some (_ :: _) => true
  | _ => false
  end.

Definition is_delete_cmd (cmd : Command) : bool := verb_in cmd ["d"; "delete"].
Definition is_begin_cmd (cmd : Command) : bool := verb_in cmd ["b"; "begin"].
Definition is_stop_cmd (cmd : Command) : bool := verb_in cmd ["st"; "stop"].
Definition is_check_cmd (cmd : Command) : bool := verb_in cmd ["c"; "check"].
Definition is_flag_cmd (cmd : Command) : bool := verb_in cmd ["fl"; "flag"].

Definition is_worklog_cmd (cmd : Command) : bool :=
  is_begin_cmd cmd || is_stop_cmd cmd || is_check_cmd cmd || is_flag_cmd cmd.

(** The shape of a command, by verb: which fields are present. *)
Definition starts_with_at (g : jsstring) : bool :=
  match g with
  | c :: _ :: _ => (c =? 64)%N
  | _ => false
  end.

Definition natural_id (i : option Z) : bool :=
  match i with
  | Some z => (0 <=? z)%Z
  | None => false
  end.

Definition well_formed (cmd : Command) : bool :=
  if verb_in cmd ["t"; "task"] then
    match cmd_tag cmd with Some g => starts_with_at g | None => true end &&
    bool_decide (is_Some (cmd_text cmd)) && bool_decide (cmd_id cmd = None)
  else if verb_in cmd ["e"; "edit"] then
    bool_decide (cmd_tag cmd = None) && bool_decide (is_Some (cmd_text cmd)) &&
    natural_id (cmd_id cmd)
  else if verb_in cmd ["mv"; "move"] then
    match cmd_tag cmd with Some g => starts_with_at g | None => false end &&
    bool_decide (cmd_text cmd = None) && natural_id (cmd_id cmd)
  else if verb_in cmd ["c"; "check"; "b"; "begin"; "d"; "delete"; "fl"; "flag"; "st"; "stop"] then
    bool_decide (cmd_tag cmd = None) && bool_decide (cmd_text cmd = None) &&
    natural_id (cmd_id cmd)
  else if verb_in cmd ["close-help"; "help"; "today"] then
    bool_decide (cmd_tag cmd = None) && bool_decide (cmd_text cmd = None) &&
    bool_decide (cmd_id cmd = None)
  else false.

(** The ids of the tasks a step appended to the list. *)
Definition appended (before after : StateObj) : list Z :=
  id <$> drop (length (tasks (content before))) (tasks (content after)).

(** The ids handed out while the commands run, in order. *)
Fixpoint ids_assigned (clock : nat → Z) (st : StateObj) (cmds : list Command) : M (list Z) :=
  match cmds with
  | [] => ret []
  | cmd :: cmds' =>
      st' <- handle clock st cmd ;;
      rest <- ids_assigned clock st' cmds' ;;
      ret (appended st st' ++ rest)
  end.

(** [ids] is the set {1..n}. *)
Definition ids_exactly (ids : list Z) (n : nat) : Prop :=
  ∀ i : Z, i ∈ ids ↔ (1 ≤ i ≤ Z.of_nat n)%Z.

Definition count_tasks (cmds : list Command) : nat :=
  length (filter (λ c, is_task_cmd c = true) cmds).

(** Work logs *)
Definition is_open (l : Worklog) : Prop := end_ l = 0%Z.

Definition open_count (t : TaskItem) : nat :=
  length (filter is_open (logs_or_empty t)).

(** The states the handler can produce from the default state. *)
Inductive reachable (clock : nat → Z) : State → Prop :=
| reachable_default : reachable clock default_state
| reachable_step s cmd w s' w' :
    reachable clock s →
    dispatch clock s cmd w = (Some s', w') →
    reachable clock s'.

(** What holds of every task of a reachable state: logs have a start, and
    only the last log of a task in progress is open. *)
Definition task_ok (t : TaskItem) : Prop :=
  ∀ j l, logs_or_empty t !! j = Some l →
    start l ≠ 0%Z ∧ (end_ l = 0%Z → S j = length (logs_or_empty t) ∧ status t = WIP).

(** The leading run of decimal digits of a string. *)
Fixpoint digit_run (s : jsstring) : jsstring :=
  match s with
  | c :: s' => if cls_d c then c :: digit_run s' else []
  | [] => []
  end.

(** The declarative reading of a pattern: matching [r] at index [i] on [s]
    with captures [c] can leave off at index [i'] with [s'] left over and
    captures [c']. *)
Fixpoint sem (r : regex) (i : nat) (s : jsstring) (c : captures)
    (i' : nat) (s' : jsstring) (c' : captures) : Prop :=
  match r with
  | Eps => i' = i ∧ s' = s ∧ c' = c
  | Bol => i = 0 ∧ i' = i ∧ s' = s ∧ c' = c
  | Chr a => ∃ x, s = x :: s' ∧ canonicalize x = canonicalize a ∧ i' = S i ∧ c' = c
  | Cls p => ∃ x, s = x :: s' ∧ p x = true ∧ i' = S i ∧ c' = c
  | Cat r1 r2 => ∃ i1 s1 c1, sem r1 i s c i1 s1 c1 ∧ sem r2 i1 s1 c1 i' s' c'
  | Alt r1 r2 => sem r1 i s c i' s' c' ∨ sem r2 i s c i' s' c'
  | Opt r1 => sem r1 i s c i' s' c' ∨ (i' = i ∧ s' = s ∧ c' = c)
  | Star p => ∃ u, s = u ++ s' ∧ Forall (λ x, p x = true) u ∧ i' = i + length u ∧ c' = c
  | Plus p => ∃ x u, s = x :: u ++ s' ∧ p x = true ∧ Forall (λ x, p x = true) u ∧
                     i' = S i + length u ∧ c' = c
  | Grp n r1 => ∃ c1, sem r1 i s c i' s' c1 ∧ c' = <[n := Some (take (i' - i) s)]> c1
  end.

(** The Today list as the specification words it: every log whose start is
    within 24 hours of [now], finished when it is the final log of a DONE
    task. *)
Definition spec_works (now : Z) (t : TaskItem) (ls : list Worklog) : list Activity :=
  mjoin (imap (λ i l,
    if isSameDay now (start l) then
      [ {| act_task := title t; act_start := start l; act_end := end_ l;
           act_done := bool_decide (i = length ls - 1) && bool_decide (status t = DONE) |} ]
    else []) ls).

Definition spec_today (now : Z) (ts : list TaskItem) : list Activity :=
  array_sort (t ← ts; spec_works now t (logs_or_empty t)).

(** A log [l] at index [j] of the task at index [i] is shown today. *)
Definition shown (now : Z) (ts : list TaskItem) (a : Activity) : Prop :=
  ∃ i t ls j l,
    ts !! i = Some t ∧ logs t = Some ls ∧ ls !! j = Some l ∧
    start l ≠ 0%Z ∧ (Z.abs (now - start l) ≤ 86400000)%Z ∧
    act_task a = title t ∧ act_start a = start l ∧ act_end a = end_ l ∧
    (act_done a = true ↔ end_ l ≠ 0%Z ∧ S j = length ls ∧ status t = DONE).


(** The order of the Today list. *)
Definition by_start (a b : Activity) : Prop := (act_start a ≤ act_start b)%Z.

(** A log that the Today list keeps: started, and within 24 hours of [now]. *)
Definition recent (now : Z) (l : Worklog) : Prop :=
  start l ≠ 0%Z ∧ (Z.abs (now - start l) ≤ 86400000)%Z.

Global Instance recent_dec now l : Decision (recent now l).
Proof. unfold recent. apply _. Defined.

(** [u] spells the word [a] up to case. *)
Definition spells (u a : jsstring) : Prop :=
  Forall2 (λ x y, canonicalize x = canonicalize y) u a.

(** [s] does not go on with a character of [p]. *)
Definition stops (p : N → bool) (s : jsstring) : Prop :=
  match s with
  | x :: _ => p x = false
  | [] => True
  end.

(** The verbs of lines 53-57. *)
Definition one_id_verbs : list string :=
  ["c"; "check"; "b"; "begin"; "d"; "delete"; "fl"; "flag"; "st"; "stop"].

(** What a [map] callback may do to the world: read the clock. *)
Definition reads_clock {A B} (f : A → M B) : Prop :=
  ∀ x w, ticks w ≤ ticks (f x w).2 ∧ allocated (f x w).2 = allocated w.

(** Every log of [t] is started, and only the last one may be open. *)
Definition open_last (t : TaskItem) : Prop :=
  ∀ j l, logs_or_empty t !! j = Some l →
    start l ≠ 0%Z ∧ (end_ l = 0%Z → S j = length (logs_or_empty t)).

(** Every log of [t] is started and closed. *)
Definition all_closed (t : TaskItem) : Prop :=
  ∀ j l, logs_or_empty t !! j = Some l → start l ≠ 0%Z ∧ end_ l ≠ 0%Z.

(** The closed logs of [t] are still there in [t'], at their index. *)
Definition keeps_closed (t t' : TaskItem) : Prop :=
  ∀ j l, logs_or_empty t !! j = Some l → end_ l ≠ 0%Z → logs_or_empty t' !! j = Some l.



(** The five inputs of the end-to-end scenario, and the task lists after
    each of them. *)
Definition scenario (clock : nat → Z) (st : StateObj) (w : World) : list (list TaskItem) :=
  let r1 := onKeyPress clock st (js "t @work Write spec") w in
  let r2 := onKeyPress clock r1.1 (js "b 1") r1.2 in
  let r3 := onKeyPress clock r2.1 (js "c 1") r2.2 in
  let r4 := onKeyPress clock r3.1 (js "c 1") r3.2 in
  let r5 := onKeyPress clock r4.1 (js "d 1") r4.2 in
  [tasks (content r1.1); tasks (content r2.1); tasks (content r3.1);
   tasks (content r4.1); tasks (content r5.1)].

(** The task of the scenario, with a status and a logs property. *)
Definition spec_task (s : TaskStatus) (ls : option (list Worklog)) : TaskItem :=
  {| id := 1; tag := Some (js "@work"); title := js "Write spec"; status := s; logs := ls |}.

(** A task as lines 153 and 309 read it: [t.logs || []] for the logs. *)
Definition with_logs_or_empty (t : TaskItem) : TaskItem := set_logs t (logs_or_empty t).

(** ** Sample values *)

Definition sample_clock (n : nat) : Z := 1700000000000 + Z.of_nat n.

(** The clock that gives the readings of a list, then 0. *)
Definition clock_of (readings : list Z) (n : nat) : Z := default 0%Z (readings !! n).

Definition initial_world : World := {| ticks := 0; allocated := 1 |}.

Definition initial_object : StateObj := {| addr := 0; content := default_state |}.

Definition one_id_cmd (v : string) (i : Z) : Command :=
  {| command := Some (js v); cmd_tag := None; cmd_text := None; cmd_id := Some i |}.

Definition task_cmd (x : string) : Command :=
  {| command := Some (js "t"); cmd_tag := None; cmd_text := Some (js x); cmd_id := None |}.

Definition sample_task (s : TaskStatus) (ls : list Worklog) : TaskItem :=
  {| id := 1; tag := Some (js "@work"); title := js "x"; status := s; logs := Some ls |}.

Definition sample_state (s : TaskStatus) (ls : list Worklog) : StateObj :=
  {| addr := 0;
     content := {| tasks := [sample_task s ls]; showHelp := true; showToday := false |} |}.

(** A DONE task with a log started 25 hours and a log started 23 hours
    before the first reading of [sample_clock]. *)
Definition two_days_logs : list Worklog :=
  [ {| start := sample_clock 0 - 25 * 3600000; end_ := sample_clock 0 - 25 * 3600000 + 1000 |};
    {| start := sample_clock 0 - 23 * 3600000; end_ := sample_clock 0 - 23 * 3600000 + 1000 |}
  ]%Z.

Definition two_days_state : State := content (sample_state DONE two_days_logs).

(** A task begun when the clock reads 1000 and checked when it reads 0, and
    a task begun when the clock reads 0. *)
Definition checked_at_zero : StateObj * World :=
  type_all (clock_of [1000; 0; 2000]%Z) initial_object
    [js "t @work x"; js "b 1"; js "c 1"] initial_world.

Definition begun_at_zero : StateObj * World :=
  type_all (clock_of [0; 5000]%Z) initial_object [js "t @work x"; js "b 1"] initial_world.


(** ** Vocabulary of the further properties *)

(** ** The grammar of commands, read off the patterns *)

(** A tag token: [@], then characters that are not white space, the last
    one from [[0-9a-zA-Z'-]]. *)
Definition tag_ok (g : jsstring) : bool :=
  match g with
  | c :: body =>
      (c =? 64)%N && forallb cls_S body && from_option cls_tag false (last body)
  | [] => false
  end.

(** No white space at either end. *)
Definition trimmed (x : jsstring) : bool :=
  from_option (λ c, negb (cls_s c)) true (head x) &&
  from_option (λ c, negb (cls_s c)) true (last x).

(** The leading run of characters that [.] matches. *)
Fixpoint dot_run (s : jsstring) : jsstring :=
  match s with
  | c :: s' => if cls_dot c then c :: dot_run s' else []
  | [] => []
  end.

(** A non-empty string of decimal digits. *)
Definition digits (ds : jsstring) : Prop :=
  ds ≠ [] ∧ Forall (λ x, cls_d x = true) ds.

(** The id [i] that [parseInt] gives on the digits [ds]: a number, and the
    decimal value of [ds] when that value is at most 2^53. *)
Definition parsed_id (ds : jsstring) (i : option Z) : Prop :=
  is_Some i ∧ ((digits_value 0 ds ≤ 2 ^ 53)%Z → i = Some (digits_value 0 ds)).

(** [input] reads as [cmd]: the verb as typed, one white-space character,
    then the fields of the verb; what follows the last field is free. *)
Inductive reads_as : jsstring → Command → Prop :=
| reads_task v w body rest :
    toLowerCase v ∈ js <$> ["t"; "task"] → cls_s w = true →
    Forall (λ x, cls_dot x = true) body →
    reads_as (v ++ w :: body ++ rest)
      {| command := Some v; cmd_tag := None; cmd_text := Some (trim body); cmd_id := None |}
| reads_tagged_task v w g body rest :
    toLowerCase v ∈ js <$> ["t"; "task"] → cls_s w = true → tag_ok g = true →
    Forall (λ x, cls_dot x = true) body →
    reads_as (v ++ w :: g ++ body ++ rest)
      {| command := Some v; cmd_tag := Some g; cmd_text := Some (trim body); cmd_id := None |}
| reads_edit v w ds body rest :
    toLowerCase v ∈ js <$> ["e"; "edit"] → cls_s w = true → digits ds →
    Forall (λ x, cls_dot x = true) body →
    reads_as (v ++ w :: ds ++ body ++ rest)
      {| command := Some v; cmd_tag := None; cmd_text := Some (trim body);
         cmd_id := parseInt (Some ds) |}
| reads_move v w ds w' g rest :
    toLowerCase v ∈ js <$> ["mv"; "move"] → cls_s w = true → digits ds →
    cls_s w' = true → tag_ok g = true →
    reads_as (v ++ w :: ds ++ w' :: g ++ rest)
      {| command := Some v; cmd_tag := Some g; cmd_text := None;
         cmd_id := parseInt (Some ds) |}
| reads_one_id v w ds rest :
    toLowerCase v ∈ js <$> one_id_verbs → cls_s w = true → digits ds →
    reads_as (v ++ w :: ds ++ rest)
      {| command := Some v; cmd_tag := None; cmd_text := None;
         cmd_id := parseInt (Some ds) |}
| reads_keyword v rest :
    toLowerCase v ∈ js <$> ["close-help"; "help"; "today"] →
    reads_as (v ++ rest)
      {| command := Some v; cmd_tag := None; cmd_text := None; cmd_id := None |}.

(** [input] parses as [cmd]: the line divided the way the patterns divide
    it, every run taken as far as it goes.  The tag of a task or a move is
    the word that begins with [@], up to its last character of
    [[0-9a-zA-Z'-]]; a task whose text begins with an [@] word that holds no
    such character has no tag, and the word is part of its text. *)
Inductive parses_as : jsstring → Command → Prop :=
| parses_task v w rest :
    toLowerCase v ∈ js <$> ["t"; "task"] → cls_s w = true →
    (∀ pre x tl, Forall (λ y, cls_S y = true) pre → cls_tag x = true →
                 rest ≠ 64%N :: pre ++ x :: tl) →
    parses_as (v ++ w :: rest)
      {| command := Some v; cmd_tag := None; cmd_text := Some (trim (dot_run rest));
         cmd_id := None |}
| parses_tagged_task v w pre x junk rest :
    toLowerCase v ∈ js <$> ["t"; "task"] → cls_s w = true →
    Forall (λ y, cls_S y = true) pre → cls_tag x = true →
    Forall (λ y, cls_S y = true ∧ cls_tag y = false) junk → stops cls_S rest →
    parses_as (v ++ w :: 64%N :: pre ++ x :: junk ++ rest)
      {| command := Some v; cmd_tag := Some (64%N :: pre ++ [x]);
         cmd_text := Some (trim (dot_run (junk ++ rest))); cmd_id := None |}
| parses_edit v w d ds rest i :
    toLowerCase v ∈ js <$> ["e"; "edit"] → cls_s w = true →
    cls_d d = true → Forall (λ y, cls_d y = true) ds → stops cls_d rest →
    parsed_id (d :: ds) i →
    parses_as (v ++ w :: d :: ds ++ rest)
      {| command := Some v; cmd_tag := None; cmd_text := Some (trim (dot_run rest));
         cmd_id := i |}
| parses_move v w d ds w' pre x junk rest i :
    toLowerCase v ∈ js <$> ["mv"; "move"] → cls_s w = true →
    cls_d d = true → Forall (λ y, cls_d y = true) ds → cls_s w' = true →
    Forall (λ y, cls_S y = true) pre → cls_tag x = true →
    Forall (λ y, cls_S y = true ∧ cls_tag y = false) junk → stops cls_S rest →
    parsed_id (d :: ds) i →
    parses_as (v ++ w :: d :: ds ++ w' :: 64%N :: pre ++ x :: junk ++ rest)
      {| command := Some v; cmd_tag := Some (64%N :: pre ++ [x]); cmd_text := None;
         cmd_id := i |}
| parses_one_id v w d ds rest i :
    toLowerCase v ∈ js <$> one_id_verbs → cls_s w = true →
    cls_d d = true → Forall (λ y, cls_d y = true) ds → stops cls_d rest →
    parsed_id (d :: ds) i →
    parses_as (v ++ w :: d :: ds ++ rest)
      {| command := Some v; cmd_tag := None; cmd_text := None; cmd_id := i |}
| parses_keyword v rest :
    toLowerCase v ∈ js <$> ["close-help"; "help"; "today"] →
    parses_as (v ++ rest)
      {| command := Some v; cmd_tag := None; cmd_text := None; cmd_id := None |}.

(** ** Vocabulary of the reducer properties *)

(** A [map] callback that reads nothing of the world. *)
Definition pure_callback {A B} (f : A → B) : A → M B := λ x, ret (f x).

(** The callbacks the switch maps over the tasks, with the verbs of their
    case. *)
Inductive mutator (clock : nat → Z) (cmd : Command) : (TaskItem → M TaskItem) → Prop :=
| mutator_move :
    verb_in cmd ["mv"; "move"] = true →
    mutator clock cmd (pure_callback (move_task cmd))
| mutator_begin :
    verb_in cmd ["b"; "begin"] = true → mutator clock cmd (begin_task clock cmd)
| mutator_check :
    verb_in cmd ["c"; "check"] = true → mutator clock cmd (check_task clock cmd)
| mutator_flag :
    verb_in cmd ["fl"; "flag"] = true → mutator clock cmd (flag_task clock cmd)
| mutator_stop :
    verb_in cmd ["st"; "stop"] = true → mutator clock cmd (stop_task clock cmd)
| mutator_edit x :
    verb_in cmd ["e"; "edit"] = true → cmd_text cmd = Some x → x ≠ [] →
    mutator clock cmd (pure_callback (edit_task cmd x)).

(** The task that the [task] command appends to [ts]. *)
Definition new_task (ts : list TaskItem) (cmd : Command) (t : TaskItem) : Prop :=
  id t = (nextId ts + 1)%Z ∧ status t = WAIT ∧ logs t = None ∧
  cmd_text cmd = Some (title t) ∧ title t ≠ [] ∧
  tag t = Some match cmd_tag cmd with
               | Some (c :: g) => c :: g
               | _ => js "@uncategorized"
               end.

(** The states that typing lines into the input box, each followed by
    Enter, can produce from the default state. *)
Inductive typed (clock : nat → Z) : State → Prop :=
| typed_default : typed clock default_state
| typed_step s input cmd w s' w' :
    typed clock s →
    parseCommand input = Normal (Some cmd) →
    dispatch clock s cmd w = (Some s', w') →
    typed clock s'.

(** The text of a task as the parser hands it over: not empty, no white
    space at either end, on one line. *)
Definition title_ok (x : jsstring) : Prop :=
  x ≠ [] ∧ trimmed x = true ∧ Forall (λ c, is_line_terminator c = false) x.

(** The [case] labels of the switch of lines 289-435. *)
Definition switch_labels : list string :=
  ["mv"; "move"; "b"; "begin"; "c"; "check"; "d"; "delete"; "fl"; "flag"; "st"; "stop";
   "t"; "task"; "e"; "edit"; "help"; "close-help"; "today"].

(** The switch has nothing to do on [cmd]: no case for its verb, or a task
    or an edit whose text is missing or empty. *)
Definition ignored (cmd : Command) : bool :=
  negb (verb_in cmd switch_labels) ||
  (verb_in cmd ["t"; "task"; "e"; "edit"] &&
   match cmd_text cmd with
   | Some (_ :: _) => false
   | _ => true
   end).

(** The ids of [ts] are positive and increase along the list. *)
Definition ids_ok (ts : list TaskItem) : Prop :=
  StronglySorted Z.lt (id <$> ts) ∧ Forall (Z.le 1) (id <$> ts).

(** A task in progress has a last log, and that log is open. *)
Definition wip_open (t : TaskItem) : Prop :=
  status t = WIP → ∃ ls l, logs t = Some (ls ++ [l]) ∧ end_ l = 0%Z.

(** A task as typing makes it: a tag token as its tag and a text of the
    parser as its title. *)
Definition labelled (t : TaskItem) : Prop :=
  (∃ g, tag t = Some g ∧ tag_ok g = true) ∧ title_ok (title t).

(** ** The time spent on a task (TimeSpent, lines 150-160) *)

(** [arr.reduce(f, init)] with a callback that may read the clock. *)
Fixpoint array_reduce {A B} (f : B → A → M B) (arr : list A) (init : B) : M B :=
  match arr with
  | [] => ret init
  | x :: arr' => acc <- f init x ;; array_reduce f arr' acc
  end.

(** The callback of the [reduce] of lines 153-160. *)
Definition add_log (clock : nat → Z) (total : Z) (log : Worklog) : M Z :=
  if truthy (end_ log) then ret (total + (end_ log - start log))%Z
  else now <- Date_now clock ;; ret (total + (now - start log))%Z.

(** The sum that [totalTime] is made of, in milliseconds: the [reduce] of
    lines 153-160, before its result is divided by 1000. *)
Definition totalTime_ms (clock : nat → Z) (task : TaskItem) : M Z :=
  array_reduce (add_log clock) (logs_or_empty task) 0%Z.

(** The length of a closed log. *)
Definition spent (l : Worklog) : Z := (end_ l - start l)%Z.

(** ** The groups of tasks (lines 442-448) *)

(** [groups[t.tag]]: the property name of a tag; a missing tag reads as
    the name [undefined]. *)
Definition group_key (t : TaskItem) : jsstring := default (js "undefined") (tag t).

(** The object [groups] as the list of its own properties in creation
    order, which is the order of [Object.keys] for names that are not array
    indices.  The names here are tags: a tag of a typed state begins with
    [@], so it is neither an array index nor a name that [{}] inherits, and
    [groups[t.tag]] is falsy exactly when the object has no such property
    of its own. *)
Abbreviation groups := (list (jsstring * list TaskItem)).

(** [if (!groups[k]) groups[k] = []; groups[k].push(t)] *)
Fixpoint push_group (k : jsstring) (t : TaskItem) (gs : groups) : groups :=
  match gs with
  | [] => [(k, [t])]
  | (k', ts) :: gs' =>
      if decide (k' = k) then (k', ts ++ [t]) :: gs' else (k', ts) :: push_group k t gs'
  end.

Definition taskGroups (ts : list TaskItem) : groups :=
  foldl (λ gs t, push_group (group_key t) t gs) [] ts.

(** ** The summary (lines 450-467) *)

Record Stats := {
  done : Z;
  wip : Z;
  pending : Z
}.

Definition summary (ts : list TaskItem) : Stats :=
  foldl (λ stats t,
    match status t with
    | WAIT => {| done := done stats; wip := wip stats; pending := pending stats + 1 |}
    | DONE => {| done := done stats + 1; wip := wip stats; pending := pending stats |}
    | WIP => {| done := done stats; wip := wip stats + 1; pending := pending stats |}
    | _ => stats
    end) {| done := 0; wip := 0; pending := 0 |} ts.

(** The number of tasks of [ts] with the status [s]. *)
Definition count_status (s : TaskStatus) (ts : list TaskItem) : Z :=
  Z.of_nat (length (filter (λ t, status t = s) ts)).

(** A stored value that the loader returns: storage is there, the string
    under the key is not empty, it parses, and the parsed value is truthy. *)
Definition loads {json} (JSON_parse : jsstring → completion json)
    (json_truthy : json → bool) (localStorage : option Storage) (parsed : json) : Prop :=
  ∃ storage saved,
    localStorage = Some storage ∧ storage (js "pomoday") = Some saved ∧ saved ≠ [] ∧
    JSON_parse saved = Normal parsed ∧ json_truthy parsed = true.

(** [gs] holds the tasks of [ts] by key: one property for each key that
    occurs, holding the tasks of [ts] with that key in the order of [ts]. *)
Definition grouped (ts : list TaskItem) (gs : groups) : Prop :=
  NoDup gs.*1 ∧
  ∀ k g, (k, g) ∈ gs ↔ g ≠ [] ∧ g = filter (λ t, group_key t = k) ts.

(** The keys of [gs] are in the order in which [ts] first shows them: of
    two keys, a task of the earlier one comes before every task of the
    later one. *)
Definition first_seen_order (ts : list TaskItem) (keys : list jsstring) : Prop :=
  ∀ i j k k', keys !! i = Some k → keys !! j = Some k' → i < j →
    ∃ p t, ts !! p = Some t ∧ group_key t = k ∧
      ∀ q t', ts !! q = Some t' → group_key t' = k' → p < q.

(** The logs of [t] are made of readings of the clock taken before the
    [n]-th one: a start, and an end that is 0 or a reading not taken before
    the start. *)
Definition stamped (clock : nat → Z) (n : nat) (t : TaskItem) : Prop :=
  ∀ l, l ∈ logs_or_empty t →
    ∃ i, i < n ∧ start l = clock i ∧
      (end_ l = 0%Z ∨ ∃ j, i ≤ j ∧ j < n ∧ end_ l = clock j).

(** ** The total of the Today panel (line 226) *)

(** [(t.end || now) - t.start] *)
Definition entry_time (now : Z) (t : Activity) : Z :=
  ((if truthy (act_end t) then act_end t else now) - act_start t)%Z.

(** The sum that the panel's [totalTime] is made of, in milliseconds: the
    [reduce] of line 226, before its result is divided by 1000. *)
Definition Today_totalTime_ms (now : Z) (today : list Activity) : Z :=
  foldl (λ total t, total + entry_time now t)%Z 0%Z today.

(** What an edit and a move keep of a task. *)
Definition kept_by_edit (t : TaskItem) : Z * TaskStatus * option (list Worklog) :=
  (id t, status t, logs t).

(** Four lines typed into the default state: three tasks, the first one in
    progress. *)
Definition sample_inputs : list jsstring :=
  [js "t @home buy milk"; js "task call mum"; js "b 1"; js "t @home sweep"].

Definition sample_typed : StateObj * World :=
  type_all sample_clock initial_object sample_inputs initial_world.

Definition sample_nth (n : nat) : TaskItem :=
  default (sample_task WAIT []) (tasks (content sample_typed.1) !! n).

(** The first letters of the verbs, in upper case: T E M C B D F S H. *)
Definition verb_initials : list N := [84; 69; 77; 67; 66; 68; 70; 83; 72]%N.


(** * Properties *)

(** ** The matcher is sound for the declarative reading *)

Lemma star_sound p k i s c res :
  star p k i s c = Some res →
  ∃ u s', s = u ++ s' ∧ Forall (λ x, p x = true) u ∧ k (i + length u) s' c = Some res.
Proof.
  revert i. induction s as [|x s IH]; intros i H; simpl in H.
  - exists [], []. rewrite Nat.add_0_r. done.
  - destruct (p x) eqn:Hp.
    + destruct (star p k (S i) s c) eqn:Hs.
      * injection H as ->. apply IH in Hs as (u & s' & -> & Hu & Hk).
        exists (x :: u), s'. split; [done|]. split; [by constructor|].
        simpl. by rewrite <- Nat.add_succ_comm.
      * exists [], (x :: s). rewrite Nat.add_0_r. done.
    + exists [], (x :: s). rewrite Nat.add_0_r. done.
Qed.

Lemma matcher_sound r : ∀ k i s c res,
  matcher r k i s c = Some res →
  ∃ i' s' c', sem r i s c i' s' c' ∧ k i' s' c' = Some res.
Proof.
  induction r as [| |a|p|r1 IH1 r2 IH2|r1 IH1 r2 IH2|r1 IH1|p|p|n r1 IH1];
    intros k i s c res H; simpl in H.
  - by exists i, s, c.
  - destruct (decide (i = 0)); [|done]. by exists i, s, c.
  - destruct s as [|x s]; [done|].
    destruct (N.eqb_spec (canonicalize x) (canonicalize a)); [|done].
    exists (S i), s, c. split; [|done]. by exists x.
  - destruct s as [|x s]; [done|]. destruct (p x) eqn:Hp; [|done].
    exists (S i), s, c. split; [|done]. by exists x.
  - apply IH1 in H as (i1 & s1 & c1 & H1 & H).
    apply IH2 in H as (i2 & s2 & c2 & H2 & H).
    exists i2, s2, c2. split; [|done]. by exists i1, s1, c1.
  - destruct (matcher r1 k i s c) eqn:E.
    + injection H as ->. apply IH1 in E as (i' & s' & c' & ? & ?).
      exists i', s', c'. split; [by left|done].
    + apply IH2 in H as (i' & s' & c' & ? & ?).
      exists i', s', c'. split; [by right|done].
  - destruct (matcher r1 k i s c) eqn:E.
    + injection H as ->. apply IH1 in E as (i' & s' & c' & ? & ?).
      exists i', s', c'. split; [by left|done].
    + exists i, s, c. split; [by right|done].
  - apply star_sound in H as (u & s' & -> & Hu & Hk).
    exists (i + length u), s', c. split; [|done]. by exists u.
  - destruct s as [|x s]; [done|]. destruct (p x) eqn:Hp; [|done].
    apply star_sound in H as (u & s' & -> & Hu & Hk).
    exists (S i + length u), s', c. split; [|done]. by exists x, u.
  - apply IH1 in H as (i' & s' & c' & ? & ?).
    exists i', s', (<[n:=Some (take (i' - i) s)]> c'). split; [|done]. by exists c'.
Qed.

(** an anchored pattern matches at index 0 or not at all *)
Lemma search_anchored r i s :
  i ≠ 0 → search (Bol +++ r) i s = None.
Proof.
  revert i. induction s as [|x s IH]; intros i Hi; simpl.
  - destruct (decide (i = 0)); done.
  - destruct (decide (i = 0)); [done|]. by apply IH.
Qed.

Lemma str_match_anchored s r :
  str_match s (Bol +++ r) =
  matcher (Grp 0 (Bol +++ r)) (λ _ _ c, Some c) 0 s (replicate (ngroups (Grp 0 (Bol +++ r))) None).
Proof.
  unfold str_match. destruct s as [|x s]; simpl.
  - by destruct (matcher r _ _ _ _).
  - destruct (matcher r _ _ _ _); [done|]. by apply search_anchored.
Qed.

Lemma str_match_sound s r m :
  str_match s (Bol +++ r) = Some m →
  ∃ i' s', sem (Grp 0 (Bol +++ r)) 0 s (replicate (ngroups (Grp 0 (Bol +++ r))) None) i' s' m.
Proof.
  rewrite str_match_anchored. intros H.
  apply matcher_sound in H as (i' & s' & c' & H & [= ->]). eauto.
Qed.


(** ** Characters *)

Lemma in_range_spec lo hi c : in_range lo hi c = true ↔ (lo ≤ c ≤ hi)%N.
Proof. unfold in_range. rewrite andb_true_iff, !N.leb_le. done. Qed.

Lemma in_range_false lo hi c : in_range lo hi c = false ↔ (c < lo ∨ hi < c)%N.
Proof.
  unfold in_range. rewrite andb_false_iff, !N.leb_gt. done.
Qed.

Ltac range_cases :=
  repeat match goal with
  | H : in_range _ _ _ = true |- _ => apply in_range_spec in H
  | H : in_range _ _ _ = false |- _ => apply in_range_false in H
  | H : context [if in_range ?a ?b ?c then _ else _] |- _ =>
      let E := fresh in destruct (in_range a b c) eqn:E
  | |- context [if in_range ?a ?b ?c then _ else _] =>
      let E := fresh in destruct (in_range a b c) eqn:E
  end.

Lemma cls_s_range w : cls_s w = true → (w < 48 ∨ 127 < w)%N.
Proof.
  unfold cls_s, is_white_space, is_line_terminator.
  rewrite !orb_true_iff, !N.eqb_eq, in_range_spec. lia.
Qed.

Lemma toLowerCase_cons c s :
  toLowerCase (c :: s) = (if in_range 65 90 c then (c + 32)%N else c) :: toLowerCase s.
Proof. done. Qed.

Lemma lower_canonicalize x y :
  (if in_range 65 90 x then (x + 32)%N else x) = y → canonicalize x = canonicalize y.
Proof. intros <-. unfold canonicalize. range_cases; lia. Qed.

Lemma canonicalize_lower x y :
  canonicalize x = canonicalize y → in_range 65 90 y = false →
  (if in_range 65 90 x then (x + 32)%N else x) = y.
Proof. unfold canonicalize. intros H Hy. range_cases; lia. Qed.

Lemma space_not_letter w y :
  cls_s w = true → in_range 97 122 y = true → canonicalize w ≠ canonicalize y.
Proof.
  intros Hw%cls_s_range Hy. unfold canonicalize. range_cases; lia.
Qed.

Lemma space_not_digit w : cls_s w = true → cls_d w = false.
Proof. intros Hw%cls_s_range. apply in_range_false. lia. Qed.

Lemma canonicalize_at x : canonicalize x = canonicalize 64 → x = 64%N.
Proof. unfold canonicalize. simpl. range_cases; lia. Qed.


(** ** What a match of each pattern captures *)

Lemma spells_lower u a : toLowerCase u = a → spells u a.
Proof.
  intros <-. induction u as [|x u IH]; [constructor|].
  rewrite toLowerCase_cons. constructor; [|done]. by apply lower_canonicalize.
Qed.

Lemma lower_spells u a :
  spells u a → Forall (λ y, in_range 65 90 y = false) a → toLowerCase u = a.
Proof.
  induction 1 as [|x y u a Hxy _ IH]; intros Ha; [done|].
  inversion Ha; subst. rewrite toLowerCase_cons. f_equal; [|by apply IH].
  by apply canonicalize_lower.
Qed.

Lemma sem_consume r : ∀ i s c i' s' c',
  sem r i s c i' s' c' → ∃ u, s = u ++ s' ∧ i' = i + length u.
Proof.
  induction r as [| |a|p|r1 IH1 r2 IH2|r1 IH1 r2 IH2|r1 IH1|p|p|n r1 IH1];
    intros i s c i' s' c' H; simpl in H.
  - destruct H as (-> & -> & _). exists []. by rewrite Nat.add_0_r.
  - destruct H as (_ & -> & -> & _). exists []. by rewrite Nat.add_0_r.
  - destruct H as (x & -> & _ & -> & _). exists [x]. simpl. split; [done|lia].
  - destruct H as (x & -> & _ & -> & _). exists [x]. simpl. split; [done|lia].
  - destruct H as (i1 & s1 & c1 & H1 & H2).
    apply IH1 in H1 as (u1 & -> & ->). apply IH2 in H2 as (u2 & -> & ->).
    exists (u1 ++ u2). rewrite length_app, <- (assoc_L (++)). split; [done|lia].
  - destruct H as [H|H]; eauto.
  - destruct H as [H|(-> & -> & _)]; [eauto|]. exists []. by rewrite Nat.add_0_r.
  - destruct H as (u & -> & _ & -> & _). by exists u.
  - destruct H as (x & u & -> & _ & _ & -> & _). exists (x :: u). simpl. split; [done|lia].
  - destruct H as (c1 & H & _). eauto.
Qed.

Lemma sem_Grp n r i s c i' s' c' :
  sem (Grp n r) i s c i' s' c' →
  ∃ u c1, s = u ++ s' ∧ i' = i + length u ∧ sem r i s c i' s' c1 ∧ c' = <[n := Some u]> c1.
Proof.
  intros (c1 & H & ->). destruct (sem_consume _ _ _ _ _ _ _ H) as (u & -> & ->).
  exists u, c1. repeat split; [done|].
  replace (i + length u - i) with (length u) by lia. by rewrite take_app_length.
Qed.

Lemma sem_lit a : ∀ i s c i' s' c',
  sem (lit a) i s c i' s' c' → ∃ u, s = u ++ s' ∧ spells u a ∧ c' = c.
Proof.
  induction a as [|y a IH]; intros i s c i' s' c' H; simpl in H.
  - destruct H as (_ & -> & ->). exists []. split; [done|]. split; [constructor|done].
  - destruct H as (i1 & s1 & c1 & (x & -> & Hx & -> & ->) & H).
    apply IH in H as (u & -> & Hu & ->). exists (x :: u). split; [done|].
    split; [by constructor|done].
Qed.

Lemma sem_verb a b i s c i' s' c' :
  sem (verb a b) i s c i' s' c' →
  ∃ u, s = u ++ s' ∧ c' = c ∧ (spells u (js a) ∨ spells u (js a ++ js b)).
Proof.
  intros (i1 & s1 & c1 & H1 & H2).
  apply sem_lit in H1 as (u1 & -> & Hu1 & ->).
  destruct H2 as [H2|(_ & -> & ->)].
  - apply sem_lit in H2 as (u2 & -> & Hu2 & ->).
    exists (u1 ++ u2). rewrite <- (assoc_L (++)). split; [done|]. split; [done|].
    right. by apply Forall2_app.
  - exists u1. eauto.
Qed.

(** the verb captured by group 1 *)
Lemma sem_verb_group a b i s c i' s' c' :
  sem (Grp 1 (verb a b)) i s c i' s' c' →
  Forall (λ y, in_range 65 90 y = false) (js a ++ js b) →
  ∃ v, s = v ++ s' ∧ c' = <[1 := Some v]> c ∧
       (toLowerCase v = js a ∨ toLowerCase v = js a ++ js b).
Proof.
  intros H Hab. apply sem_Grp in H as (u & c1 & -> & -> & H & ->).
  apply sem_verb in H as (u' & E & -> & H).
  apply app_inv_tail in E as <-. exists u. split; [done|]. split; [done|].
  destruct H as [H|H]; [left|right]; apply lower_spells; try done.
  by apply Forall_app in Hab as [? _].
Qed.

Lemma sem_digits_group n i s c i' s' c' :
  sem (Grp n (Plus cls_d)) i s c i' s' c' →
  ∃ d ds, s = d :: ds ++ s' ∧ cls_d d = true ∧ Forall (λ x, cls_d x = true) ds ∧
          c' = <[n := Some (d :: ds)]> c.
Proof.
  intros H. apply sem_Grp in H as (u & c1 & -> & -> & H & ->).
  destruct H as (d & ds & E & Hd & Hds & _ & ->).
  change (d :: ds ++ s') with ((d :: ds) ++ s') in E.
  apply app_inv_tail in E as ->. by exists d, ds.
Qed.

Lemma sem_rest_group n i s c i' s' c' :
  sem (Grp n (Star cls_dot)) i s c i' s' c' → ∃ u, c' = <[n := Some u]> c.
Proof.
  intros H. apply sem_Grp in H as (u & c1 & -> & -> & H & ->).
  destruct H as (u' & _ & _ & _ & ->). by exists u.
Qed.

Lemma sem_tag_group n i s c i' s' c' :
  sem (tag_group n) i s c i' s' c' →
  ∃ g, starts_with_at g = true ∧ s = g ++ s' ∧ c' = <[n := Some g]> c.
Proof.
  intros H. apply sem_Grp in H as (g & c1 & -> & -> & H & ->).
  destruct H as (i1 & s1 & c2 & (x & E & Hx & -> & ->) & H).
  destruct H as (i2 & s2 & c3 & H1 & H2).
  destruct H1 as (i3 & s3 & c4 & (u & -> & _ & -> & ->) & H1).
  assert (c3 = c ∧ ∃ u', s3 = u' ++ s2) as [-> (u' & ->)].
  { destruct H1 as [(y & -> & _ & _ & ->)|(_ & -> & ->)]; (split; [done|]).
    - by exists [y].
    - by exists []. }
  destruct H2 as (y & u2 & -> & _ & _ & _ & ->).
  apply canonicalize_at in Hx as ->.
  assert (g = 64%N :: u ++ u' ++ y :: u2) as ->.
  { apply (app_inv_tail s'). rewrite E. simpl. by rewrite <- !(assoc_L (++)). }
  eexists. split; [|done]. destruct u, u'; done.
Qed.

Lemma digits_value_nonneg s : ∀ acc, (0 ≤ acc)%Z → (0 ≤ digits_value acc s)%Z.
Proof.
  induction s as [|c s IH]; intros acc Hacc; simpl; [done|].
  destruct (cls_d c) eqn:Hc; [|done]. apply IH.
  apply in_range_spec in Hc. lia.
Qed.

Lemma parseInt_digits d ds :
  cls_d d = true → natural_id (parseInt (Some (d :: ds))) = true.
Proof.
  intros Hd. unfold parseInt. rewrite Hd. simpl. rewrite Hd.
  apply Z.leb_le, digits_value_nonneg. apply in_range_spec in Hd. lia.
Qed.

Lemma parsed_id_parseInt d ds :
  cls_d d = true → parsed_id (d :: ds) (parseInt (Some (d :: ds))).
Proof. intros Hd. unfold parsed_id, parseInt. rewrite Hd. by split; [eexists|]. Qed.


Ltac lowercase_word := vm_compute; repeat constructor.

Lemma parseTaskCommand_sound input m :
  parseTaskCommand input = Some m →
  ∃ v x, (toLowerCase v = js "t" ∨ toLowerCase v = js "task") ∧
         group m 1 = Some v ∧
         (group m 2 = None ∨ ∃ g, group m 2 = Some g ∧ starts_with_at g = true) ∧
         group m 3 = Some x.
Proof.
  intros H. apply str_match_sound in H as (i' & s' & H).
  apply sem_Grp in H as (u0 & c0 & _ & _ & H & ->).
  destruct H as (i1 & s1 & c1 & (_ & -> & -> & ->) & H).
  destruct H as (i2 & s2 & c2 & Hv & H).
  apply sem_verb_group in Hv as (v & -> & -> & Hv); [|lowercase_word].
  destruct H as (i3 & s3 & c3 & (w & -> & _ & -> & ->) & H).
  destruct H as (i4 & s4 & c4 & Htag & H).
  apply sem_rest_group in H as (x & ->).
  exists v, x. split; [done|].
  destruct Htag as [Htag|(_ & _ & ->)].
  - apply sem_tag_group in Htag as (g & Hg & _ & ->). split; [done|]. split; [|done].
    right. by exists g.
  - split; [done|]. split; [|done]. by left.
Qed.

Lemma parseEditCommand_sound input m :
  parseEditCommand input = Some m →
  ∃ v d ds x, (toLowerCase v = js "e" ∨ toLowerCase v = js "edit") ∧
         group m 1 = Some v ∧ group m 2 = Some (d :: ds) ∧ cls_d d = true ∧
         group m 3 = Some x.
Proof.
  intros H. apply str_match_sound in H as (i' & s' & H).
  apply sem_Grp in H as (u0 & c0 & _ & _ & H & ->).
  destruct H as (i1 & s1 & c1 & (_ & -> & -> & ->) & H).
  destruct H as (i2 & s2 & c2 & Hv & H).
  apply sem_verb_group in Hv as (v & -> & -> & Hv); [|lowercase_word].
  destruct H as (i3 & s3 & c3 & (w & -> & _ & -> & ->) & H).
  destruct H as (i4 & s4 & c4 & Hd & H).
  apply sem_digits_group in Hd as (d & ds & -> & Hd & _ & ->).
  apply sem_rest_group in H as (x & ->).
  by exists v, d, ds, x.
Qed.

Lemma parseMoveCommand_sound input m :
  parseMoveCommand input = Some m →
  ∃ v d ds g, (toLowerCase v = js "mv" ∨ toLowerCase v = js "move") ∧
         group m 1 = Some v ∧ group m 2 = Some (d :: ds) ∧ cls_d d = true ∧
         group m 3 = Some g ∧ starts_with_at g = true.
Proof.
  intros H. apply str_match_sound in H as (i' & s' & H).
  apply sem_Grp in H as (u0 & c0 & _ & _ & H & ->).
  destruct H as (i1 & s1 & c1 & (_ & -> & -> & ->) & H).
  destruct H as (i2 & s2 & c2 & Hv & H).
  apply sem_Grp in Hv as (v & c & -> & -> & Hv & ->).
  assert (c = [None; None; None; None] ∧
          (toLowerCase v = js "mv" ∨ toLowerCase v = js "move")) as [-> Hv'].
  { destruct Hv as [Hv|Hv]; apply sem_lit in Hv as (u & E & Hu & ->);
      apply app_inv_tail in E as <-; (split; [done|]);
      [left|right]; (apply lower_spells; [done|lowercase_word]). }
  destruct H as (i3 & s3 & c3 & (w & -> & _ & -> & ->) & H).
  destruct H as (i4 & s4 & c4 & Hd & H).
  apply sem_digits_group in Hd as (d & ds & -> & Hd & _ & ->).
  destruct H as (i5 & s5 & c5 & (w' & -> & _ & -> & ->) & H).
  apply sem_tag_group in H as (g & Hg & _ & ->).
  by exists v, d, ds, g.
Qed.

Lemma ngroups_lit a : ngroups (lit a) = 0.
Proof. induction a as [|y a IH]; [done|]. simpl. by rewrite IH. Qed.

(** the five one-id patterns share their shape *)
Lemma single_id_sound a b input m :
  str_match input (Bol +++ Grp 1 (verb a b) +++ Cls cls_s +++ Grp 2 (Plus cls_d)) = Some m →
  Forall (λ y, in_range 65 90 y = false) (js a ++ js b) →
  ∃ v d ds, (toLowerCase v = js a ∨ toLowerCase v = js a ++ js b) ∧
         group m 1 = Some v ∧ group m 2 = Some (d :: ds) ∧ cls_d d = true ∧
         group m 3 = None.
Proof.
  intros H Hab. apply str_match_sound in H as (i' & s' & H).
  assert (ngroups (Grp 0 (Bol +++ Grp 1 (verb a b) +++ Cls cls_s +++ Grp 2 (Plus cls_d))) = 3)
    as E by (simpl; by rewrite !ngroups_lit).
  rewrite E in H. clear E.
  apply sem_Grp in H as (u0 & c0 & _ & _ & H & ->).
  destruct H as (i1 & s1 & c1 & (_ & -> & -> & ->) & H).
  destruct H as (i2 & s2 & c2 & Hv & H).
  apply sem_verb_group in Hv as (v & -> & -> & Hv); [|done].
  destruct H as (i3 & s3 & c3 & (w & -> & _ & -> & ->) & H).
  apply sem_digits_group in H as (d & ds & -> & Hd & _ & ->).
  by exists v, d, ds.
Qed.

Lemma parseOtherCommand_sound input m :
  parseOtherCommand input = Some m →
  ∃ v, (toLowerCase v = js "close-help" ∨ toLowerCase v = js "help" ∨
        toLowerCase v = js "today") ∧ group m 1 = Some v.
Proof.
  intros H. apply str_match_sound in H as (i' & s' & H).
  apply sem_Grp in H as (u0 & c0 & _ & _ & H & ->).
  destruct H as (i1 & s1 & c1 & (_ & -> & -> & ->) & H).
  apply sem_Grp in H as (v & c & -> & -> & Hv & ->).
  exists v.
  destruct Hv as [Hv|[Hv|Hv]]; apply sem_lit in Hv as (u & E & Hu & ->);
    apply app_inv_tail in E as <-; (split; [|done]);
    [left|right; left|right; right]; (apply lower_spells; [done|lowercase_word]).
Qed.

Lemma one_id_sound input m :
  or_else (parseCheckCommand input)
    (or_else (parseBeginCommand input)
    (or_else (parseDeleteCommand input)
    (or_else (parseFlagCommand input) (parseStopCommand input)))) = Some m →
  ∃ v d ds,
    toLowerCase v ∈ js <$> ["c"; "check"; "b"; "begin"; "d"; "delete"; "fl"; "flag"; "st"; "stop"] ∧
    group m 1 = Some v ∧ group m 2 = Some (d :: ds) ∧ cls_d d = true.
Proof.
  intros H.
  assert (∃ a b, In (a, b) [("c", "heck"); ("b", "egin"); ("d", "elete"); ("fl", "ag"); ("st", "op")] ∧
     str_match input (Bol +++ Grp 1 (verb a b) +++ Cls cls_s +++ Grp 2 (Plus cls_d)) = Some m)
    as (a & b & Hab & Hm).
  { destruct (parseCheckCommand input) eqn:E1; [injection H as ->; exists "c", "heck"; simpl; eauto|].
    destruct (parseBeginCommand input) eqn:E2; [injection H as ->; exists "b", "egin"; simpl; eauto|].
    destruct (parseDeleteCommand input) eqn:E3; [injection H as ->; exists "d", "elete"; simpl; eauto|].
    destruct (parseFlagCommand input) eqn:E4; [injection H as ->; exists "fl", "ag"; simpl; eauto 6|].
    exists "st", "op". simpl in *. eauto 8. }
  simpl in Hab.
  destruct Hab as [[= <- <-]|[[= <- <-]|[[= <- <-]|[[= <- <-]|[[= <- <-]|[]]]]]];
    (apply single_id_sound in Hm as (v & d & ds & Hv & ? & ? & ? & _); [|lowercase_word]);
    exists v, d, ds; (split; [|done]);
    destruct Hv as [->| ->]; apply (bool_decide_unpack _); vm_compute; exact I.
Qed.


(** ** parseCommand returns null or a well-formed command *)

Lemma well_formed_task v g x :
  toLowerCase v = js "t" ∨ toLowerCase v = js "task" →
  (g = None ∨ ∃ g', g = Some g' ∧ starts_with_at g' = true) →
  well_formed {| command := Some v; cmd_tag := g; cmd_text := Some x; cmd_id := None |} = true.
Proof.
  intros Hv Hg. unfold well_formed, verb_in. cbn [command cmd_tag cmd_text cmd_id].
  destruct Hv as [-> | ->], Hg as [-> | (g' & -> & ->)]; reflexivity.
Qed.

Lemma well_formed_edit v d ds x :
  toLowerCase v = js "e" ∨ toLowerCase v = js "edit" → cls_d d = true →
  well_formed {| command := Some v; cmd_tag := None; cmd_text := Some x;
                 cmd_id := parseInt (Some (d :: ds)) |} = true.
Proof.
  intros Hv Hd. unfold well_formed, verb_in. cbn [command cmd_tag cmd_text cmd_id].
  rewrite (parseInt_digits d ds Hd). destruct Hv as [-> | ->]; reflexivity.
Qed.

Lemma well_formed_move v d ds g :
  toLowerCase v = js "mv" ∨ toLowerCase v = js "move" → cls_d d = true →
  starts_with_at g = true →
  well_formed {| command := Some v; cmd_tag := Some g; cmd_text := None;
                 cmd_id := parseInt (Some (d :: ds)) |} = true.
Proof.
  intros Hv Hd Hg. unfold well_formed, verb_in. cbn [command cmd_tag cmd_text cmd_id].
  rewrite (parseInt_digits d ds Hd), Hg. destruct Hv as [-> | ->]; reflexivity.
Qed.

Lemma well_formed_one_id v d ds :
  toLowerCase v ∈ js <$> ["c"; "check"; "b"; "begin"; "d"; "delete"; "fl"; "flag"; "st"; "stop"] →
  cls_d d = true →
  well_formed {| command := Some v; cmd_tag := None; cmd_text := None;
                 cmd_id := parseInt (Some (d :: ds)) |} = true.
Proof.
  intros Hv Hd. unfold well_formed, verb_in. cbn [command cmd_tag cmd_text cmd_id].
  rewrite (parseInt_digits d ds Hd).
  apply list_elem_of_In in Hv. simpl in Hv.
  repeat (destruct Hv as [<- | Hv]; [reflexivity|]). done.
Qed.

Lemma well_formed_other v :
  toLowerCase v = js "close-help" ∨ toLowerCase v = js "help" ∨ toLowerCase v = js "today" →
  well_formed {| command := Some v; cmd_tag := None; cmd_text := None; cmd_id := None |} = true.
Proof.
  intros Hv. unfold well_formed, verb_in. cbn [command cmd_tag cmd_text cmd_id].
  destruct Hv as [-> | [-> | ->]]; reflexivity.
Qed.

(** C6.  parseCommand is total and deterministic: on every input string it
    ends normally, without throwing, with null or with a well-formed
    command, and any call on an equal string gives the same result. *)
Theorem parseCommand_total (input : jsstring) :
  ∃ r, parseCommand input = Normal r ∧
       match r with Some cmd => well_formed cmd = true | None => True end ∧
       ∀ again : jsstring, again = input → parseCommand again = Normal r.
Proof.
  assert (∃ r, parseCommand input = Normal r ∧
       match r with Some cmd => well_formed cmd = true | None => True end) as (r & Hr & Hwf).
  2: { exists r. split; [done|]. split; [done|]. by intros again ->. }
  unfold parseCommand.
  destruct (parseTaskCommand input) as [m|] eqn:E1.
  { apply parseTaskCommand_sound in E1 as (v & x & Hv & -> & Hg & ->).
    eexists. split; [reflexivity|]. by apply well_formed_task. }
  destruct (parseEditCommand input) as [m|] eqn:E2.
  { apply parseEditCommand_sound in E2 as (v & d & ds & x & Hv & -> & -> & Hd & ->).
    eexists. split; [reflexivity|]. by apply well_formed_edit. }
  destruct (parseMoveCommand input) as [m|] eqn:E3.
  { apply parseMoveCommand_sound in E3 as (v & d & ds & g & Hv & -> & -> & Hd & -> & Hg).
    eexists. split; [reflexivity|]. by apply well_formed_move. }
  destruct (or_else _ _) as [m|] eqn:E4.
  { apply one_id_sound in E4 as (v & d & ds & Hv & -> & -> & Hd).
    eexists. split; [reflexivity|]. by apply well_formed_one_id. }
  destruct (parseOtherCommand input) as [m|] eqn:E5.
  { apply parseOtherCommand_sound in E5 as (v & Hv & ->).
    eexists. split; [reflexivity|]. by apply well_formed_other. }
  by exists None.
Qed.

Lemma parseCommand_total_witness :
  ∃ r, parseCommand (js "b 1") = Normal r ∧
       match r with Some cmd => well_formed cmd = true | None => True end ∧
       ∀ again : jsstring, again = js "b 1" → parseCommand again = Normal r.
Proof. apply (parseCommand_total (js "b 1")). Defined.


(** ** The one-id patterns on verb, space, digits *)

Lemma matcher_lit_app a : ∀ u k i s c,
  spells u a → matcher (lit a) k i (u ++ s) c = k (i + length u) s c.
Proof.
  induction a as [|y a IH]; intros u k i s c Hu; inversion Hu as [|x ? u' ? Hx Hu']; subst; simpl.
  - by rewrite Nat.add_0_r.
  - rewrite Hx, N.eqb_refl. cbn [matcher] in IH. rewrite IH by done.
    by rewrite Nat.add_succ_comm.
Qed.

Lemma matcher_lit_mismatch y a k i x s c :
  canonicalize x ≠ canonicalize y → matcher (lit (y :: a)) k i (x :: s) c = None.
Proof. intros H. simpl. by apply N.eqb_neq in H as ->. Qed.

Lemma star_greedy p k i u s c res :
  Forall (λ x, p x = true) u → stops p s →
  k (i + length u) s c = Some res →
  star p k i (u ++ s) c = Some res.
Proof.
  intros Hu Hs. revert i. induction Hu as [|x u Hx _ IH]; intros i Hk; simpl.
  - rewrite Nat.add_0_r in Hk. destruct s as [|x s]; simpl; [done|].
    simpl in Hs. by rewrite Hs.
  - rewrite Hx, (IH (S i)); [done|]. by rewrite Nat.add_succ_comm.
Qed.

Lemma digit_run_app ds rest :
  Forall (λ x, cls_d x = true) ds → stops cls_d rest → digit_run (ds ++ rest) = ds.
Proof.
  intros Hds Hrest. induction Hds as [|x ds Hx _ IH]; cbn [digit_run app].
  - destruct rest as [|x rest]; [done|]. cbn [stops digit_run] in *. by rewrite Hrest.
  - by rewrite Hx, IH.
Qed.

Lemma matcher_Cat r1 r2 k i s c :
  matcher (r1 +++ r2) k i s c = matcher r1 (λ i' s' c', matcher r2 k i' s' c') i s c.
Proof. done. Qed.

Lemma matcher_Grp n r k i s c :
  matcher (Grp n r) k i s c =
  matcher r (λ i' s' c', k i' s' (<[n := Some (take (i' - i) s)]> c')) i s c.
Proof. done. Qed.

Lemma matcher_Bol k s c : matcher Bol k 0 s c = k 0 s c.
Proof. done. Qed.

Lemma matcher_verb a b y b' k i v s c res :
  js b = y :: b' →
  toLowerCase v = js a ∨ toLowerCase v = js a ++ js b →
  match s with x :: _ => canonicalize x ≠ canonicalize y | [] => True end →
  k (i + length v) s c = Some res →
  matcher (verb a b) k i (v ++ s) c = Some res.
Proof.
  intros Hb Hv Hs Hk. unfold verb. rewrite matcher_Cat.
  destruct Hv as [Hv%spells_lower|Hv%spells_lower].
  - rewrite matcher_lit_app by done. cbn [matcher]. rewrite Hb.
    destruct s as [|x s]; [by rewrite Hk|].
    by rewrite matcher_lit_mismatch.
  - apply Forall2_app_inv_r in Hv as (v1 & v2 & Hv1 & Hv2 & ->).
    rewrite <- (assoc_L (++)), matcher_lit_app by done. cbn [matcher].
    rewrite matcher_lit_app by done.
    rewrite length_app, Nat.add_assoc in Hk. by rewrite Hk.
Qed.

Lemma matcher_space_digits n k i w d ds rest c res :
  cls_s w = true → cls_d d = true → Forall (λ x, cls_d x = true) ds → stops cls_d rest →
  k (S (S i) + length ds) rest (<[n := Some (d :: ds)]> c) = Some res →
  matcher (Cls cls_s +++ Grp n (Plus cls_d)) k i (w :: d :: ds ++ rest) c = Some res.
Proof.
  intros Hw Hd Hds Hrest Hk. cbn [matcher]. rewrite Hw, Hd.
  apply star_greedy; [done..|].
  replace (S (S i) + length ds - S i) with (length (d :: ds)) by (simpl; lia).
  change (d :: ds ++ rest) with ((d :: ds) ++ rest). by rewrite take_app_length.
Qed.

Lemma one_id_complete a b y b' v w d ds rest :
  js b = y :: b' → in_range 97 122 y = true →
  toLowerCase v = js a ∨ toLowerCase v = js a ++ js b →
  cls_s w = true → cls_d d = true → Forall (λ x, cls_d x = true) ds → stops cls_d rest →
  str_match (v ++ w :: d :: ds ++ rest)
    (Bol +++ Grp 1 (verb a b) +++ Cls cls_s +++ Grp 2 (Plus cls_d)) =
  Some [Some (v ++ w :: d :: ds); Some v; Some (d :: ds)].
Proof.
  intros Hb Hy Hv Hw Hd Hds Hrest. rewrite str_match_anchored.
  assert (ngroups (Grp 0 (Bol +++ Grp 1 (verb a b) +++ Cls cls_s +++ Grp 2 (Plus cls_d))) = 3)
    as -> by (simpl; by rewrite !ngroups_lit).
  rewrite matcher_Grp, matcher_Cat, matcher_Bol. cbv beta.
  rewrite matcher_Cat, matcher_Grp.
  eapply matcher_verb; [done|done|by apply space_not_letter|].
  apply matcher_space_digits; [done..|]. simpl.
  rewrite !Nat.sub_0_r, take_app_length. f_equal. f_equal. f_equal.
  transitivity (take (length (v ++ w :: d :: ds)) ((v ++ w :: d :: ds) ++ rest)).
  - f_equal.
    + rewrite length_app. simpl. lia.
    + by rewrite <- (assoc_L (++)).
  - apply take_app_length.
Qed.

(** a pattern whose verb starts with another letter does not match *)
Lemma verb_first_letter a b i s c i' s' c' y a' :
  js a = y :: a' → sem (verb a b) i s c i' s' c' →
  ∃ x s1, s = x :: s1 ∧ canonicalize x = canonicalize y.
Proof.
  intros Ha (i1 & s1 & c1 & H & _). rewrite Ha in H.
  destruct H as (i2 & s2 & c2 & (x & -> & Hx & _) & _). eauto.
Qed.

Lemma str_match_verb_mismatch a b r x s y a' :
  js a = y :: a' → canonicalize x ≠ canonicalize y →
  str_match (x :: s) (Bol +++ Grp 1 (verb a b) +++ r) = None.
Proof.
  intros Ha Hx. destruct (str_match _ _) as [m|] eqn:E; [|done].
  apply str_match_sound in E as (i' & s' & c0 & H & _).
  destruct H as (i1 & s1 & c1 & (_ & -> & -> & ->) & H).
  destruct H as (i2 & s2 & c2 & (c3 & H & _) & _).
  eapply verb_first_letter in H as (x' & s3 & [= <- <-] & Hx'); done.
Qed.

Lemma parseMoveCommand_mismatch x s :
  canonicalize x ≠ canonicalize 109 → parseMoveCommand (x :: s) = None.
Proof.
  intros Hx. destruct (parseMoveCommand _) as [m|] eqn:E; [|done].
  apply str_match_sound in E as (i' & s' & c0 & H & _).
  destruct H as (i1 & s1 & c1 & (_ & -> & -> & ->) & H).
  destruct H as (i2 & s2 & c2 & (c3 & H & _) & _).
  destruct H as [H|H]; destruct H as (i3 & s3 & c4 & (x' & [= <- <-] & Hx' & _) & _); done.
Qed.

Lemma first_letter_lower x u y a :
  toLowerCase (x :: u) = y :: a → canonicalize x = canonicalize y.
Proof. rewrite toLowerCase_cons. intros [= H _]. by apply lower_canonicalize. Qed.

Lemma digit_run_split s :
  ∃ rest, s = digit_run s ++ rest ∧ Forall (λ x, cls_d x = true) (digit_run s) ∧
          stops cls_d rest.
Proof.
  induction s as [|x s (rest & E & Hds & Hrest)]; [by exists []|].
  cbn [digit_run]. destruct (cls_d x) eqn:Hx.
  - exists rest. split; [by rewrite E at 1|]. split; [by constructor|done].
  - by exists (x :: s).
Qed.

Lemma verb_mismatch a b r v s y a' z u :
  js a = y :: a' → toLowerCase v = z :: u → canonicalize z ≠ canonicalize y →
  str_match (v ++ s) (Bol +++ Grp 1 (verb a b) +++ r) = None.
Proof.
  intros Ha Hv Hz. destruct v as [|x v']; [done|].
  eapply str_match_verb_mismatch; [done|]. by rewrite (first_letter_lower _ _ _ _ Hv).
Qed.

Lemma move_mismatch v s z u :
  toLowerCase v = z :: u → canonicalize z ≠ canonicalize 109 →
  parseMoveCommand (v ++ s) = None.
Proof.
  intros Hv Hz. destruct v as [|x v']; [done|].
  apply parseMoveCommand_mismatch. by rewrite (first_letter_lower _ _ _ _ Hv).
Qed.

Ltac other_verb Hv :=
  first [ eapply verb_mismatch; [reflexivity|exact Hv|vm_compute; discriminate]
        | eapply move_mismatch; [exact Hv|vm_compute; discriminate] ].

Ltac this_verb Hv :=
  eapply one_id_complete; [reflexivity|reflexivity| |done..];
  first [ left; exact Hv | right; exact Hv ].

(** the first alternative of an [||] chain is a pattern of another verb *)
Ltac skip_pattern Hv :=
  match goal with
  | |- or_else ?p _ = _ =>
      replace p with (@None captures) by (symmetry; other_verb Hv); cbn [or_else]
  end.

(** the first alternative is the pattern of the verb *)
Ltac take_pattern Hv :=
  match goal with
  | |- or_else ?p _ = Some ?m =>
      replace p with (Some m) by (symmetry; this_verb Hv); reflexivity
  | |- _ = Some _ => this_verb Hv
  end.

(** the pattern of the verb is the one that matches, up to the end of the
    run of digits *)
Lemma parseCommand_one_id (v : jsstring) (w d : N) (tail : jsstring) :
  is_case (toLowerCase v) one_id_verbs = true →
  cls_s w = true → cls_d d = true →
  parseCommand (v ++ w :: d :: tail) =
    Normal (Some {| command := Some v; cmd_tag := None; cmd_text := None;
                    cmd_id := parseInt (Some (digit_run (d :: tail))) |}).
Proof.
  intros Hv Hw Hd.
  destruct (digit_run_split tail) as (rest & E & Hds & Hrest).
  cbn [digit_run]. rewrite Hd. set (ds := digit_run tail) in *. clearbody ds. subst tail.
  unfold is_case in Hv. apply bool_decide_eq_true_1, list_elem_of_In in Hv. simpl in Hv.
  assert (parseTaskCommand (v ++ w :: d :: ds ++ rest) = None ∧
          parseEditCommand (v ++ w :: d :: ds ++ rest) = None ∧
          parseMoveCommand (v ++ w :: d :: ds ++ rest) = None) as (HT & HE & HM).
  { repeat (destruct Hv as [Hv|Hv];
            [symmetry in Hv; repeat split; other_verb Hv|]). done. }
  unfold parseCommand. rewrite HT, HE, HM. clear HT HE HM.
  assert (or_else (parseCheckCommand (v ++ w :: d :: ds ++ rest))
       (or_else (parseBeginCommand (v ++ w :: d :: ds ++ rest))
       (or_else (parseDeleteCommand (v ++ w :: d :: ds ++ rest))
       (or_else (parseFlagCommand (v ++ w :: d :: ds ++ rest))
                (parseStopCommand (v ++ w :: d :: ds ++ rest))))) =
     Some [Some (v ++ w :: d :: ds); Some v; Some (d :: ds)]) as ->.
  { repeat (destruct Hv as [Hv|Hv];
            [symmetry in Hv; repeat skip_pattern Hv; take_pattern Hv|]). done. }
  done.
Qed.

(** C10.  For check, begin, delete, flag and stop the parser ignores what
    follows the id: on a verb (in any case), one white-space character, a
    digit and any characters after it, parseCommand returns the verb as
    typed with the id that parseInt reads from the run of digits that
    follows the space (the decimal value of the run when that is at most
    2^53), and nothing else of the tail changes the result. *)
Theorem one_id_ignores_rest (v : jsstring) (w d : N) (tail : jsstring) :
  is_case (toLowerCase v) one_id_verbs = true →
  cls_s w = true → cls_d d = true →
  (∃ i, parsed_id (digit_run (d :: tail)) i ∧
     parseCommand (v ++ w :: d :: tail) =
       Normal (Some {| command := Some v; cmd_tag := None; cmd_text := None;
                       cmd_id := i |})) ∧
  ∀ tail', digit_run (d :: tail') = digit_run (d :: tail) →
    parseCommand (v ++ w :: d :: tail') = parseCommand (v ++ w :: d :: tail).
Proof.
  intros Hv Hw Hd. split.
  - exists (parseInt (Some (digit_run (d :: tail)))).
    split; [|by apply parseCommand_one_id].
    cbn [digit_run]. rewrite Hd. by apply parsed_id_parseInt.
  - intros tail' E. by rewrite !parseCommand_one_id, E.
Qed.

Lemma one_id_ignores_rest_witness :
  is_case (toLowerCase (js "Check")) one_id_verbs = true ∧
  parseCommand (js "Check 12abc") =
    Normal (Some {| command := Some (js "Check"); cmd_tag := None; cmd_text := None;
                    cmd_id := Some 12%Z |}) ∧
  parseCommand (js "Check 12 and more") = parseCommand (js "Check 12abc").
Proof.
  split; [reflexivity|].
  destruct (one_id_ignores_rest (js "Check") 32%N 49%N (js "2abc"))
    as [(i & [_ Hi] & Hp) Ht]; [reflexivity..|].
  split.
  - rewrite Hi in Hp; [exact Hp|]. vm_compute. discriminate.
  - apply (Ht (js "2 and more")). reflexivity.
Defined.


(** ** The switch, verb by verb *)

Lemma is_case_elim v labels :
  is_case v labels = true → v ∈ js <$> labels.
Proof. apply bool_decide_eq_true_1. Qed.

Ltac verb_cases H :=
  apply is_case_elim, list_elem_of_In in H; simpl in H;
  repeat (destruct H as [H|H]; [symmetry in H|]); [..|done].

Lemma dispatch_begin clock s cmd :
  is_begin_cmd cmd = true →
  dispatch clock s cmd =
    (bupdated <- array_map (begin_task clock cmd) (tasks s) ;; ret (Some (set_tasks s bupdated))).
Proof.
  unfold is_begin_cmd, verb_in, dispatch. destruct (command cmd) as [v|]; [|done].
  intros H. cbn [fmap option_fmap option_map]. verb_cases H; rewrite H; reflexivity.
Qed.

Lemma dispatch_check clock s cmd :
  is_check_cmd cmd = true →
  dispatch clock s cmd =
    (cupdated <- array_map (check_task clock cmd) (tasks s) ;; ret (Some (set_tasks s cupdated))).
Proof.
  unfold is_check_cmd, verb_in, dispatch. destruct (command cmd) as [v|]; [|done].
  intros H. cbn [fmap option_fmap option_map]. verb_cases H; rewrite H; reflexivity.
Qed.

Lemma dispatch_flag clock s cmd :
  is_flag_cmd cmd = true →
  dispatch clock s cmd =
    (flupdated <- array_map (flag_task clock cmd) (tasks s) ;; ret (Some (set_tasks s flupdated))).
Proof.
  unfold is_flag_cmd, verb_in, dispatch. destruct (command cmd) as [v|]; [|done].
  intros H. cbn [fmap option_fmap option_map]. verb_cases H; rewrite H; reflexivity.
Qed.

Lemma dispatch_stop clock s cmd :
  is_stop_cmd cmd = true →
  dispatch clock s cmd =
    (stupdated <- array_map (stop_task clock cmd) (tasks s) ;; ret (Some (set_tasks s stupdated))).
Proof.
  unfold is_stop_cmd, verb_in, dispatch. destruct (command cmd) as [v|]; [|done].
  intros H. cbn [fmap option_fmap option_map]. verb_cases H; rewrite H; reflexivity.
Qed.

Lemma dispatch_delete clock s cmd :
  is_delete_cmd cmd = true →
  dispatch clock s cmd =
    ret (Some (set_tasks s (filter (λ t, same_id t cmd = false) (tasks s)))).
Proof.
  unfold is_delete_cmd, verb_in, dispatch. destruct (command cmd) as [v|]; [|done].
  intros H. cbn [fmap option_fmap option_map]. verb_cases H; rewrite H; reflexivity.
Qed.

Lemma dispatch_task clock s cmd :
  is_task_cmd cmd = true →
  ∃ g x, cmd_text cmd = Some x ∧ x ≠ [] ∧
    dispatch clock s cmd =
      ret (Some (set_tasks s (tasks s ++
        [ {| id := nextId (tasks s) + 1; tag := Some g; title := x;
             status := WAIT; logs := None |} ]))).
Proof.
  unfold is_task_cmd, verb_in, dispatch. destruct (command cmd) as [v|]; [|done].
  intros [H Hx]%andb_true_iff. cbn [fmap option_fmap option_map].
  destruct (cmd_text cmd) as [[|c x]|]; [done| |done].
  eexists _, (c :: x). split; [done|]. split; [done|].
  verb_cases H; rewrite H; reflexivity.
Qed.

(** ** array_map *)

Lemma array_map_cons {A B} (f : A → M B) x l w :
  array_map f (x :: l) w =
  ((f x w).1 :: (array_map f l (f x w).2).1, (array_map f l (f x w).2).2).
Proof.
  cbn [array_map]. unfold bind, ret. destruct (f x w) as [y w1]. simpl.
  by destruct (array_map f l w1) as [ys w2].
Qed.

Lemma array_map_length {A B} (f : A → M B) l w :
  length (array_map f l w).1 = length l.
Proof.
  revert w. induction l as [|x l IH]; intros w; [done|].
  rewrite array_map_cons. simpl. by rewrite IH.
Qed.

Lemma array_map_world {A B} (f : A → M B) l w :
  reads_clock f →
  ticks w ≤ ticks (array_map f l w).2 ∧ allocated (array_map f l w).2 = allocated w.
Proof.
  intros Hf. revert w. induction l as [|x l IH]; intros w; [done|].
  rewrite array_map_cons. simpl. destruct (Hf x w) as [? ?], (IH (f x w).2) as [? ?].
  split; [lia|congruence].
Qed.

Lemma array_map_lookup {A B} (f : A → M B) l w i x :
  reads_clock f → l !! i = Some x →
  ∃ wi, (array_map f l w).1 !! i = Some (f x wi).1 ∧
        ticks w ≤ ticks wi ∧ ticks (f x wi).2 ≤ ticks (array_map f l w).2.
Proof.
  intros Hf. revert w i. induction l as [|y l IH]; intros w i Hi; [done|].
  rewrite array_map_cons. destruct i as [|i]; simpl in *.
  - injection Hi as ->. exists w. split; [done|]. split; [done|].
    apply array_map_world, Hf.
  - destruct (IH (f y w).2 i Hi) as (wi & ? & ? & ?). exists wi.
    split; [done|]. destruct (Hf y w). split; [lia|done].
Qed.

Lemma array_map_Forall {A B} (P : A → Prop) (Q : B → Prop) (f : A → M B) l w :
  (∀ x w, P x → Q (f x w).1) → Forall P l → Forall Q (array_map f l w).1.
Proof.
  intros Hf Hl. revert w. induction Hl as [|x l Hx _ IH]; intros w; [constructor|].
  rewrite array_map_cons. constructor; [by apply Hf|apply IH].
Qed.

(** a callback that leaves every element as it is *)
Lemma array_map_id {A} (f : A → M A) l w :
  (∀ x w, x ∈ l → f x w = (x, w)) → array_map f l w = (l, w).
Proof.
  induction l as [|x l IH]; intros Hf; [done|].
  rewrite array_map_cons, Hf by left. simpl. rewrite IH; [done|].
  intros y w' Hy. apply Hf. by right.
Qed.

Section Callbacks.
Variable clock : nat → Z.

Lemma stopWorkLogging_world t w :
  ticks w ≤ ticks (stopWorkLogging clock t w).2 ∧
  allocated (stopWorkLogging clock t w).2 = allocated w.
Proof.
  unfold stopWorkLogging. destruct (logs t ≫= last) as [l|]; [|simpl; lia].
  destruct (_ && _); simpl; lia.
Qed.

Lemma begin_task_world cmd : reads_clock (begin_task clock cmd).
Proof.
  intros t w. unfold begin_task. destruct (same_id t cmd); [|done].
  destruct (decide (status t ≠ WIP)); simpl; lia.
Qed.

Lemma check_task_world cmd : reads_clock (check_task clock cmd).
Proof.
  intros t w. unfold check_task. destruct (same_id t cmd); [|done].
  cbv zeta. destruct (decide (status (set_status t _) = DONE)); [|done].
  apply stopWorkLogging_world.
Qed.

Lemma flag_task_world cmd : reads_clock (flag_task clock cmd).
Proof.
  intros t w. unfold flag_task. destruct (same_id t cmd); [|done].
  apply stopWorkLogging_world.
Qed.

Lemma stop_task_world cmd : reads_clock (stop_task clock cmd).
Proof.
  intros t w. unfold stop_task. destruct (same_id t cmd); [|done].
  destruct (decide (status t = WIP)); [|done]. apply stopWorkLogging_world.
Qed.
End Callbacks.


Lemma set_tasks_same s : set_tasks s (tasks s) = s.
Proof. by destruct s. Qed.

Lemma truthy_true z : truthy z = true ↔ z ≠ 0%Z.
Proof. unfold truthy. rewrite negb_true_iff. apply Z.eqb_neq. Qed.

Lemma truthy_false z : truthy z = false ↔ z = 0%Z.
Proof. unfold truthy. rewrite negb_false_iff. apply Z.eqb_eq. Qed.

Section Logging.
Variable clock : nat → Z.

(** *** stopWorkLogging *)

Lemma stopWorkLogging_frame t w :
  let t' := (stopWorkLogging clock t w).1 in
  id t' = id t ∧ tag t' = tag t ∧ title t' = title t ∧ status t' = status t.
Proof.
  unfold stopWorkLogging. destruct (logs t ≫= last) as [l|]; [|done].
  by destruct (_ && _).
Qed.

(** the last log is open: it is closed with the next reading *)
Lemma stopWorkLogging_open t w ls0 l :
  logs t = Some (ls0 ++ [l]) → start l ≠ 0%Z → end_ l = 0%Z →
  logs (stopWorkLogging clock t w).1 = Some (ls0 ++ [set_end l (clock (ticks w))]) ∧
  ticks (stopWorkLogging clock t w).2 = S (ticks w).
Proof.
  intros Hl Hs He. unfold stopWorkLogging, logs_or_empty. rewrite Hl. simpl.
  rewrite last_snoc. apply truthy_true in Hs. apply truthy_false in He.
  rewrite Hs, He. simpl. split; [|done]. f_equal.
  rewrite length_app. simpl.
  replace (length ls0 + 1 - 1) with (length ls0 + 0) by lia.
  by rewrite insert_app_r.
Qed.

(** the last log is closed, or never started: nothing changes *)
Lemma stopWorkLogging_closed t w ls0 l :
  logs t = Some (ls0 ++ [l]) → start l = 0%Z ∨ end_ l ≠ 0%Z →
  stopWorkLogging clock t w = (t, w).
Proof.
  intros Hl H. unfold stopWorkLogging. rewrite Hl. simpl. rewrite last_snoc.
  destruct H as [H%truthy_false|H%truthy_true]; rewrite H; [done|].
  by rewrite andb_false_r.
Qed.

(** no log at all: one log made of two successive readings *)
Lemma stopWorkLogging_none t w :
  logs t = None ∨ logs t = Some [] →
  logs (stopWorkLogging clock t w).1 =
    Some [ {| start := clock (ticks w); end_ := clock (S (ticks w)) |} ] ∧
  ticks (stopWorkLogging clock t w).2 = S (S (ticks w)).
Proof. intros [H|H]; unfold stopWorkLogging; by rewrite H. Qed.

(** *** The callbacks on a task with the id of the command *)

Lemma check_task_hit cmd t w :
  same_id t cmd = true → status t ≠ DONE →
  check_task clock cmd t w = stopWorkLogging clock (set_status t DONE) w.
Proof.
  intros Hid Hs. unfold check_task. rewrite Hid. cbv zeta.
  destruct (decide (status t = DONE)); [done|]. simpl.
  destruct (decide (DONE = DONE)); done.
Qed.

Lemma check_task_undo cmd t w :
  same_id t cmd = true → status t = DONE →
  check_task clock cmd t w = (set_status t WAIT, w).
Proof.
  intros Hid Hs. unfold check_task. rewrite Hid. cbv zeta.
  destruct (decide (status t = DONE)); [|done]. simpl.
  destruct (decide (WAIT = DONE)); done.
Qed.

Lemma flag_task_hit cmd t w :
  same_id t cmd = true →
  flag_task clock cmd t w =
    stopWorkLogging clock (set_status t (if decide (status t = FLAG) then WAIT else FLAG)) w.
Proof. intros Hid. unfold flag_task. by rewrite Hid. Qed.

Lemma same_id_frame t t' cmd : id t' = id t → same_id t' cmd = same_id t cmd.
Proof. unfold same_id. by intros ->. Qed.

(** *** handle, verb by verb *)

Lemma handle_mapped cmd st w f :
  dispatch clock (content st) cmd =
    (updated <- array_map f (tasks (content st)) ;; ret (Some (set_tasks (content st) updated))) →
  reads_clock f →
  let r := array_map f (tasks (content st)) w in
  handle clock st cmd w =
    ({| addr := allocated w; content := set_tasks (content st) r.1 |},
     {| ticks := ticks r.2; allocated := S (allocated w) |}).
Proof.
  intros Hd Hf r. unfold handle. rewrite Hd. unfold bind, ret, setState.
  subst r. destruct (array_map_world f (tasks (content st)) w Hf) as [_ Ha].
  destruct (array_map f (tasks (content st)) w) as [ts w1]. simpl in *. by rewrite Ha.
Qed.
End Logging.


Section Claims.
Variable clock : nat → Z.

Lemma handle_check st cmd w :
  is_check_cmd cmd = true →
  let r := array_map (check_task clock cmd) (tasks (content st)) w in
  handle clock st cmd w =
    ({| addr := allocated w; content := set_tasks (content st) r.1 |},
     {| ticks := ticks r.2; allocated := S (allocated w) |}).
Proof. intros H. apply handle_mapped; [by apply dispatch_check|apply check_task_world]. Qed.

Lemma handle_flag st cmd w :
  is_flag_cmd cmd = true →
  let r := array_map (flag_task clock cmd) (tasks (content st)) w in
  handle clock st cmd w =
    ({| addr := allocated w; content := set_tasks (content st) r.1 |},
     {| ticks := ticks r.2; allocated := S (allocated w) |}).
Proof. intros H. apply handle_mapped; [by apply dispatch_flag|apply flag_task_world]. Qed.

Lemma handle_begin st cmd w :
  is_begin_cmd cmd = true →
  let r := array_map (begin_task clock cmd) (tasks (content st)) w in
  handle clock st cmd w =
    ({| addr := allocated w; content := set_tasks (content st) r.1 |},
     {| ticks := ticks r.2; allocated := S (allocated w) |}).
Proof. intros H. apply handle_mapped; [by apply dispatch_begin|apply begin_task_world]. Qed.

Lemma handle_stop st cmd w :
  is_stop_cmd cmd = true →
  let r := array_map (stop_task clock cmd) (tasks (content st)) w in
  handle clock st cmd w =
    ({| addr := allocated w; content := set_tasks (content st) r.1 |},
     {| ticks := ticks r.2; allocated := S (allocated w) |}).
Proof. intros H. apply handle_mapped; [by apply dispatch_stop|apply stop_task_world]. Qed.

(** one toggle of the status of the task at index [i] *)
Lemma check_once st cmd w i t :
  is_check_cmd cmd = true →
  tasks (content st) !! i = Some t → same_id t cmd = true →
  ∃ t', tasks (content (handle clock st cmd w).1) !! i = Some t' ∧ id t' = id t ∧
        status t' = if decide (status t = DONE) then WAIT else DONE.
Proof.
  intros Hc Hi Hid. rewrite handle_check by done. simpl.
  destruct (array_map_lookup _ _ w i t (check_task_world clock cmd) Hi) as (wi & -> & _).
  eexists. split; [done|]. destruct (decide (status t = DONE)) as [Hs|Hs].
  - by rewrite check_task_undo.
  - rewrite check_task_hit by done.
    by destruct (stopWorkLogging_frame clock (set_status t DONE) wi) as (-> & _ & _ & ->).
Qed.

Lemma flag_once st cmd w i t :
  is_flag_cmd cmd = true →
  tasks (content st) !! i = Some t → same_id t cmd = true →
  ∃ t', tasks (content (handle clock st cmd w).1) !! i = Some t' ∧ id t' = id t ∧
        status t' = if decide (status t = FLAG) then WAIT else FLAG.
Proof.
  intros Hc Hi Hid. rewrite handle_flag by done. simpl.
  destruct (array_map_lookup _ _ w i t (flag_task_world clock cmd) Hi) as (wi & -> & _).
  eexists. split; [done|]. rewrite flag_task_hit by done.
  by destruct (stopWorkLogging_frame clock
    (set_status t (if decide (status t = FLAG) then WAIT else FLAG)) wi) as (-> & _ & _ & ->).
Qed.

(** C7.  The status toggles come back to WAIT: on a task in status WAIT,
    with nothing else in between, check id twice, or flag id twice, leaves
    the task (same index, same id) in status WAIT. *)
Theorem toggle_twice_returns_to_WAIT st cmd w i t :
  is_check_cmd cmd = true ∨ is_flag_cmd cmd = true →
  tasks (content st) !! i = Some t → same_id t cmd = true → status t = WAIT →
  ∃ t', tasks (content (handle_all clock st [cmd; cmd] w).1) !! i = Some t' ∧
        id t' = id t ∧ status t' = WAIT.
Proof.
  intros Hc Hi Hid Hs. cbn [handle_all]. unfold bind, ret.
  destruct (handle clock st cmd w) as [st1 w1] eqn:E1.
  destruct (handle clock st1 cmd w1) as [st2 w2] eqn:E2. simpl.
  destruct Hc as [Hc|Hc].
  - destruct (check_once st cmd w i t Hc Hi Hid) as (t1 & H1 & Hid1 & Hs1).
    rewrite E1 in H1. simpl in H1. rewrite Hs in Hs1. simpl in Hs1.
    destruct (check_once st1 cmd w1 i t1 Hc H1) as (t2 & H2 & Hid2 & Hs2).
    { by rewrite (same_id_frame t t1). }
    rewrite E2 in H2. simpl in H2. exists t2. split; [done|]. split; [congruence|].
    rewrite Hs2, Hs1. done.
  - destruct (flag_once st cmd w i t Hc Hi Hid) as (t1 & H1 & Hid1 & Hs1).
    rewrite E1 in H1. simpl in H1. rewrite Hs in Hs1. simpl in Hs1.
    destruct (flag_once st1 cmd w1 i t1 Hc H1) as (t2 & H2 & Hid2 & Hs2).
    { by rewrite (same_id_frame t t1). }
    rewrite E2 in H2. simpl in H2. exists t2. split; [done|]. split; [congruence|].
    rewrite Hs2, Hs1. done.
Qed.

(** C5.  begin id leaves a task that is already WIP as it is, logs
    included.  stop id, when no task with that id is WIP, calls setState
    with a new object: the state has the same content as before and no
    clock reading is taken, but the object is a fresh one. *)
Theorem begin_on_WIP_and_stop_off_WIP st cmd w :
  (is_begin_cmd cmd = true →
     ∀ i t, tasks (content st) !! i = Some t → status t = WIP →
       tasks (content (handle clock st cmd w).1) !! i = Some t) ∧
  (is_stop_cmd cmd = true →
     (∀ t, t ∈ tasks (content st) → same_id t cmd = true → status t ≠ WIP) →
     content (handle clock st cmd w).1 = content st ∧
     addr (handle clock st cmd w).1 = allocated w ∧
     ticks (handle clock st cmd w).2 = ticks w).
Proof.
  split.
  - intros Hc i t Hi Hs. rewrite handle_begin by done. simpl.
    destruct (array_map_lookup _ _ w i t (begin_task_world clock cmd) Hi) as (wi & -> & _).
    unfold begin_task. destruct (same_id t cmd); [|done].
    destruct (decide (status t ≠ WIP)); done.
  - intros Hc Hall. rewrite handle_stop by done. simpl.
    rewrite array_map_id.
    + simpl. by rewrite set_tasks_same.
    + intros t w' Ht. unfold stop_task. destruct (same_id t cmd) eqn:Hid; [|done].
      destruct (decide (status t = WIP)) as [Hs|]; [|done]. by destruct (Hall t Ht Hid).
Qed.

End Claims.

Lemma toggle_twice_witness :
  ∃ t', tasks (content (handle_all sample_clock (sample_state WAIT [])
                          [one_id_cmd "fl" 1; one_id_cmd "fl" 1] initial_world).1) !! 0
        = Some t' ∧
        id t' = 1%Z ∧ status t' = WAIT.
Proof.
  apply (toggle_twice_returns_to_WAIT sample_clock (sample_state WAIT [])
           (one_id_cmd "fl" 1) initial_world 0 (sample_task WAIT []));
    [right|..]; reflexivity.
Defined.

Lemma begin_on_WIP_and_stop_off_WIP_witness :
  content (handle sample_clock (sample_state WAIT []) (one_id_cmd "st" 1) initial_world).1
  = content (sample_state WAIT []).
Proof.
  apply (begin_on_WIP_and_stop_off_WIP sample_clock (sample_state WAIT [])
           (one_id_cmd "st" 1) initial_world); [reflexivity|].
  intros t Ht _. apply list_elem_of_singleton in Ht. rewrite Ht. simpl. discriminate.
Defined.

(** stop 1 on a task in status WAIT: the content is the same and the state
    object is another one. *)
Lemma stop_off_WIP_is_a_new_object :
  let before := sample_state WAIT [] in
  let after := (handle sample_clock before (one_id_cmd "st" 1) initial_world).1 in
  is_stop_cmd (one_id_cmd "st" 1) = true ∧
  status <$> tasks (content before) = [WAIT] ∧
  content after = content before ∧
  addr after ≠ addr before.
Proof. repeat split. discriminate. Qed.





Section Ids.
Local Open Scope Z_scope.
Variable clock : nat → Z.

(** ** nextId is the largest id, or 0 *)

Lemma nextId_snoc ts t :
  nextId (ts ++ [t]) = if id t >? nextId ts then id t else nextId ts.
Proof. unfold nextId. by rewrite foldl_app. Qed.

Lemma nextId_bounds ts :
  0 ≤ nextId ts ∧ (∀ t, t ∈ ts → id t ≤ nextId ts) ∧
  (nextId ts = 0 ∨ ∃ t, t ∈ ts ∧ id t = nextId ts).
Proof.
  induction ts as [|t ts IH] using rev_ind.
  - split; [done|]. split; [|by left]. by intros t Ht%elem_of_nil.
  - rewrite nextId_snoc. destruct IH as (H0 & Hle & Hmax).
    destruct (Z.gtb_spec (id t) (nextId ts)).
    + split; [lia|]. split.
      * intros u [Hu| ->%list_elem_of_singleton]%elem_of_app; [|lia]. apply Hle in Hu. lia.
      * right. exists t. split; [|done]. apply elem_of_app. right. by left.
    + split; [done|]. split.
      * intros u [Hu| ->%list_elem_of_singleton]%elem_of_app; [by apply Hle|lia].
      * destruct Hmax as [?|(u & Hu & ?)]; [by left|]. right. exists u.
        split; [|done]. apply elem_of_app. by left.
Qed.

Lemma nextId_le ts m : 0 ≤ m → (∀ t, t ∈ ts → id t ≤ m) → nextId ts ≤ m.
Proof.
  intros Hm H. destruct (nextId_bounds ts) as (_ & _ & [->|(t & Ht & <-)]); [done|by apply H].
Qed.


Lemma handle_task st cmd w :
  is_task_cmd cmd = true →
  ∃ t, id t = nextId (tasks (content st)) + 1 ∧
    handle clock st cmd w =
      ({| addr := allocated w;
          content := set_tasks (content st) (tasks (content st) ++ [t]) |},
       {| ticks := ticks w; allocated := S (allocated w) |}).
Proof.
  intros H. destruct (dispatch_task clock (content st) cmd H) as (g & x & _ & _ & Hd).
  eexists. split; [|unfold handle; by rewrite Hd]. done.
Qed.

Lemma handle_delete st cmd w :
  is_delete_cmd cmd = true →
  handle clock st cmd w =
    ({| addr := allocated w;
        content := set_tasks (content st)
                     (filter (λ t, same_id t cmd = false) (tasks (content st))) |},
     {| ticks := ticks w; allocated := S (allocated w) |}).
Proof. intros H. unfold handle. by rewrite dispatch_delete. Qed.

Lemma appended_task st ts t :
  appended st {| addr := ts; content := set_tasks (content st) (tasks (content st) ++ [t]) |}
  = [id t].
Proof. unfold appended. simpl. by rewrite drop_app_length. Qed.

Lemma appended_delete st a (P : TaskItem → Prop) `{∀ t, Decision (P t)} :
  appended st {| addr := a; content := set_tasks (content st) (filter P (tasks (content st))) |}
  = [].
Proof.
  unfold appended. simpl. rewrite drop_ge; [done|]. apply length_filter.
Qed.

Lemma ids_assigned_cons st cmd cmds w :
  ids_assigned clock st (cmd :: cmds) w =
  let r := handle clock st cmd w in
  let r' := ids_assigned clock r.1 cmds r.2 in
  (appended st r.1 ++ r'.1, r'.2).
Proof.
  cbn [ids_assigned]. unfold bind, ret. destruct (handle clock st cmd w) as [st' w']. simpl.
  by destruct (ids_assigned clock st' cmds w').
Qed.

Lemma count_tasks_cons cmd cmds :
  count_tasks (cmd :: cmds) =
  ((if is_task_cmd cmd then 1 else 0) + count_tasks cmds)%nat.
Proof.
  unfold count_tasks. rewrite filter_cons.
  destruct (decide (is_task_cmd cmd = true)) as [->|H]; [done|].
  by apply not_true_is_false in H as ->.
Qed.

(** the ids handed out, joined to those in use, stay an initial segment *)
Lemma ids_assigned_segment cmds : ∀ st w (m : Z),
  Forall (λ c, is_task_cmd c = true ∨ is_delete_cmd c = true) cmds →
  0 ≤ m → (∀ t, t ∈ tasks (content st) → 1 ≤ id t ≤ m) →
  ∃ m', m ≤ m' ≤ m + Z.of_nat (count_tasks cmds) ∧
    ∀ i, (i ∈ (ids_assigned clock st cmds w).1 ∨ 1 ≤ i ≤ m) ↔ 1 ≤ i ≤ m'.
Proof.
  induction cmds as [|cmd cmds IH]; intros st w m Hcmds Hm Hids.
  - exists m. split; [simpl; lia|]. intros i. simpl. rewrite elem_of_nil. tauto.
  - inversion Hcmds as [|? ? Hcmd Hcmds']; subst.
    rewrite ids_assigned_cons, count_tasks_cons. cbv zeta.
    destruct (is_task_cmd cmd) eqn:Ht; cbv iota.
    + destruct (handle_task st cmd w Ht) as (t & Hid & ->). cbn [fst snd].
      rewrite appended_task.
      assert (1 ≤ id t ≤ m + 1) as Hnew.
      { rewrite Hid. destruct (nextId_bounds (tasks (content st))) as (? & _ & _).
        assert (nextId (tasks (content st)) ≤ m); [|lia].
        apply nextId_le; [done|]. intros u Hu. apply Hids in Hu. lia. }
      edestruct (IH {| addr := allocated w;
                       content := set_tasks (content st) (tasks (content st) ++ [t]) |}
                    {| ticks := ticks w; allocated := S (allocated w) |}
                    (Z.max m (id t))) as (m' & Hm' & Hiff); [done|lia| |].
      { simpl. intros u [Hu| ->%list_elem_of_singleton]%elem_of_app; [|lia].
        apply Hids in Hu. lia. }
      exists m'. split; [destruct (Z.max_spec m (id t)); lia|]. intros i. rewrite <- Hiff. simpl.
      rewrite elem_of_cons. destruct (Z.max_spec m (id t)) as [[? ->]|[? ->]]; intuition lia.
    + destruct Hcmd as [?|Hd]; [congruence|]. rewrite (handle_delete st cmd w Hd).
      cbn [fst snd]. rewrite appended_delete.
      edestruct (IH {| addr := allocated w;
                       content := set_tasks (content st)
                         (filter (λ t, same_id t cmd = false) (tasks (content st))) |}
                    {| ticks := ticks w; allocated := S (allocated w) |} m)
        as (m' & Hm' & Hiff); [done|done| |].
      { simpl. intros u [_ Hu]%list_elem_of_filter. by apply Hids. }
      exists m'. split; [lia|]. intros i. by rewrite <- Hiff.
Qed.

(** without a delete in between the ids are consecutive *)
Lemma ids_assigned_tasks_only cmds : ∀ st w,
  Forall (λ c, is_task_cmd c = true) cmds →
  ∀ i, i ∈ (ids_assigned clock st cmds w).1 ↔
       nextId (tasks (content st)) < i ≤ nextId (tasks (content st)) + Z.of_nat (count_tasks cmds).
Proof.
  induction cmds as [|cmd cmds IH]; intros st w Hcmds i.
  - simpl. rewrite elem_of_nil. unfold count_tasks. simpl. lia.
  - inversion Hcmds as [|? ? Ht Hcmds']; subst.
    rewrite ids_assigned_cons, count_tasks_cons, Ht. cbv zeta.
    destruct (handle_task st cmd w Ht) as (t & Hid & ->). cbn [fst snd].
    rewrite appended_task. simpl. rewrite elem_of_cons, IH by done. simpl.
    rewrite nextId_snoc, Hid.
    destruct (Z.gtb_spec (nextId (tasks (content st)) + 1) (nextId (tasks (content st)))); lia.
Qed.
(** C1.  With ids below 2^53 (where the sum of line 392 is exact): a task
    command with text appends one task whose id is the largest id in the
    list, or 0 when none is above 0, plus 1: above every id in the list,
    and 1 on the empty list.  Starting without tasks, N < 2^53 such
    commands with deletes in between hand out ids that fill {1..M} for
    some M ≤ N; M = N when there is no delete.  (An id is handed out again
    after the task holding the largest id is deleted.) *)
Theorem task_ids_fill_an_initial_segment :
  (∀ st cmd w, is_task_cmd cmd = true →
     (∀ u, u ∈ tasks (content st) → (id u < 2 ^ 53)%Z) →
     ∃ t, tasks (content (handle clock st cmd w).1) = tasks (content st) ++ [t] ∧
          id t = nextId (tasks (content st)) + 1 ∧
          (∀ u, u ∈ tasks (content st) → id u < id t) ∧
          (tasks (content st) = [] → id t = 1)) ∧
  (∀ st cmds w, tasks (content st) = [] →
     Forall (λ c, is_task_cmd c = true ∨ is_delete_cmd c = true) cmds →
     (Z.of_nat (count_tasks cmds) < 2 ^ 53)%Z →
     ∃ m : nat, (m ≤ count_tasks cmds)%nat ∧
       ids_exactly (ids_assigned clock st cmds w).1 m ∧
       (Forall (λ c, is_task_cmd c = true) cmds → m = count_tasks cmds)).
Proof.
  split.
  - intros st cmd w Hc _. destruct (handle_task st cmd w Hc) as (t & Hid & ->).
    exists t. split; [done|]. split; [done|]. split.
    + intros u Hu. destruct (nextId_bounds (tasks (content st))) as (_ & Hle & _).
      apply Hle in Hu. lia.
    + intros E. by rewrite Hid, E.
  - intros st cmds w Hempty Hcmds _.
    destruct (ids_assigned_segment cmds st w 0 Hcmds) as (m' & Hm' & Hiff); [done| |].
    { rewrite Hempty. by intros t Ht%elem_of_nil. }
    exists (Z.to_nat m').
    assert (ids_exactly (ids_assigned clock st cmds w).1 (Z.to_nat m')) as Hex.
    { intros i. rewrite Z2Nat.id by lia. rewrite <- Hiff. intuition lia. }
    split; [lia|]. split; [done|].
    intros Honly. pose proof (ids_assigned_tasks_only cmds st w Honly) as Hcons.
    rewrite Hempty in Hcons. cbn [nextId foldl] in Hcons.
    destruct (count_tasks cmds) as [|n] eqn:En; [lia|].
    assert (Z.of_nat (S n) ∈ (ids_assigned clock st cmds w).1) as Hin by (apply Hcons; lia).
    apply Hex in Hin. lia.
Qed.
End Ids.

Lemma task_ids_fill_an_initial_segment_witness :
  ∃ m : nat, m ≤ count_tasks [task_cmd "a"; one_id_cmd "d" 1; task_cmd "b"] ∧
    ids_exactly (ids_assigned sample_clock initial_object
                   [task_cmd "a"; one_id_cmd "d" 1; task_cmd "b"] initial_world).1 m ∧
    (Forall (λ c, is_task_cmd c = true)
       [task_cmd "a"; one_id_cmd "d" 1; task_cmd "b"] →
     m = count_tasks [task_cmd "a"; one_id_cmd "d" 1; task_cmd "b"]).
Proof.
  apply (task_ids_fill_an_initial_segment sample_clock); [reflexivity| |reflexivity].
  apply Forall_cons; split; [left; reflexivity|].
  apply Forall_cons; split; [right; reflexivity|].
  apply Forall_cons; split; [left; reflexivity|]. apply Forall_nil_2.
Defined.

(** Two task commands with a delete of task 1 in between: both tasks get
    id 1, so the ids handed out are not {1..2}. *)
Lemma id_reused_after_delete :
  let cmds := [task_cmd "a"; one_id_cmd "d" 1; task_cmd "b"] in
  Forall (λ c, is_task_cmd c = true ∨ is_delete_cmd c = true) cmds ∧
  count_tasks cmds = 2 ∧
  (ids_assigned sample_clock initial_object cmds initial_world).1 = [1; 1]%Z ∧
  ¬ ids_exactly (ids_assigned sample_clock initial_object cmds initial_world).1 2.
Proof.
  split.
  { apply Forall_cons; split; [left; reflexivity|].
    apply Forall_cons; split; [right; reflexivity|].
    apply Forall_cons; split; [left; reflexivity|]. apply Forall_nil_2. }
  split; [reflexivity|]. split; [reflexivity|].
  intros H. destruct (H 2%Z) as [_ Hin].
  change (ids_assigned sample_clock initial_object
            [task_cmd "a"; one_id_cmd "d" 1; task_cmd "b"] initial_world).1
    with [1; 1]%Z in Hin.
  assert (2 ∈ [1; 1])%Z as Hbad by (apply Hin; lia).
  apply elem_of_cons in Hbad as [Hbad|Hbad]; [lia|].
  apply elem_of_cons in Hbad as [Hbad|Hbad]; [lia|]. by apply elem_of_nil in Hbad.
Qed.


Lemma all_closed_ok t : all_closed t → task_ok t.
Proof. intros H j l Hl. destruct (H j l Hl). split; [done|]. by intros ?. Qed.

Lemma task_ok_not_WIP t : task_ok t → status t ≠ WIP → all_closed t.
Proof.
  intros H Hs j l Hl. destruct (H j l Hl) as [? Hopen]. split; [done|].
  intros He. by destruct (Hopen He).
Qed.

Lemma task_ok_frame t t' :
  logs t' = logs t → status t' = status t → task_ok t → task_ok t'.
Proof. unfold task_ok, logs_or_empty. by intros -> ->. Qed.

Lemma all_closed_frame t t' : logs t' = logs t → all_closed t → all_closed t'.
Proof. unfold all_closed, logs_or_empty. by intros ->. Qed.

Lemma task_ok_open_last t s : task_ok t → open_last (set_status t s).
Proof. intros H j l Hl. destruct (H j l Hl) as [? Hopen]. split; [done|]. by intros [? _]%Hopen. Qed.

Lemma logs_cases (ls : option (list Worklog)) :
  (ls = None ∨ ls = Some []) ∨ ∃ ls0 l, ls = Some (ls0 ++ [l]).
Proof.
  destruct ls as [ls|]; [|by left; left].
  destruct ls as [|l ls _] using rev_ind; [by left; right|]. right. eauto.
Qed.

Lemma task_ok_open_count t : task_ok t → open_count t ≤ 1.
Proof.
  intros H. unfold open_count. unfold task_ok in H.
  destruct (logs_or_empty t) as [|l ls _] using rev_ind; [simpl; lia|].
  rewrite filter_app, length_app.
  assert (filter is_open ls = []) as ->.
  { destruct (filter is_open ls) as [|l' r] eqn:E; [done|]. exfalso.
    assert (l' ∈ filter is_open ls) as [Hopen Hl']%list_elem_of_filter by (rewrite E; left).
    apply list_elem_of_lookup in Hl' as [j Hj].
    destruct (H j l') as [_ Hlast]; [by apply lookup_app_l_Some|].
    destruct (Hlast Hopen) as [E' _]. apply lookup_lt_Some in Hj.
    rewrite length_app in E'. simpl in E'. lia. }
  simpl. rewrite filter_cons, filter_nil. destruct (decide (is_open l)); simpl; lia.
Qed.

Lemma keeps_closed_refl t : keeps_closed t t.
Proof. by intros j l. Qed.

Lemma keeps_closed_trans t1 t2 t3 :
  keeps_closed t1 t2 → keeps_closed t2 t3 → keeps_closed t1 t3.
Proof. intros H1 H2 j l Hl He. apply H2; [|done]. by apply H1. Qed.

Section Worklogs.
Variable clock : nat → Z.

Lemma stopWorkLogging_keeps t w : keeps_closed t (stopWorkLogging clock t w).1.
Proof.
  destruct (logs_cases (logs t)) as [Hn|(ls0 & l & Hl)].
  - intros j l Hj. unfold logs_or_empty in Hj. by destruct Hn as [Hn|Hn]; rewrite Hn in Hj.
  - destruct (decide (start l ≠ 0%Z ∧ end_ l = 0%Z)) as [[Hs He]|Hc].
    + destruct (stopWorkLogging_open clock t w ls0 l Hl Hs He) as [E _].
      intros j l' Hj He'. unfold logs_or_empty in *. rewrite E. rewrite Hl in Hj.
      simpl in *. destruct (decide (j < length ls0)) as [Hlt|Hge].
      * rewrite lookup_app_l in Hj by done. by rewrite lookup_app_l.
      * rewrite lookup_app_r in Hj by lia.
        destruct (j - length ls0) as [|k]; simpl in Hj; [|done]. congruence.
    + rewrite (stopWorkLogging_closed clock t w ls0 l Hl); [apply keeps_closed_refl|].
      destruct (decide (start l = 0%Z)); [by left|right]. intros He. apply Hc. done.
Qed.

Lemma keeps_closed_status t s : keeps_closed t (set_status t s).
Proof. by intros j l. Qed.

Lemma begin_task_keeps cmd t w : keeps_closed t (begin_task clock cmd t w).1.
Proof.
  unfold begin_task. destruct (same_id t cmd); [|apply keeps_closed_refl].
  destruct (decide (status t ≠ WIP)); [|apply keeps_closed_refl].
  intros j l Hj _. simpl. unfold logs_or_empty at 1. simpl.
  by apply lookup_app_l_Some.
Qed.

Lemma check_task_keeps cmd t w : keeps_closed t (check_task clock cmd t w).1.
Proof.
  unfold check_task. destruct (same_id t cmd); [|apply keeps_closed_refl]. cbv zeta.
  destruct (decide (status (set_status t _) = DONE)).
  - eapply keeps_closed_trans; [apply keeps_closed_status|apply stopWorkLogging_keeps].
  - apply keeps_closed_status.
Qed.

Lemma flag_task_keeps cmd t w : keeps_closed t (flag_task clock cmd t w).1.
Proof.
  unfold flag_task. destruct (same_id t cmd); [|apply keeps_closed_refl].
  eapply keeps_closed_trans; [apply keeps_closed_status|apply stopWorkLogging_keeps].
Qed.

Lemma stop_task_keeps cmd t w : keeps_closed t (stop_task clock cmd t w).1.
Proof.
  unfold stop_task. destruct (same_id t cmd); [|apply keeps_closed_refl].
  destruct (decide (status t = WIP)); [|apply keeps_closed_refl].
  eapply keeps_closed_trans; [apply keeps_closed_status|apply stopWorkLogging_keeps].
Qed.

(** a begin, stop, check or flag keeps the list in place and the closed logs *)
Lemma handle_worklog_keeps st cmd w i t :
  is_worklog_cmd cmd = true → tasks (content st) !! i = Some t →
  ∃ t', tasks (content (handle clock st cmd w).1) !! i = Some t' ∧ keeps_closed t t'.
Proof.
  intros Hc Hi. unfold is_worklog_cmd in Hc.
  apply orb_true_iff in Hc as [Hc|Hc]; [apply orb_true_iff in Hc as [Hc|Hc];
    [apply orb_true_iff in Hc as [Hc|Hc]|]|].
  - rewrite handle_begin by done. simpl.
    destruct (array_map_lookup _ _ w i t (begin_task_world clock cmd) Hi) as (wi & -> & _).
    eexists. split; [done|]. apply begin_task_keeps.
  - rewrite handle_stop by done. simpl.
    destruct (array_map_lookup _ _ w i t (stop_task_world clock cmd) Hi) as (wi & -> & _).
    eexists. split; [done|]. apply stop_task_keeps.
  - rewrite handle_check by done. simpl.
    destruct (array_map_lookup _ _ w i t (check_task_world clock cmd) Hi) as (wi & -> & _).
    eexists. split; [done|]. apply check_task_keeps.
  - rewrite handle_flag by done. simpl.
    destruct (array_map_lookup _ _ w i t (flag_task_world clock cmd) Hi) as (wi & -> & _).
    eexists. split; [done|]. apply flag_task_keeps.
Qed.

Lemma handle_all_cons st cmd cmds w :
  handle_all clock st (cmd :: cmds) w =
  handle_all clock (handle clock st cmd w).1 cmds (handle clock st cmd w).2.
Proof. cbn [handle_all]. unfold bind. by destruct (handle clock st cmd w). Qed.

Lemma handle_all_worklog_keeps cmds : ∀ st w i t,
  Forall (λ c, is_worklog_cmd c = true) cmds → tasks (content st) !! i = Some t →
  ∃ t', tasks (content (handle_all clock st cmds w).1) !! i = Some t' ∧ keeps_closed t t'.
Proof.
  induction cmds as [|cmd cmds IH]; intros st w i t Hcmds Hi.
  - exists t. split; [done|apply keeps_closed_refl].
  - inversion Hcmds as [|? ? Hc Hcmds']; subst. rewrite handle_all_cons.
    destruct (handle_worklog_keeps st cmd w i t Hc Hi) as (t1 & H1 & K1).
    destruct (IH _ (handle clock st cmd w).2 i t1 Hcmds' H1) as (t2 & H2 & K2).
    exists t2. split; [done|]. by eapply keeps_closed_trans.
Qed.

(** *** The invariant of reachable states *)
Hypothesis clock_nonzero : ∀ n, clock n ≠ 0%Z.

Lemma stopWorkLogging_closes t w :
  open_last t → all_closed (stopWorkLogging clock t w).1.
Proof.
  intros Hok. destruct (logs_cases (logs t)) as [Hn|(ls0 & l & Hl)].
  - destruct (stopWorkLogging_none clock t w Hn) as [E _].
    intros j l Hj. unfold logs_or_empty in Hj. rewrite E in Hj. simpl in Hj.
    destruct j as [|j]; [|done]. injection Hj as <-. simpl. split; apply clock_nonzero.
  - assert (∀ j l', ls0 !! j = Some l' → start l' ≠ 0%Z ∧ end_ l' ≠ 0%Z) as Hinit.
    { intros j l' Hj. destruct (Hok j l') as [? Hopen].
      { unfold logs_or_empty. rewrite Hl. simpl. by apply lookup_app_l_Some. }
      split; [done|]. intros He. pose proof (Hopen He) as E.
      unfold logs_or_empty in E. rewrite Hl in E. simpl in E. rewrite length_app in E.
      apply lookup_lt_Some in Hj. simpl in E. lia. }
    assert (start l ≠ 0%Z) as Hs.
    { destruct (Hok (length ls0) l) as [? _]; [|done].
      unfold logs_or_empty. rewrite Hl. simpl. by rewrite lookup_app_r, Nat.sub_diag. }
    destruct (decide (end_ l = 0%Z)) as [He|He].
    + destruct (stopWorkLogging_open clock t w ls0 l Hl Hs He) as [E _].
      intros j l' Hj. unfold logs_or_empty in Hj. rewrite E in Hj. simpl in Hj.
      destruct (decide (j < length ls0)) as [Hlt|Hge].
      * rewrite lookup_app_l in Hj by done. by eapply Hinit.
      * rewrite lookup_app_r in Hj by lia.
        destruct (j - length ls0) as [|k]; simpl in Hj; [|done]. injection Hj as <-.
        simpl. split; [done|apply clock_nonzero].
    + rewrite (stopWorkLogging_closed clock t w ls0 l Hl) by (by right). simpl.
      intros j l' Hj. unfold logs_or_empty in Hj. rewrite Hl in Hj. simpl in Hj.
      destruct (decide (j < length ls0)) as [Hlt|Hge].
      * rewrite lookup_app_l in Hj by done. by eapply Hinit.
      * rewrite lookup_app_r in Hj by lia.
        destruct (j - length ls0) as [|k]; simpl in Hj; [|done]. by injection Hj as <-.
Qed.

Lemma begin_task_ok cmd t w : task_ok t → task_ok (begin_task clock cmd t w).1.
Proof.
  intros Hok. unfold begin_task. destruct (same_id t cmd); [|done].
  destruct (decide (status t ≠ WIP)) as [Hs|]; [|done]. simpl.
  pose proof (task_ok_not_WIP t Hok Hs) as Hall.
  intros j l Hj. unfold logs_or_empty in Hj |- *. simpl in *.
  fold (logs_or_empty t) in *.
  destruct (decide (j < length (logs_or_empty t))) as [Hlt|Hge].
  - rewrite lookup_app_l in Hj by done. destruct (Hall j l Hj). by split.
  - rewrite lookup_app_r in Hj by lia.
    destruct (j - length (logs_or_empty t)) as [|k] eqn:Ek; simpl in Hj; [|done].
    injection Hj as <-. simpl. split; [apply clock_nonzero|]. intros _.
    rewrite length_app. simpl. split; [lia|done].
Qed.

Lemma check_task_ok cmd t w : task_ok t → task_ok (check_task clock cmd t w).1.
Proof.
  intros Hok. unfold check_task. destruct (same_id t cmd); [|done]. cbv zeta.
  destruct (decide (status t = DONE)) as [Hs|Hs]; simpl.
  - destruct (decide (WAIT = DONE)); [done|]. simpl.
    apply all_closed_ok. apply (all_closed_frame t); [done|].
    apply task_ok_not_WIP; [done|]. by rewrite Hs.
  - destruct (decide (DONE = DONE)); [|done].
    by apply all_closed_ok, stopWorkLogging_closes, task_ok_open_last.
Qed.

Lemma flag_task_ok cmd t w : task_ok t → task_ok (flag_task clock cmd t w).1.
Proof.
  intros Hok. unfold flag_task. destruct (same_id t cmd); [|done].
  by apply all_closed_ok, stopWorkLogging_closes, task_ok_open_last.
Qed.

Lemma stop_task_ok cmd t w : task_ok t → task_ok (stop_task clock cmd t w).1.
Proof.
  intros Hok. unfold stop_task. destruct (same_id t cmd); [|done].
  destruct (decide (status t = WIP)); [|done].
  by apply all_closed_ok, stopWorkLogging_closes, task_ok_open_last.
Qed.

Lemma dispatch_ok s cmd w s' w' :
  dispatch clock s cmd w = (Some s', w') →
  Forall task_ok (tasks s) → Forall task_ok (tasks s').
Proof.
  intros Hd Hok. unfold dispatch in Hd.
  destruct (toLowerCase <$> command cmd) as [v|]; [|done].
  repeat match type of Hd with
  | (if ?b then _ else _) _ = _ => destruct b
  end.
  - injection Hd as <- _. simpl. apply Forall_fmap. eapply Forall_impl; [done|].
    intros t Ht. unfold move_task. simpl. destruct (same_id t cmd); [|done].
    by apply (task_ok_frame t).
  - unfold bind, ret in Hd.
    pose proof (array_map_Forall task_ok task_ok (begin_task clock cmd) (tasks s) w
                  (λ t w Ht, begin_task_ok cmd t w Ht) Hok) as H.
    destruct (array_map _ _ w). by injection Hd as <- _.
  - unfold bind, ret in Hd.
    pose proof (array_map_Forall task_ok task_ok (check_task clock cmd) (tasks s) w
                  (λ t w Ht, check_task_ok cmd t w Ht) Hok) as H.
    destruct (array_map _ _ w). by injection Hd as <- _.
  - injection Hd as <- _. simpl. apply Forall_forall.
    intros t [_ Ht]%list_elem_of_filter. by eapply Forall_forall in Hok.
  - unfold bind, ret in Hd.
    pose proof (array_map_Forall task_ok task_ok (flag_task clock cmd) (tasks s) w
                  (λ t w Ht, flag_task_ok cmd t w Ht) Hok) as H.
    destruct (array_map _ _ w). by injection Hd as <- _.
  - unfold bind, ret in Hd.
    pose proof (array_map_Forall task_ok task_ok (stop_task clock cmd) (tasks s) w
                  (λ t w Ht, stop_task_ok cmd t w Ht) Hok) as H.
    destruct (array_map _ _ w). by injection Hd as <- _.
  - destruct (cmd_text cmd) as [[|c x]|]; [done| |done]. injection Hd as <- _. simpl.
    apply Forall_app. split; [done|]. apply Forall_singleton. by intros j l Hj.
  - destruct (cmd_text cmd) as [[|c x]|]; [done| |done]. injection Hd as <- _. simpl.
    apply Forall_fmap. eapply Forall_impl; [done|].
    intros t Ht. unfold edit_task. simpl. destruct (same_id t cmd); [|done].
    by apply (task_ok_frame t).
  - by injection Hd as <- _.
  - by injection Hd as <- _.
  - by injection Hd as <- _.
  - done.
Qed.

Lemma reachable_ok s : reachable clock s → Forall task_ok (tasks s).
Proof.
  induction 1 as [|s cmd w s' w' _ IH Hd]; [constructor|]. by eapply dispatch_ok.
Qed.

Lemma handle_reachable st cmd w :
  reachable clock (content st) → reachable clock (content (handle clock st cmd w).1).
Proof.
  intros H. unfold handle, bind.
  destruct (dispatch clock (content st) cmd w) as [[s'|] w'] eqn:E; [|done].
  simpl. by eapply reachable_step.
Qed.

Lemma handle_all_reachable cmds : ∀ st w,
  reachable clock (content st) → reachable clock (content (handle_all clock st cmds w).1).
Proof.
  induction cmds as [|cmd cmds IH]; intros st w H; [done|].
  rewrite handle_all_cons. by apply IH, handle_reachable.
Qed.

(** C2.  With a clock that never reads 0: after any sequence of begin, stop,
    check and flag commands on a reachable state, every task has at most
    one open log, and every log that was closed (nonzero end) before the
    sequence is unchanged, at its index, after it. *)
Theorem one_open_log_and_closed_logs_stay st cmds w :
  reachable clock (content st) →
  Forall (λ c, is_worklog_cmd c = true) cmds →
  (∀ t, t ∈ tasks (content (handle_all clock st cmds w).1) → open_count t ≤ 1) ∧
  (∀ i t j l,
     tasks (content st) !! i = Some t → logs_or_empty t !! j = Some l → end_ l ≠ 0%Z →
     ∃ t', tasks (content (handle_all clock st cmds w).1) !! i = Some t' ∧
           logs_or_empty t' !! j = Some l).
Proof.
  intros Hr Hcmds. split.
  - intros t Ht. apply task_ok_open_count.
    pose proof (reachable_ok _ (handle_all_reachable cmds st w Hr)) as Hok.
    by eapply Forall_forall in Hok.
  - intros i t j l Hi Hj He.
    destruct (handle_all_worklog_keeps cmds st w i t Hcmds Hi) as (t' & Hi' & Hk).
    exists t'. split; [done|]. by apply Hk.
Qed.
End Worklogs.

Lemma one_open_log_witness :
  let st := (handle sample_clock initial_object (task_cmd "x") initial_world).1 in
  let cmds := [one_id_cmd "b" 1; one_id_cmd "c" 1; one_id_cmd "b" 1] in
  (∀ t, t ∈ tasks (content (handle_all sample_clock st cmds initial_world).1) →
        open_count t ≤ 1) ∧
  (∀ i t j l,
     tasks (content st) !! i = Some t → logs_or_empty t !! j = Some l → end_ l ≠ 0%Z →
     ∃ t', tasks (content (handle_all sample_clock st cmds initial_world).1) !! i = Some t' ∧
           logs_or_empty t' !! j = Some l).
Proof.
  apply (one_open_log_and_closed_logs_stay sample_clock).
  - intros n. unfold sample_clock. lia.
  - apply (reachable_step sample_clock default_state (task_cmd "x") initial_world _
             initial_world (reachable_default sample_clock)). reflexivity.
  - apply Forall_cons; split; [reflexivity|].
    apply Forall_cons; split; [reflexivity|].
    apply Forall_cons; split; [reflexivity|]. apply Forall_nil_2.
Defined.

(** With a clock that reads 0 at the stop: the stop writes the reading 0 as
    the end of the log, which is the mark of an open log, and the next
    begin opens a second one. *)
Lemma two_open_logs_when_the_clock_reads_zero :
  let clock := clock_of [1000; 0; 2000]%Z in
  let st := (handle clock initial_object (task_cmd "x") initial_world).1 in
  let cmds := [one_id_cmd "b" 1; one_id_cmd "st" 1; one_id_cmd "b" 1] in
  reachable clock (content st) ∧
  Forall (λ c, is_worklog_cmd c = true) cmds ∧
  logs_or_empty <$> tasks (content (handle_all clock st cmds initial_world).1) =
    [ [ {| start := 1000; end_ := 0 |}; {| start := 2000; end_ := 0 |} ] ]%Z ∧
  open_count <$> tasks (content (handle_all clock st cmds initial_world).1) = [2%nat].
Proof.
  intros clock st cmds. split.
  { apply (reachable_step clock default_state (task_cmd "x") initial_world _
             initial_world (reachable_default clock)). reflexivity. }
  split.
  { apply Forall_cons; split; [reflexivity|].
    apply Forall_cons; split; [reflexivity|].
    apply Forall_cons; split; [reflexivity|]. apply Forall_nil_2. }
  split; reflexivity.
Qed.


(** C4.  From a state without tasks, the inputs "t @work Write
    spec", "b 1", "c 1", "c 1", "d 1" give, step by step: one task with id 1,
    tag "@work", title "Write spec", status WAIT and no logs (the logs read
    as [t.logs || []]); then status WIP with one open log; then status DONE
    with that log closed; then status WAIT with the same logs; then no
    task.  The two clock readings taken on the way are not 0. *)
Theorem end_to_end clock st w :
  tasks (content st) = [] →
  clock (ticks w) ≠ 0%Z → clock (S (ticks w)) ≠ 0%Z →
  let entry := {| start := clock (ticks w); end_ := clock (S (ticks w)) |} in
  fmap (M := list) with_logs_or_empty <$> scenario clock st w =
  [ [spec_task WAIT (Some [])];
    [spec_task WIP (Some [set_end entry 0])];
    [spec_task DONE (Some [entry])];
    [spec_task WAIT (Some [entry])];
    [] ].
Proof.
  intros Hts H0 H1 entry. destruct st as [a [ts sh sto]]. simpl in Hts. subst ts.
  destruct w as [tk al]. simpl in *. subst entry.
  vm_compute.
  destruct (clock tk) as [|p|p]; [done|..];
    destruct (clock (S tk)) as [|q|q]; try done; reflexivity.
Qed.

Lemma end_to_end_witness :
  fmap (M := list) with_logs_or_empty <$> scenario sample_clock initial_object initial_world =
  [ [spec_task WAIT (Some [])];
    [spec_task WIP (Some [ {| start := sample_clock 0; end_ := 0 |} ])];
    [spec_task DONE (Some [ {| start := sample_clock 0; end_ := sample_clock 1 |} ])];
    [spec_task WAIT (Some [ {| start := sample_clock 0; end_ := sample_clock 1 |} ])];
    [] ].
Proof.
  apply (end_to_end sample_clock initial_object initial_world);
    [reflexivity|unfold sample_clock; simpl; lia..].
Defined.

(** With a clock that reads 1000 at the begin and 0 at the check, the check
    writes 0 as the end of the log: the task is DONE and its log is still
    open. *)
Lemma entry_left_open_when_the_clock_reads_zero :
  fmap (M := list) with_logs_or_empty <$> scenario (clock_of [1000]%Z) initial_object initial_world =
  [ [spec_task WAIT (Some [])];
    [spec_task WIP (Some [ {| start := 1000; end_ := 0 |} ])];
    [spec_task DONE (Some [ {| start := 1000; end_ := 0 |} ])];
    [spec_task WAIT (Some [ {| start := 1000; end_ := 0 |} ])];
    [] ] ∧
  fmap (M := list) open_count <$> scenario (clock_of [1000]%Z) initial_object initial_world =
  [ [0]; [1]; [1]; [1]; [] ]%nat.
Proof. split; reflexivity. Qed.


Lemma sort_insert_perm a l : sort_insert a l ≡ₚ a :: l.
Proof.
  induction l as [|b l IH]; simpl; [done|].
  destruct (act_start a <=? act_start b)%Z; [done|].
  rewrite IH. apply Permutation_swap.
Qed.

Lemma array_sort_perm l : array_sort l ≡ₚ l.
Proof.
  induction l as [|a l IH]; simpl; [done|]. by rewrite sort_insert_perm, IH.
Qed.

Lemma sort_insert_sorted a l :
  StronglySorted by_start l → StronglySorted by_start (sort_insert a l).
Proof.
  induction 1 as [|b l Hl IH Hb]; simpl; [repeat constructor|].
  destruct (Z.leb_spec (act_start a) (act_start b)).
  - constructor; [by constructor|]. constructor; [done|].
    eapply Forall_impl; [done|]. unfold by_start. simpl. lia.
  - constructor; [done|]. rewrite sort_insert_perm. constructor; [|done].
    unfold by_start. lia.
Qed.

Lemma array_sort_sorted l : StronglySorted by_start (array_sort l).
Proof.
  induction l as [|a l IH]; simpl; [constructor|]. by apply sort_insert_sorted.
Qed.

Lemma isSameDay_spec a b : isSameDay a b = true ↔ (Z.abs (a - b) ≤ 86400000)%Z.
Proof. unfold isSameDay. apply Z.leb_le. Qed.

Lemma kept_spec now l :
  truthy (start l) && isSameDay now (start l) = true ↔ recent now l.
Proof. unfold recent. by rewrite andb_true_iff, truthy_true, isSameDay_spec. Qed.

Lemma elem_of_works now t ls a :
  a ∈ works now t ls ↔
  ∃ j l, ls !! j = Some l ∧ recent now l ∧
    a = {| act_task := title t; act_start := start l; act_end := end_ l;
           act_done := truthy (end_ l) && bool_decide (j = length ls - 1) &&
                       bool_decide (status t = DONE) |}.
Proof.
  unfold works. rewrite list_elem_of_join. split.
  - intros (x & Ha & Hx). apply elem_of_lookup_imap in Hx as (j & l & -> & Hl).
    exists j, l. split; [done|].
    destruct (truthy (start l) && isSameDay now (start l)) eqn:E.
    + apply kept_spec in E. by apply list_elem_of_singleton in Ha.
    + by apply elem_of_nil in Ha.
  - intros (j & l & Hl & Hr & ->). eexists. split; [|apply elem_of_lookup_imap; eauto].
    apply kept_spec in Hr. rewrite Hr. by left.
Qed.

Lemma length_works now t ls :
  length (works now t ls) = length (filter (recent now) ls).
Proof.
  unfold works. generalize (length ls - 1). intros n.
  change (λ (i : nat) (l : Worklog), ?b) with (λ (i : nat) (l : Worklog), b).
  assert (∀ k, length (mjoin (imap (λ i l,
      if truthy (start l) && isSameDay now (start l) then
        [ {| act_task := title t; act_start := start l; act_end := end_ l;
             act_done := truthy (end_ l) && bool_decide (k + i = n) &&
                         bool_decide (status t = DONE) |} ]
      else []) ls)) = length (filter (recent now) ls)) as H.
  { induction ls as [|l ls IH]; intros k; [done|].
    rewrite imap_cons, filter_cons. simpl. rewrite length_app.
    erewrite imap_ext; [rewrite (IH (S k))|].
    2: { intros i x _. simpl. by rewrite Nat.add_succ_r. }
    destruct (decide (recent now l)) as [Hr|Hr].
    - apply kept_spec in Hr. by rewrite Hr.
    - destruct (truthy (start l) && isSameDay now (start l)) eqn:E; [|done].
      by apply kept_spec in E. }
  apply (H 0).
Qed.

Lemma elem_of_activities now ts a : a ∈ activities now ts ↔ shown now ts a.
Proof.
  unfold activities, shown. rewrite list_elem_of_bind. split.
  - intros (t & Ha & Ht). apply list_elem_of_lookup in Ht as [i Hi].
    destruct (logs t) as [ls|] eqn:Hl; [|by apply elem_of_nil in Ha].
    apply elem_of_works in Ha as (j & l & Hj & [Hs Hd] & ->).
    exists i, t, ls, j, l. simpl. repeat (split; [done|]).
    rewrite !andb_true_iff, !bool_decide_eq_true, truthy_true.
    apply lookup_lt_Some in Hj. split.
    + intros [[? ?] ?]. split; [done|]. split; [lia|done].
    + intros (? & ? & ?). split; [|done]. split; [done|lia].
  - intros (i & t & ls & j & l & Hi & Hl & Hj & Hs & Hd & Ht & Hst & He & Hdone).
    exists t. split; [|by eapply list_elem_of_lookup_2]. rewrite Hl.
    apply elem_of_works. exists j, l. split; [done|]. split; [done|].
    destruct a as [tk st en dn]. simpl in *. subst. f_equal.
    apply lookup_lt_Some in Hj.
    destruct dn.
    + destruct Hdone as [(? & ? & ?) _]; [done|].
      symmetry. rewrite !andb_true_iff, !bool_decide_eq_true, truthy_true.
      split; [|done]. split; [done|lia].
    + symmetry. apply not_true_iff_false. intros H.
      rewrite !andb_true_iff, !bool_decide_eq_true, truthy_true in H.
      destruct H as [[? ?] ?]. destruct Hdone as [_ Hdone]. 
      assert (false = true); [|done]. apply Hdone. split; [done|]. split; [lia|done].
Qed.

Lemma length_activities now ts :
  length (activities now ts) = length (t ← ts; filter (recent now) (logs_or_empty t)).
Proof.
  unfold activities. induction ts as [|t ts IH]; [done|].
  cbn [mbind list_bind]. rewrite !length_app, IH. f_equal.
  unfold logs_or_empty. destruct (logs t) as [ls|]; [apply length_works|done].
Qed.

(** C8.  The Today list is sorted by start, and holds one entry
    for each log whose start is not 0 and lies within 24 hours of now by
    absolute difference (tasks without a logs property add none).  No entry
    starts 25 hours before now; a log started 23 hours before now is
    listed.  An entry is marked done exactly when its log is closed
    (nonzero end), is the last log of its task, and the task is DONE. *)
Theorem today_shows_recent_logs_sorted clock state w :
  let now := clock (ticks w) in
  let today := (Today clock state w).1 in
  StronglySorted by_start today ∧
  (∀ a, a ∈ today ↔ shown now (tasks state) a) ∧
  length today = length (t ← tasks state; filter (recent now) (logs_or_empty t)) ∧
  (∀ a, a ∈ today → act_start a ≠ (now - 25 * 3600000)%Z) ∧
  (∀ t ls l, t ∈ tasks state → logs t = Some ls → l ∈ ls →
     start l = (now - 23 * 3600000)%Z → start l ≠ 0%Z →
     ∃ a, a ∈ today ∧ act_task a = title t ∧ act_start a = start l ∧ act_end a = end_ l).
Proof.
  intros now today. subst today. unfold Today, bind, ret, Date_now. simpl. fold now.
  assert (∀ a, a ∈ array_sort (activities now (tasks state)) ↔ shown now (tasks state) a) as Hin.
  { intros a. by rewrite array_sort_perm, elem_of_activities. }
  split; [apply array_sort_sorted|]. split; [done|].
  split; [by rewrite array_sort_perm, length_activities|]. split.
  - intros a (i & t & ls & j & l & _ & _ & _ & _ & Hd & _ & -> & _)%Hin. lia.
  - intros t ls l [i Hi]%list_elem_of_lookup Hl [j Hj]%list_elem_of_lookup Hs H0.
    exists {| act_task := title t; act_start := start l; act_end := end_ l;
              act_done := truthy (end_ l) && bool_decide (S j = length ls) &&
                          bool_decide (status t = DONE) |}.
    split; [|done]. apply Hin. exists i, t, ls, j, l. simpl.
    repeat (split; [done|]). split; [lia|]. repeat (split; [done|]).
    by rewrite !andb_true_iff, !bool_decide_eq_true, truthy_true, (assoc and).
Qed.

Lemma today_shows_recent_logs_sorted_witness :
  let now := sample_clock 0 in
  let today := (Today sample_clock two_days_state initial_world).1 in
  StronglySorted by_start today ∧
  length today = 1%nat ∧
  (∃ a, a ∈ today ∧ act_task a = js "x" ∧
        act_start a = (now - 23 * 3600000)%Z ∧ act_end a = (now - 23 * 3600000 + 1000)%Z) ∧
  (∀ a, a ∈ today → act_start a ≠ (now - 25 * 3600000)%Z).
Proof.
  intros now today.
  pose proof (today_shows_recent_logs_sorted sample_clock two_days_state initial_world) as H.
  cbv zeta in H. destruct H as (Hs & _ & Hlen & H25 & H23).
  split; [exact Hs|]. split; [etransitivity; [exact Hlen|reflexivity]|]. split; [|exact H25].
  apply (H23 (sample_task DONE two_days_logs) two_days_logs
             {| start := sample_clock 0 - 23 * 3600000;
                end_ := sample_clock 0 - 23 * 3600000 + 1000 |}%Z).
  - apply list_elem_of_here.
  - reflexivity.
  - apply list_elem_of_further, list_elem_of_here.
  - reflexivity.
  - vm_compute. discriminate.
Defined.

(** Typed lines with a clock that reads 0.  A task begun at 1000 and checked
    when the clock reads 0 is DONE with its log still open: the entry of
    that log, the last of a DONE task, is not marked done.  A task begun
    when the clock reads 0 has a log with start 0: at 5000 it is within 24
    hours of now, and the list does not hold it.  [spec_today] holds both. *)
Lemma zero_readings_in_today :
  tasks (content checked_at_zero.1) = [sample_task DONE [ {| start := 1000; end_ := 0 |} ]] ∧
  (Today (clock_of [1000; 0; 2000]%Z) (content checked_at_zero.1) checked_at_zero.2).1 =
    [ {| act_task := js "x"; act_start := 1000; act_end := 0; act_done := false |} ] ∧
  spec_today 2000 (tasks (content checked_at_zero.1)) =
    [ {| act_task := js "x"; act_start := 1000; act_end := 0; act_done := true |} ] ∧
  tasks (content begun_at_zero.1) = [sample_task WIP [ {| start := 0; end_ := 0 |} ]] ∧
  (Today (clock_of [0; 5000]%Z) (content begun_at_zero.1) begun_at_zero.2).1 = [] ∧
  spec_today 5000 (tasks (content begun_at_zero.1)) =
    [ {| act_task := js "x"; act_start := 0; act_end := 0; act_done := false |} ].
Proof. repeat split; reflexivity. Qed.


(** ** Today on reachable states *)

Lemma works_agree now t ls :
  logs t = Some ls → task_ok t → works now t ls = spec_works now t ls.
Proof.
  intros Hl Hok. unfold works, spec_works. f_equal. apply imap_ext.
  intros i l Hi. destruct (Hok i l) as [Hs Hopen].
  { unfold logs_or_empty. by rewrite Hl. }
  apply truthy_true in Hs. rewrite Hs. simpl.
  destruct (isSameDay now (start l)); [|done]. do 2 f_equal.
  destruct (truthy (end_ l)) eqn:He; [done|]. apply truthy_false in He.
  destruct (Hopen He) as [_ Hw]. simpl. rewrite Hw.
  by rewrite andb_false_r.
Qed.

Lemma activities_agree now ts :
  Forall task_ok ts →
  activities now ts = (t ← ts; spec_works now t (logs_or_empty t)).
Proof.
  unfold activities. induction 1 as [|t ts Ht _ IH]; [done|].
  cbn [mbind list_bind]. rewrite IH. f_equal.
  unfold logs_or_empty. destruct (logs t) as [ls|] eqn:Hl; [|done]. simpl.
  by apply works_agree.
Qed.

(** On the states the handler produces, with a clock that never reads 0,
    the guards on [l.start] and [l.end] of lines 210 and 215 always pass. *)
Lemma today_agrees_on_reachable_states clock state w :
  (∀ n, clock n ≠ 0%Z) → reachable clock state →
  (Today clock state w).1 = spec_today (clock (ticks w)) (tasks state).
Proof.
  intros Hclock Hr. unfold Today, spec_today, bind, ret, Date_now. simpl.
  f_equal. apply activities_agree. by apply (reachable_ok clock).
Qed.




(** * Further properties *)

(** ** The parser accepts only what the grammar reads *)

Lemma cls_s_control w : cls_s w = true → (w ≤ 32 ∨ 160 ≤ w)%N.
Proof.
  unfold cls_s, is_white_space, is_line_terminator.
  rewrite !orb_true_iff, !N.eqb_eq, in_range_spec. lia.
Qed.

Lemma cls_tag_not_space x : cls_tag x = true → cls_S x = true.
Proof.
  unfold cls_tag, cls_S. rewrite !orb_true_iff, !in_range_spec, !N.eqb_eq. intros H.
  apply negb_true_iff, not_true_iff_false. intros Hs%cls_s_control. lia.
Qed.

Lemma cls_quote_hyphen_not_space x : cls_quote_hyphen x = true → cls_S x = true.
Proof.
  unfold cls_quote_hyphen, cls_S. rewrite !orb_true_iff, !N.eqb_eq. intros H.
  apply negb_true_iff, not_true_iff_false. intros Hs%cls_s_control. lia.
Qed.

Lemma forallb_intro {A} (f : A → bool) l :
  Forall (λ x, f x = true) l ↔ forallb f l = true.
Proof.
  induction l as [|x l IH]; simpl; [by split; [|constructor]|].
  rewrite Forall_cons, andb_true_iff, IH. done.
Qed.

Lemma sem_verb_group_inv a b i s c i' s' c' :
  sem (Grp 1 (verb a b)) i s c i' s' c' →
  Forall (λ y, in_range 65 90 y = false) (js a ++ js b) →
  ∃ v, s = v ++ s' ∧ c' = <[1 := Some v]> c ∧
       toLowerCase v ∈ [js a; js a ++ js b].
Proof.
  intros H Hab. apply sem_verb_group in H as (v & -> & -> & Hv); [|done].
  exists v. split; [done|]. split; [done|].
  destruct Hv as [-> | ->]; [left|right; left].
Qed.

Lemma sem_digits_group_inv n i s c i' s' c' :
  sem (Grp n (Plus cls_d)) i s c i' s' c' →
  ∃ ds, s = ds ++ s' ∧ digits ds ∧ c' = <[n := Some ds]> c.
Proof.
  intros H. apply sem_digits_group in H as (d & ds & -> & Hd & Hds & ->).
  exists (d :: ds). split; [done|]. split; [split; [done|by constructor]|]. done.
Qed.

Lemma sem_body_group_inv n i s c i' s' c' :
  sem (Grp n (Star cls_dot)) i s c i' s' c' →
  ∃ body, s = body ++ s' ∧ Forall (λ x, cls_dot x = true) body ∧ c' = <[n := Some body]> c.
Proof.
  intros H. apply sem_Grp in H as (u & c1 & -> & -> & H & ->).
  destruct H as (u' & E & Hu & _ & ->). apply app_inv_tail in E as <-. by exists u.
Qed.

Lemma sem_tag_group_inv n i s c i' s' c' :
  sem (tag_group n) i s c i' s' c' →
  ∃ g, tag_ok g = true ∧ s = g ++ s' ∧ c' = <[n := Some g]> c.
Proof.
  intros H. apply sem_Grp in H as (g & c1 & -> & -> & H & ->).
  destruct H as (i1 & s1 & c2 & (x & E & Hx & -> & ->) & H).
  destruct H as (i2 & s2 & c3 & H1 & H2).
  destruct H1 as (i3 & s3 & c4 & (u & -> & Hu & -> & ->) & H1).
  assert (c3 = c ∧ ∃ u', s3 = u' ++ s2 ∧ Forall (λ x, cls_S x = true) u') as [-> (u' & -> & Hu')].
  { destruct H1 as [(y & -> & Hy & _ & ->)|(_ & -> & ->)]; (split; [done|]).
    - exists [y]. split; [done|]. constructor; [|done]. by apply cls_quote_hyphen_not_space.
    - by exists []. }
  destruct H2 as (y & u2 & -> & Hy & Hu2 & _ & ->).
  apply canonicalize_at in Hx as ->.
  assert (g = 64%N :: (u ++ u' ++ y :: u2)) as ->.
  { apply (app_inv_tail s'). rewrite E. simpl. by rewrite <- !(assoc_L (++)). }
  exists (64%N :: (u ++ u' ++ y :: u2)). split; [|done].
  cbn [tag_ok]. rewrite N.eqb_refl. simpl. apply andb_true_iff. split.
  - apply forallb_intro, Forall_app. split; [done|]. apply Forall_app. split; [done|].
    eapply Forall_impl; [exact (Forall_cons_2 _ _ _ Hy Hu2)|]. apply cls_tag_not_space.
  - destruct u2 as [|z u2 _] using rev_ind.
    + replace (u ++ u' ++ [y]) with ((u ++ u') ++ [y]) by (by rewrite <- (assoc_L (++))).
      by rewrite last_snoc.
    + replace (u ++ u' ++ y :: u2 ++ [z]) with ((u ++ u' ++ y :: u2) ++ [z])
        by (by rewrite <- !(assoc_L (++))).
      rewrite last_snoc. simpl. apply Forall_app in Hu2 as [_ Hz]. by inversion Hz.
Qed.

Lemma parseTaskCommand_reads input m :
  parseTaskCommand input = Some m →
  ∃ v w g body rest,
    toLowerCase v ∈ js <$> ["t"; "task"] ∧ cls_s w = true ∧
    Forall (λ x, cls_dot x = true) body ∧
    group m 1 = Some v ∧ group m 3 = Some body ∧
    ((group m 2 = None ∧ input = v ++ w :: body ++ rest) ∨
     (group m 2 = Some g ∧ tag_ok g = true ∧ input = v ++ w :: g ++ body ++ rest)).
Proof.
  intros H. apply str_match_sound in H as (i' & s' & H).
  apply sem_Grp in H as (u0 & c0 & _ & _ & H & ->).
  destruct H as (i1 & s1 & c1 & (_ & -> & -> & ->) & H).
  destruct H as (i2 & s2 & c2 & Hv & H).
  apply sem_verb_group_inv in Hv as (v & -> & -> & Hv); [|lowercase_word].
  destruct H as (i3 & s3 & c3 & (w & -> & Hw & -> & ->) & H).
  destruct H as (i4 & s4 & c4 & Htag & H).
  destruct Htag as [Htag|(_ & -> & ->)].
  - apply sem_tag_group_inv in Htag as (g & Hg & -> & ->).
    apply sem_body_group_inv in H as (body & -> & Hbody & ->).
    exists v, w, g, body, s'. repeat (split; [done|]). right. done.
  - apply sem_body_group_inv in H as (body & -> & Hbody & ->).
    exists v, w, [], body, s'. repeat (split; [done|]). left. done.
Qed.

Lemma parseEditCommand_reads input m :
  parseEditCommand input = Some m →
  ∃ v w ds body rest,
    toLowerCase v ∈ js <$> ["e"; "edit"] ∧ cls_s w = true ∧ digits ds ∧
    Forall (λ x, cls_dot x = true) body ∧
    group m 1 = Some v ∧ group m 2 = Some ds ∧
    group m 3 = Some body ∧ input = v ++ w :: ds ++ body ++ rest.
Proof.
  intros H. apply str_match_sound in H as (i' & s' & H).
  apply sem_Grp in H as (u0 & c0 & _ & _ & H & ->).
  destruct H as (i1 & s1 & c1 & (_ & -> & -> & ->) & H).
  destruct H as (i2 & s2 & c2 & Hv & H).
  apply sem_verb_group_inv in Hv as (v & -> & -> & Hv); [|lowercase_word].
  destruct H as (i3 & s3 & c3 & (w & -> & Hw & -> & ->) & H).
  destruct H as (i4 & s4 & c4 & Hd & H).
  apply sem_digits_group_inv in Hd as (ds & -> & Hds & ->).
  apply sem_body_group_inv in H as (body & -> & Hbody & ->).
  by exists v, w, ds, body, s'.
Qed.

Lemma parseMoveCommand_reads input m :
  parseMoveCommand input = Some m →
  ∃ v w ds w' g rest,
    toLowerCase v ∈ js <$> ["mv"; "move"] ∧ cls_s w = true ∧ digits ds ∧
    cls_s w' = true ∧ tag_ok g = true ∧
    group m 1 = Some v ∧ group m 2 = Some ds ∧
    group m 3 = Some g ∧ input = v ++ w :: ds ++ w' :: g ++ rest.
Proof.
  intros H. apply str_match_sound in H as (i' & s' & H).
  apply sem_Grp in H as (u0 & c0 & _ & _ & H & ->).
  destruct H as (i1 & s1 & c1 & (_ & -> & -> & ->) & H).
  destruct H as (i2 & s2 & c2 & Hv & H).
  apply sem_Grp in Hv as (v & c & -> & -> & Hv & ->).
  assert (c = [None; None; None; None] ∧ toLowerCase v ∈ js <$> ["mv"; "move"]) as [-> Hv'].
  { destruct Hv as [Hv|Hv]; apply sem_lit in Hv as (u & E & Hu & ->);
      apply app_inv_tail in E as <-; (split; [done|]);
      (erewrite lower_spells; [|done|lowercase_word]); [left|right; left]. }
  destruct H as (i3 & s3 & c3 & (w & -> & Hw & -> & ->) & H).
  destruct H as (i4 & s4 & c4 & Hd & H).
  apply sem_digits_group_inv in Hd as (ds & -> & Hds & ->).
  destruct H as (i5 & s5 & c5 & (w' & -> & Hw' & -> & ->) & H).
  apply sem_tag_group_inv in H as (g & Hg & -> & ->).
  by exists v, w, ds, w', g, s'.
Qed.

Lemma single_id_reads a b input m :
  str_match input (Bol +++ Grp 1 (verb a b) +++ Cls cls_s +++ Grp 2 (Plus cls_d)) = Some m →
  Forall (λ y, in_range 65 90 y = false) (js a ++ js b) →
  ∃ v w ds rest,
    toLowerCase v ∈ [js a; js a ++ js b] ∧ cls_s w = true ∧ digits ds ∧
    group m 1 = Some v ∧ group m 2 = Some ds ∧
    input = v ++ w :: ds ++ rest.
Proof.
  intros H Hab. apply str_match_sound in H as (i' & s' & H).
  assert (ngroups (Grp 0 (Bol +++ Grp 1 (verb a b) +++ Cls cls_s +++ Grp 2 (Plus cls_d))) = 3)
    as E by (simpl; by rewrite !ngroups_lit).
  rewrite E in H. clear E.
  apply sem_Grp in H as (u0 & c0 & _ & _ & H & ->).
  destruct H as (i1 & s1 & c1 & (_ & -> & -> & ->) & H).
  destruct H as (i2 & s2 & c2 & Hv & H).
  apply sem_verb_group_inv in Hv as (v & -> & -> & Hv); [|done].
  destruct H as (i3 & s3 & c3 & (w & -> & Hw & -> & ->) & H).
  apply sem_digits_group_inv in H as (ds & -> & Hds & ->).
  by exists v, w, ds, s'.
Qed.

Lemma one_id_reads input m :
  or_else (parseCheckCommand input)
    (or_else (parseBeginCommand input)
    (or_else (parseDeleteCommand input)
    (or_else (parseFlagCommand input) (parseStopCommand input)))) = Some m →
  ∃ v w ds rest,
    toLowerCase v ∈ js <$> one_id_verbs ∧ cls_s w = true ∧ digits ds ∧
    group m 1 = Some v ∧ group m 2 = Some ds ∧
    input = v ++ w :: ds ++ rest.
Proof.
  intros H.
  assert (∃ a b, In (a, b) [("c", "heck"); ("b", "egin"); ("d", "elete"); ("fl", "ag"); ("st", "op")] ∧
     str_match input (Bol +++ Grp 1 (verb a b) +++ Cls cls_s +++ Grp 2 (Plus cls_d)) = Some m)
    as (a & b & Hab & Hm).
  { destruct (parseCheckCommand input) eqn:E1; [injection H as ->; exists "c", "heck"; simpl; eauto|].
    destruct (parseBeginCommand input) eqn:E2; [injection H as ->; exists "b", "egin"; simpl; eauto|].
    destruct (parseDeleteCommand input) eqn:E3; [injection H as ->; exists "d", "elete"; simpl; eauto|].
    destruct (parseFlagCommand input) eqn:E4; [injection H as ->; exists "fl", "ag"; simpl; eauto 6|].
    exists "st", "op". simpl in *. eauto 8. }
  simpl in Hab.
  destruct Hab as [[= <- <-]|[[= <- <-]|[[= <- <-]|[[= <- <-]|[[= <- <-]|[]]]]]];
    (apply single_id_reads in Hm as (v & w & ds & rest & Hv & ? & ? & ? & ? & ?);
       [|lowercase_word]);
    exists v, w, ds, rest; (split; [|done]);
    apply list_elem_of_In in Hv; simpl in Hv; destruct Hv as [<-|[<-|[]]];
    apply (bool_decide_unpack _); vm_compute; exact I.
Qed.

Lemma parseOtherCommand_reads input m :
  parseOtherCommand input = Some m →
  ∃ v rest, toLowerCase v ∈ js <$> ["close-help"; "help"; "today"] ∧
            group m 1 = Some v ∧ input = v ++ rest.
Proof.
  intros H. apply str_match_sound in H as (i' & s' & H).
  apply sem_Grp in H as (u0 & c0 & _ & _ & H & ->).
  destruct H as (i1 & s1 & c1 & (_ & -> & -> & ->) & H).
  apply sem_Grp in H as (v & c & -> & -> & Hv & ->).
  assert (c = [None; None] ∧ toLowerCase v ∈ js <$> ["close-help"; "help"; "today"])
    as [-> Hv'].
  { destruct Hv as [Hv|[Hv|Hv]]; apply sem_lit in Hv as (u & E & Hu & ->);
      apply app_inv_tail in E as <-; (split; [done|]);
      (erewrite lower_spells; [|done|lowercase_word]);
      [left|right; left|right; right; left]. }
  by exists v, s'.
Qed.

(** every command the parser returns is a reading of the input *)
Lemma parseCommand_reads input cmd :
  parseCommand input = Normal (Some cmd) → reads_as input cmd.
Proof.
  unfold parseCommand.
  destruct (parseTaskCommand input) as [m|] eqn:E1.
  { apply parseTaskCommand_reads in E1
      as (v & w & g & body & rest & Hv & Hw & Hb & -> & -> & [[-> ->]|(-> & Hg & ->)]);
      simpl; intros [= <-]; by constructor. }
  destruct (parseEditCommand input) as [m|] eqn:E2.
  { apply parseEditCommand_reads in E2
      as (v & w & ds & body & rest & Hv & Hw & Hd & Hb & -> & -> & -> & ->).
    simpl. intros [= <-]. by constructor. }
  destruct (parseMoveCommand input) as [m|] eqn:E3.
  { apply parseMoveCommand_reads in E3
      as (v & w & ds & w' & g & rest & Hv & Hw & Hd & Hw' & Hg & -> & -> & -> & ->).
    intros [= <-]. by constructor. }
  destruct (or_else _ _) as [m|] eqn:E4.
  { apply one_id_reads in E4 as (v & w & ds & rest & Hv & Hw & Hd & -> & -> & ->).
    intros [= <-]. by constructor. }
  destruct (parseOtherCommand input) as [m|] eqn:E5; [|done].
  apply parseOtherCommand_reads in E5 as (v & rest & Hv & -> & ->).
  intros [= <-]. by constructor.
Qed.

(** ** trim *)

Lemma trimStart_split s :
  ∃ ws, s = ws ++ trimStart s ∧ Forall (λ x, cls_s x = true) ws.
Proof.
  induction s as [|x s (ws & E & Hws)]; [by exists []|]. simpl.
  destruct (cls_s x) eqn:Hx.
  - exists (x :: ws). split; [by rewrite E at 1|by constructor].
  - by exists [].
Qed.

Lemma trimStart_head s : from_option (λ c, negb (cls_s c)) true (head (trimStart s)) = true.
Proof.
  induction s as [|x s IH]; [done|]. simpl. destruct (cls_s x) eqn:Hx; [done|].
  simpl. by rewrite Hx.
Qed.

Lemma head_reverse {A} (l : list A) : head (reverse l) = last l.
Proof.
  destruct l as [|x l _] using rev_ind; [done|]. by rewrite reverse_snoc, last_snoc.
Qed.

Lemma last_reverse {A} (l : list A) : last (reverse l) = head l.
Proof. by rewrite <- head_reverse, reverse_involutive. Qed.

(** [trim s] is [s] without a white-space prefix and a white-space suffix *)
Lemma trim_split s :
  ∃ l r, s = l ++ trim s ++ r ∧
         Forall (λ x, cls_s x = true) l ∧ Forall (λ x, cls_s x = true) r.
Proof.
  unfold trim. destruct (trimStart_split s) as (l & E & Hl).
  destruct (trimStart_split (reverse (trimStart s))) as (r & E' & Hr).
  exists l, (reverse r). split; [|split; [done|by apply Forall_reverse]].
  rewrite <- reverse_app, <- E', reverse_involutive. done.
Qed.

Lemma trim_trimmed s : trimmed (trim s) = true.
Proof.
  unfold trimmed. apply andb_true_iff. split.
  - destruct (trim_split s) as (l & r & E & _ & _). unfold trim in *.
    destruct (trimStart_split (reverse (trimStart s))) as (ws & E' & Hws).
    set (b := trimStart (reverse (trimStart s))) in *.
    assert (trimStart s = reverse b ++ reverse ws) as Ea.
    { rewrite <- reverse_app, <- E', reverse_involutive. done. }
    pose proof (trimStart_head s) as Hh. rewrite Ea in Hh.
    destruct (reverse b) as [|x rb]; [done|]. done.
  - unfold trim. rewrite last_reverse. apply trimStart_head.
Qed.

Lemma trim_no_line_terminator body :
  Forall (λ x, cls_dot x = true) body → Forall (λ x, cls_dot x = true) (trim body).
Proof.
  intros H. destruct (trim_split body) as (l & r & E & _ & _). rewrite E in H.
  by apply Forall_app in H as [_ [H _]%Forall_app].
Qed.

(** ** What the parser returns *)

(** X2.  The text of a parsed command has no white space at either end and
    holds no line terminator. *)
Theorem parsed_text_is_trimmed input cmd x :
  parseCommand input = Normal (Some cmd) → cmd_text cmd = Some x →
  trimmed x = true ∧ Forall (λ c, is_line_terminator c = false) x.
Proof.
  intros H%parseCommand_reads Hx.
  assert (∃ body, x = trim body ∧ Forall (λ c, cls_dot c = true) body) as (body & -> & Hb).
  { destruct H; simpl in Hx; try done; injection Hx as <-; eauto. }
  split; [apply trim_trimmed|].
  eapply Forall_impl; [by apply trim_no_line_terminator|].
  intros c Hc. by apply negb_true_iff in Hc.
Qed.

Lemma parseCommand_normal input : ∃ r, parseCommand input = Normal r.
Proof.
  unfold parseCommand.
  destruct (parseTaskCommand input) as [m|] eqn:E1.
  { apply parseTaskCommand_sound in E1 as (v & x & _ & _ & _ & ->). simpl. eauto. }
  destruct (parseEditCommand input) as [m|] eqn:E2.
  { apply parseEditCommand_sound in E2 as (v & d & ds & x & _ & _ & _ & _ & ->). simpl. eauto. }
  destruct (parseMoveCommand input); [eauto|].
  destruct (or_else _ _); [eauto|].
  destruct (parseOtherCommand input); eauto.
Qed.


Lemma reads_as_initial input cmd :
  reads_as input cmd → ∃ x s, input = x :: s ∧ canonicalize x ∈ verb_initials.
Proof.
  intros H.
  assert (∃ v rest (labels : list string), input = v ++ rest ∧ toLowerCase v ∈ js <$> labels ∧
    labels ⊆ ["t"; "task"; "e"; "edit"; "mv"; "move"; "c"; "check"; "b"; "begin"; "d"; "delete";
                "fl"; "flag"; "st"; "stop"; "close-help"; "help"; "today"])
    as (v & rest & labels & -> & Hv & Hl).
  { destruct H; eexists _, _, _; (split; [reflexivity|]); (split; [eassumption|]);
      intros l Hl; apply list_elem_of_In in Hl; simpl in Hl;
      apply list_elem_of_In; simpl; intuition. }
  apply list_elem_of_fmap in Hv as (l & Hv & Hin). apply Hl in Hin.
  destruct v as [|x v].
  { apply list_elem_of_In in Hin. simpl in Hin.
    repeat (destruct Hin as [<-|Hin]; [discriminate Hv|]). done. }
  exists x, (v ++ rest). split; [done|].
  apply list_elem_of_In in Hin. simpl in Hin.
  repeat (destruct Hin as [<-|Hin];
    [rewrite (first_letter_lower _ _ _ _ Hv); apply (bool_decide_unpack _); vm_compute; exact I|]).
  done.
Qed.

(** X3.  A line that does not begin with the first letter of a verb (t, e, m,
    c, b, d, f, s or h, in either case) is not a command: parseCommand
    returns null, and the empty line is such a line. *)
Theorem unknown_first_letter_is_null input :
  (∀ x s, input = x :: s → canonicalize x ∉ verb_initials) →
  parseCommand input = Normal None.
Proof.
  intros Hno. destruct (parseCommand_normal input) as [[cmd|] Hr]; [|done].
  apply parseCommand_reads, reads_as_initial in Hr as (x & s & -> & Hx).
  by destruct (Hno x s eq_refl).
Qed.

(** ** Inputs the parser accepts *)

Lemma dot_run_split s :
  ∃ rest, s = dot_run s ++ rest ∧ Forall (λ x, cls_dot x = true) (dot_run s) ∧
          stops cls_dot rest.
Proof.
  induction s as [|x s (rest & E & Hds & Hrest)]; [by exists []|].
  cbn [dot_run]. destruct (cls_dot x) eqn:Hx.
  - exists rest. split; [by rewrite E at 1|]. split; [by constructor|done].
  - by exists (x :: s).
Qed.

Lemma matcher_assoc r1 r2 r3 k i s c :
  matcher (r1 +++ r2 +++ r3) k i s c = matcher ((r1 +++ r2) +++ r3) k i s c.
Proof. done. Qed.

Lemma matcher_body n k i body rest c res :
  Forall (λ x, cls_dot x = true) body → stops cls_dot rest →
  k (i + length body) rest (<[n := Some body]> c) = Some res →
  matcher (Grp n (Star cls_dot)) k i (body ++ rest) c = Some res.
Proof.
  intros Hb Hrest Hk. rewrite matcher_Grp. cbn [matcher].
  apply star_greedy; [done..|].
  replace (i + length body - i) with (length body) by lia. by rewrite take_app_length.
Qed.

Lemma matcher_Opt_skip r k i s c :
  matcher r k i s c = None → matcher (Opt r) k i s c = k i s c.
Proof. intros H. cbn [matcher]. by rewrite H. Qed.

Lemma tag_group_no_at n k i s c :
  match s with x :: _ => x ≠ 64%N | [] => True end →
  matcher (tag_group n) k i s c = None.
Proof.
  intros Hs. unfold tag_group. rewrite matcher_Grp, matcher_Cat. cbn [matcher].
  destruct s as [|x s]; [done|].
  destruct (N.eqb_spec (canonicalize x) (canonicalize 64)) as [E%canonicalize_at|]; done.
Qed.

Lemma matcher_Cls p k i x s c :
  p x = true → matcher (Cls p) k i (x :: s) c = k (S i) s c.
Proof. intros H. cbn [matcher]. by rewrite H. Qed.

Lemma take_whole {A} (u rest : list A) n : n = length u → take n (u ++ rest) = u.
Proof. intros ->. apply take_app_length. Qed.

(** a task without a tag *)
Lemma parseTaskCommand_untagged v w rest :
  toLowerCase v ∈ js <$> ["t"; "task"] → cls_s w = true →
  match rest with x :: _ => x ≠ 64%N | [] => True end →
  parseTaskCommand (v ++ w :: rest) =
    Some [Some (v ++ w :: dot_run rest); Some v; None; Some (dot_run rest)].
Proof.
  intros Hv Hw Hrest. destruct (dot_run_split rest) as (rest' & E & Hb & Hrest').
  set (body := dot_run rest) in *. clearbody body. subst rest.
  unfold parseTaskCommand, re_task. rewrite str_match_anchored.
  change (replicate _ _) with [@None jsstring; None; None; None].
  rewrite matcher_Grp, matcher_Cat, matcher_Bol. cbv beta.
  rewrite matcher_Cat, matcher_Grp.
  assert (toLowerCase v = js "t" ∨ toLowerCase v = js "t" ++ js "ask") as Hv'.
  { apply list_elem_of_In in Hv. simpl in Hv. destruct Hv as [<-|[<-|[]]]; [by left|by right]. }
  eapply matcher_verb; [reflexivity|exact Hv'|by apply space_not_letter|].
  rewrite matcher_Cat, matcher_Cls by done. cbv beta.
  rewrite matcher_Cat, matcher_Opt_skip.
  2: { apply tag_group_no_at. destruct body as [|x body]; [|done].
       destruct rest' as [|x rest']; done. }
  apply matcher_body; [done..|]. simpl. rewrite !Nat.sub_0_r, take_app_length.
  replace (v ++ w :: body ++ rest') with ((v ++ w :: body) ++ rest')
    by (by rewrite <- (assoc_L (++))).
  rewrite (take_whole (v ++ w :: body)); [done|]. rewrite length_app. simpl. lia.
Qed.

(** an edit *)
Lemma parseEditCommand_complete v w d ds rest :
  toLowerCase v ∈ js <$> ["e"; "edit"] → cls_s w = true →
  cls_d d = true → Forall (λ x, cls_d x = true) ds → stops cls_d rest →
  parseEditCommand (v ++ w :: d :: ds ++ rest) =
    Some [Some (v ++ w :: d :: ds ++ dot_run rest); Some v; Some (d :: ds);
          Some (dot_run rest)].
Proof.
  intros Hv Hw Hd Hds Hrest. destruct (dot_run_split rest) as (rest' & E & Hb & Hrest').
  assert (stops cls_d (dot_run rest ++ rest')) as Hstop by (by rewrite <- E).
  set (body := dot_run rest) in *. clearbody body. subst rest.
  unfold parseEditCommand, re_edit. rewrite str_match_anchored.
  change (replicate _ _) with [@None jsstring; None; None; None].
  rewrite matcher_Grp, matcher_Cat, matcher_Bol. cbv beta.
  rewrite matcher_Cat, matcher_Grp.
  assert (toLowerCase v = js "e" ∨ toLowerCase v = js "e" ++ js "dit") as Hv'.
  { apply list_elem_of_In in Hv. simpl in Hv. destruct Hv as [<-|[<-|[]]]; [by left|by right]. }
  eapply matcher_verb; [reflexivity|exact Hv'|by apply space_not_letter|].
  rewrite matcher_assoc, matcher_Cat.
  apply matcher_space_digits; [done..|].
  apply matcher_body; [done..|]. simpl. rewrite !Nat.sub_0_r, take_app_length.
  replace (v ++ w :: d :: ds ++ body ++ rest') with ((v ++ w :: d :: ds ++ body) ++ rest')
    by (rewrite <- (assoc_L (++)); simpl; by rewrite <- (assoc_L (++))).
  rewrite (take_whole (v ++ w :: d :: ds ++ body)); [done|].
  rewrite !length_app. simpl. rewrite length_app. lia.
Qed.

Lemma parseTaskCommand_mismatch v s z u :
  toLowerCase v = z :: u → canonicalize z ≠ canonicalize 116 →
  parseTaskCommand (v ++ s) = None.
Proof. intros Hv Hz. eapply verb_mismatch; [reflexivity|exact Hv|exact Hz]. Qed.

Lemma parseEditCommand_mismatch v s z u :
  toLowerCase v = z :: u → canonicalize z ≠ canonicalize 101 →
  parseEditCommand (v ++ s) = None.
Proof. intros Hv Hz. eapply verb_mismatch; [reflexivity|exact Hv|exact Hz]. Qed.

Lemma toLowerCase_app u s : toLowerCase (u ++ s) = toLowerCase u ++ toLowerCase s.
Proof. apply fmap_app. Qed.

Lemma lower_space w : cls_s w = true → (if in_range 65 90 w then (w + 32)%N else w) = w.
Proof.
  intros Hw%cls_s_control. assert (in_range 65 90 w = false) as ->; [|done].
  apply in_range_false. lia.
Qed.

(** X4.  A task without a tag: on [t] or [task] (in any case), one white-space
    character and a rest that does not begin with [@], parseCommand returns
    a task command with the verb as typed, no tag, and as text the rest up
    to the first line terminator, trimmed. *)
Theorem untagged_task_is_parsed v w rest :
  toLowerCase v ∈ js <$> ["t"; "task"] → cls_s w = true →
  head rest ≠ Some 64%N →
  parseCommand (v ++ w :: rest) =
    Normal (Some {| command := Some v; cmd_tag := None;
                    cmd_text := Some (trim (dot_run rest)); cmd_id := None |}).
Proof.
  intros Hv Hw Hrest. unfold parseCommand.
  rewrite (parseTaskCommand_untagged v w rest); [done..|].
  destruct rest as [|x rest]; [done|]. simpl in Hrest. congruence.
Qed.

Lemma untagged_task_is_parsed_witness :
  parseCommand (js "T  buy milk ") =
    Normal (Some {| command := Some (js "T"); cmd_tag := None;
                    cmd_text := Some (js "buy milk"); cmd_id := None |}).
Proof.
  apply (untagged_task_is_parsed (js "T") 32%N (js " buy milk ")).
  - apply (bool_decide_unpack _). vm_compute. exact I.
  - reflexivity.
  - discriminate.
Defined.

Lemma parseCommand_edit v w d ds rest :
  toLowerCase v ∈ js <$> ["e"; "edit"] → cls_s w = true →
  cls_d d = true → Forall (λ x, cls_d x = true) ds → stops cls_d rest →
  parseCommand (v ++ w :: d :: ds ++ rest) =
    Normal (Some {| command := Some v; cmd_tag := None;
                    cmd_text := Some (trim (dot_run rest));
                    cmd_id := parseInt (Some (d :: ds)) |}).
Proof.
  intros Hv Hw Hd Hds Hrest. unfold parseCommand.
  assert (∃ u, toLowerCase v = 101%N :: u) as (u & Hu).
  { apply list_elem_of_In in Hv. simpl in Hv. destruct Hv as [<-|[<-|[]]]; eauto. }
  rewrite (parseTaskCommand_mismatch v _ _ _ Hu) by (vm_compute; discriminate).
  by rewrite (parseEditCommand_complete v w d ds rest) by done.
Qed.

(** X5.  An edit: on [e] or [edit] (in any case), one white-space character, a
    run of digits and a rest that does not go on with a digit, parseCommand
    returns an edit command with the verb as typed, as id what parseInt
    reads from the digits (their decimal value when that is at most 2^53),
    and as text the rest up to the first line terminator, trimmed. *)
Theorem edit_is_parsed v w d ds rest :
  toLowerCase v ∈ js <$> ["e"; "edit"] → cls_s w = true →
  cls_d d = true → Forall (λ x, cls_d x = true) ds → stops cls_d rest →
  ∃ i, parsed_id (d :: ds) i ∧
    parseCommand (v ++ w :: d :: ds ++ rest) =
      Normal (Some {| command := Some v; cmd_tag := None;
                      cmd_text := Some (trim (dot_run rest)); cmd_id := i |}).
Proof.
  intros Hv Hw Hd Hds Hrest. exists (parseInt (Some (d :: ds))).
  split; [by apply parsed_id_parseInt|by apply parseCommand_edit].
Qed.

Lemma edit_is_parsed_witness :
  parseCommand (js "edit 12 new title") =
    Normal (Some {| command := Some (js "edit"); cmd_tag := None;
                    cmd_text := Some (js "new title"); cmd_id := Some 12%Z |}).
Proof.
  destruct (edit_is_parsed (js "edit") 32%N 49%N (js "2") (js " new title"))
    as (i & [_ Hi] & Hp).
  - apply (bool_decide_unpack _). vm_compute. exact I.
  - reflexivity.
  - reflexivity.
  - vm_compute. repeat constructor.
  - reflexivity.
  - rewrite Hi in Hp; [exact Hp|]. vm_compute. discriminate.
Defined.

Lemma matcher_Alt r1 r2 k i s c :
  matcher (Alt r1 r2) k i s c =
  match matcher r1 k i s c with Some res => Some res | None => matcher r2 k i s c end.
Proof. done. Qed.

Lemma matcher_word_mismatch a y a' k i x s c :
  a = y :: a' → canonicalize x ≠ canonicalize y → matcher (lit a) k i (x :: s) c = None.
Proof. intros -> H. by apply matcher_lit_mismatch. Qed.

(** a keyword *)
Lemma parseOtherCommand_complete v rest :
  toLowerCase v ∈ js <$> ["close-help"; "help"; "today"] →
  parseOtherCommand (v ++ rest) = Some [Some v; Some v].
Proof.
  intros Hv. unfold parseOtherCommand, re_other. rewrite str_match_anchored.
  change (replicate _ _) with [@None jsstring; None].
  rewrite matcher_Grp, matcher_Cat, matcher_Bol. cbv beta. rewrite matcher_Grp.
  assert (take (length v) (v ++ rest) = v) as Et by apply take_app_length.
  apply list_elem_of_In in Hv. simpl in Hv.
  destruct Hv as [Hv|[Hv|[Hv|[]]]]; symmetry in Hv; pose proof (spells_lower _ _ Hv) as Hs;
    destruct v as [|x v]; try done; pose proof (first_letter_lower _ _ _ _ Hv) as Hx;
    rewrite matcher_Alt.
  - rewrite (matcher_lit_app _ (x :: v)) by done.
    simpl. rewrite ?Nat.sub_0_r. simpl in Et. by rewrite Et.
  - rewrite <- app_comm_cons.
    rewrite (matcher_word_mismatch (js "close-help") 99 (js "lose-help")); [|done|].
    2: { rewrite Hx. vm_compute. discriminate. }
    rewrite matcher_Alt, app_comm_cons.
    rewrite (matcher_lit_app _ (x :: v)) by done.
    simpl. rewrite ?Nat.sub_0_r. simpl in Et. by rewrite Et.
  - rewrite <- app_comm_cons.
    rewrite (matcher_word_mismatch (js "close-help") 99 (js "lose-help")); [|done|].
    2: { rewrite Hx. vm_compute. discriminate. }
    rewrite matcher_Alt.
    rewrite (matcher_word_mismatch (js "help") 104 (js "elp")); [|done|].
    2: { rewrite Hx. vm_compute. discriminate. }
    rewrite app_comm_cons.
    rewrite (matcher_lit_app _ (x :: v)) by done.
    simpl. rewrite ?Nat.sub_0_r. simpl in Et. by rewrite Et.
Qed.

(** [today] is not a task: the task pattern wants white space after [t] or [task] *)
Lemma parseTaskCommand_today v rest :
  toLowerCase v = js "today" → parseTaskCommand (v ++ rest) = None.
Proof.
  intros Hv. destruct (parseTaskCommand _) as [m|] eqn:E; [|done]. exfalso.
  apply parseTaskCommand_reads in E
    as (v' & w & g & body & rest' & Hv' & Hw & _ & _ & _ & E).
  assert (∃ s, v ++ rest = v' ++ w :: s) as (s & Es) by (destruct E as [[_ ->]|(_ & _ & ->)]; eauto).
  apply (f_equal toLowerCase) in Es. rewrite !toLowerCase_app, toLowerCase_cons, Hv in Es.
  rewrite (lower_space w Hw) in Es.
  apply list_elem_of_In in Hv'. cbn [In fmap list_fmap] in Hv'.
  destruct Hv' as [Hv'|[Hv'|[]]]; rewrite <- Hv' in Es; simplify_eq/=.
Qed.

(** [close-help] is not a check *)
Lemma parseCheckCommand_close_help v rest :
  toLowerCase v = js "close-help" → parseCheckCommand (v ++ rest) = None.
Proof.
  intros Hv. destruct (parseCheckCommand _) as [m|] eqn:E; [|done]. exfalso.
  apply single_id_reads in E as (v' & w & ds & rest' & Hv' & Hw & _ & _ & _ & Es);
    [|lowercase_word].
  apply (f_equal toLowerCase) in Es. rewrite !toLowerCase_app, toLowerCase_cons, Hv in Es.
  rewrite (lower_space w Hw) in Es.
  apply list_elem_of_In in Hv'. cbn [In] in Hv'.
  destruct Hv' as [Hv'|[Hv'|[]]]; rewrite <- Hv' in Es; simplify_eq/=.
Qed.

Lemma parseCommand_keyword v rest :
  toLowerCase v ∈ js <$> ["close-help"; "help"; "today"] →
  parseCommand (v ++ rest) =
    Normal (Some {| command := Some v; cmd_tag := None; cmd_text := None; cmd_id := None |}).
Proof.
  intros Hv. pose proof (parseOtherCommand_complete v rest Hv) as HO.
  apply list_elem_of_In in Hv. simpl in Hv.
  assert (parseTaskCommand (v ++ rest) = None ∧
          parseEditCommand (v ++ rest) = None ∧
          parseMoveCommand (v ++ rest) = None ∧
          parseCheckCommand (v ++ rest) = None ∧
          parseBeginCommand (v ++ rest) = None ∧
          parseDeleteCommand (v ++ rest) = None ∧
          parseFlagCommand (v ++ rest) = None ∧
          parseStopCommand (v ++ rest) = None) as (HT & HE & HM & HC & HB & HD & HF & HS).
  { destruct Hv as [Hv|[Hv|[Hv|[]]]]; symmetry in Hv.
    - repeat split; first [by apply parseCheckCommand_close_help | other_verb Hv].
    - repeat split; other_verb Hv.
    - repeat split; first [by apply parseTaskCommand_today | other_verb Hv]. }
  unfold parseCommand. rewrite HT, HE, HM, HC, HB, HD, HF, HS. cbn [or_else].
  by rewrite HO.
Qed.

(** X6.  The three keywords are recognised as prefixes: a line that begins
    with [close-help], [help] or [today], in any case, is parsed as that
    keyword whatever follows it, with the keyword as typed and no other
    field. *)
Theorem keyword_is_parsed_as_a_prefix v rest :
  toLowerCase v ∈ js <$> ["close-help"; "help"; "today"] →
  parseCommand (v ++ rest) =
    Normal (Some {| command := Some v; cmd_tag := None; cmd_text := None; cmd_id := None |}).
Proof. apply parseCommand_keyword. Qed.

Lemma keyword_is_parsed_as_a_prefix_witness :
  parseCommand (js "Helpless 3") =
    Normal (Some {| command := Some (js "Help"); cmd_tag := None; cmd_text := None;
                    cmd_id := None |}).
Proof.
  apply (keyword_is_parsed_as_a_prefix (js "Help") (js "less 3")).
  apply (bool_decide_unpack _). vm_compute. exact I.
Defined.

(** ** The tag token *)

(** every way of giving up characters of the run fails *)
Lemma star_all_fail p (K : cont) v : ∀ i s c,
  Forall (λ x, p x = true) v → stops p s →
  (∀ v1 v2, v = v1 ++ v2 → K (i + length v1) (v2 ++ s) c = None) →
  star p K i (v ++ s) c = None.
Proof.
  induction v as [|y v IH]; intros i s c Hv Hs HK.
  - specialize (HK [] [] eq_refl). simpl in HK. rewrite Nat.add_0_r in HK.
    destruct s as [|x s]; [done|]. simpl in *. by rewrite Hs.
  - inversion Hv as [|?? Hy Hv']; subst. cbn [app star]. rewrite Hy.
    rewrite IH; [|done..|].
    + specialize (HK [] (y :: v) eq_refl). simpl in HK. by rewrite Nat.add_0_r in HK.
    + intros v1 v2 -> . specialize (HK (y :: v1) v2 eq_refl). simpl in HK.
      by rewrite Nat.add_succ_comm.
Qed.

(** the run is given back down to the longest prefix on which the rest of
    the pattern matches *)
Lemma star_backtrack p (K : cont) u : ∀ i v s c res,
  Forall (λ x, p x = true) u → Forall (λ x, p x = true) v → stops p s →
  (∀ v1 v2, v = v1 ++ v2 → v1 ≠ [] → K (i + length u + length v1) (v2 ++ s) c = None) →
  K (i + length u) (v ++ s) c = Some res →
  star p K i (u ++ v ++ s) c = Some res.
Proof.
  induction u as [|y u IH]; intros i v s c res Hu Hv Hs Hfail HK.
  - simpl in *. rewrite Nat.add_0_r in *. destruct v as [|y v].
    + simpl in *. destruct s as [|x s]; [done|]. simpl in *. by rewrite Hs.
    + inversion Hv as [|?? Hy Hv']; subst. cbn [app star]. rewrite Hy.
      rewrite star_all_fail; [done..|].
      intros v1 v2 ->. specialize (Hfail (y :: v1) v2 eq_refl). simpl in Hfail.
      rewrite Nat.add_succ_comm. by apply Hfail.
  - inversion Hu as [|?? Hy Hu']; subst. cbn [app star]. rewrite Hy.
    rewrite (IH (S i) v s c res); [done..| |].
    + intros v1 v2 E Hne. specialize (Hfail v1 v2 E Hne). simpl in Hfail.
      by rewrite <- Nat.add_succ_comm in Hfail.
    + simpl in HK. by rewrite <- Nat.add_succ_comm in HK.
Qed.

Lemma tag_tail_fails k i s c :
  stops cls_tag s →
  matcher (Opt (Cls cls_quote_hyphen)) (λ i' s' c', matcher (Plus cls_tag) k i' s' c') i s c
    = None.
Proof.
  intros Hs. cbn [matcher]. destruct s as [|x s]; [done|]. simpl in Hs. rewrite Hs.
  assert (cls_quote_hyphen x = false) as ->; [|done].
  destruct (cls_quote_hyphen x) eqn:E; [|done].
  unfold cls_quote_hyphen, cls_tag in *. apply orb_true_iff in E as [E|E]; rewrite E in Hs;
    by rewrite ?orb_true_r in Hs.
Qed.

Lemma tag_tail_matches k i x s c :
  cls_tag x = true → stops cls_tag s →
  matcher (Opt (Cls cls_quote_hyphen)) (λ i' s' c', matcher (Plus cls_tag) k i' s' c')
    i (x :: s) c = k (S i) s c.
Proof.
  intros Hx Hs.
  assert (matcher (Plus cls_tag) k i (x :: s) c = k (S i) s c) as Hplus.
  { cbn [matcher]. rewrite Hx. destruct s as [|y s]; [done|]. simpl in *. by rewrite Hs. }
  cbn [matcher] in *. destruct (cls_quote_hyphen x); [|done].
  destruct s as [|y s]; [done|]. simpl in Hs. by rewrite Hs.
Qed.

Lemma no_tag_char_stops junk rest :
  Forall (λ y, cls_S y = true ∧ cls_tag y = false) junk → stops cls_S rest →
  stops cls_tag (junk ++ rest).
Proof.
  intros Hj Hr. destruct junk as [|y junk].
  - destruct rest as [|z rest]; [done|]. simpl in *.
    destruct (cls_tag z) eqn:E; [|done]. apply cls_tag_not_space in E. congruence.
  - inversion Hj as [|?? [_ Hy] _]; subst. done.
Qed.

Lemma matcher_Chr a k i x s c :
  canonicalize x = canonicalize a → matcher (Chr a) k i (x :: s) c = k (S i) s c.
Proof. intros H. cbn [matcher]. by rewrite H, N.eqb_refl. Qed.

Lemma matcher_Star p k i s c : matcher (Star p) k i s c = star p k i s c.
Proof. done. Qed.

Lemma matcher_tag_group n k i pre x junk rest c res :
  Forall (λ y, cls_S y = true) pre → cls_tag x = true →
  Forall (λ y, cls_S y = true ∧ cls_tag y = false) junk → stops cls_S rest →
  k (i + length (64%N :: pre ++ [x])) (junk ++ rest) (<[n := Some (64%N :: pre ++ [x])]> c)
    = Some res →
  matcher (tag_group n) k i (64%N :: pre ++ x :: junk ++ rest) c = Some res.
Proof.
  intros Hpre Hx Hjunk Hrest Hk. unfold tag_group.
  rewrite matcher_Grp, matcher_Cat, matcher_Chr by done. cbv beta.
  rewrite matcher_Cat, matcher_Cat, matcher_Star. cbv beta.
  change (pre ++ x :: junk ++ rest) with (pre ++ (x :: junk) ++ rest).
  apply star_backtrack.
  - done.
  - constructor; [by apply cls_tag_not_space|]. eapply Forall_impl; [done|]. by intros y [? _].
  - done.
  - intros v1 v2 E Hne. apply tag_tail_fails.
    destruct v1 as [|y v1]; [done|]. injection E as <- ->.
    apply Forall_app in Hjunk as [_ Hv2]. by apply no_tag_char_stops.
  - cbn [app]. rewrite tag_tail_matches; [|done|by apply no_tag_char_stops].
    replace (S (S i + length pre) - i) with (length (64%N :: pre ++ [x]))
      by (simpl; rewrite length_app; simpl; lia).
    replace (64%N :: pre ++ x :: junk ++ rest) with ((64%N :: pre ++ [x]) ++ junk ++ rest)
      by (simpl; by rewrite <- (assoc_L (++))).
    rewrite take_app_length.
    rewrite <- Hk. f_equal. simpl. rewrite length_app. simpl. lia.
Qed.

(** ** A move and a task with a tag *)

Lemma matcher_move_verb k i v s c res :
  toLowerCase v ∈ js <$> ["mv"; "move"] →
  k (i + length v) s c = Some res →
  matcher (Alt (lit (js "mv")) (lit (js "move"))) k i (v ++ s) c = Some res.
Proof.
  intros Hv Hk. rewrite matcher_Alt.
  apply list_elem_of_In in Hv. cbn [In fmap list_fmap] in Hv.
  destruct Hv as [Hv|[Hv|[]]]; symmetry in Hv; pose proof (spells_lower _ _ Hv) as Hs.
  - by rewrite (matcher_lit_app _ v), Hk.
  - assert (matcher (lit (js "mv")) k i (v ++ s) c = None) as ->.
    { inversion Hs as [|x1 ? v1 ? H1 Hs1]; subst.
      inversion Hs1 as [|x2 ? v2 ? H2 Hs2]; subst.
      change (lit (js "mv")) with (Chr 109 +++ (Chr 118 +++ Eps)).
      cbn [app]. rewrite matcher_Cat, matcher_Chr by done. cbv beta.
      rewrite matcher_Cat. cbn [matcher]. by rewrite H2. }
    by rewrite (matcher_lit_app _ v).
Qed.

Lemma parseMoveCommand_complete v w d ds w' pre x junk rest :
  toLowerCase v ∈ js <$> ["mv"; "move"] → cls_s w = true →
  cls_d d = true → Forall (λ y, cls_d y = true) ds → cls_s w' = true →
  Forall (λ y, cls_S y = true) pre → cls_tag x = true →
  Forall (λ y, cls_S y = true ∧ cls_tag y = false) junk → stops cls_S rest →
  parseMoveCommand (v ++ w :: d :: ds ++ w' :: 64%N :: pre ++ x :: junk ++ rest) =
    Some [Some (v ++ w :: d :: ds ++ w' :: 64%N :: pre ++ [x]); Some v; Some (d :: ds);
          Some (64%N :: pre ++ [x])].
Proof.
  intros Hv Hw Hd Hds Hw' Hpre Hx Hjunk Hrest.
  unfold parseMoveCommand, re_move. rewrite str_match_anchored.
  change (replicate _ _) with [@None jsstring; None; None; None].
  rewrite matcher_Grp, matcher_Cat, matcher_Bol. cbv beta.
  rewrite matcher_Cat, matcher_Grp.
  apply matcher_move_verb; [done|].
  rewrite matcher_assoc, matcher_Cat.
  apply matcher_space_digits; [done..|by apply space_not_digit|].
  rewrite matcher_Cat, matcher_Cls by done. cbv beta.
  apply matcher_tag_group; [done..|].
  set (whole := v ++ w :: d :: ds ++ w' :: 64%N :: pre ++ [x]).
  replace (v ++ w :: d :: ds ++ w' :: 64%N :: pre ++ x :: junk ++ rest)
    with (whole ++ junk ++ rest).
  2: { unfold whole. by repeat (rewrite <- ?(assoc_L (++)); cbn [app]). }
  simpl. rewrite Nat.sub_0_r. f_equal. f_equal; [f_equal|f_equal; f_equal].
  - apply take_whole. unfold whole. rewrite !length_app. simpl.
    rewrite !length_app. simpl. rewrite length_app. simpl. lia.
  - unfold whole. rewrite <- (assoc_L (++)). apply take_app_length.
Qed.

Lemma matcher_Opt_take r k i s c res :
  matcher r k i s c = Some res → matcher (Opt r) k i s c = Some res.
Proof. intros H. cbn [matcher]. by rewrite H. Qed.

Lemma parseTaskCommand_tagged v w pre x junk rest :
  toLowerCase v ∈ js <$> ["t"; "task"] → cls_s w = true →
  Forall (λ y, cls_S y = true) pre → cls_tag x = true →
  Forall (λ y, cls_S y = true ∧ cls_tag y = false) junk → stops cls_S rest →
  parseTaskCommand (v ++ w :: 64%N :: pre ++ x :: junk ++ rest) =
    Some [Some (v ++ w :: 64%N :: pre ++ [x] ++ dot_run (junk ++ rest)); Some v;
          Some (64%N :: pre ++ [x]); Some (dot_run (junk ++ rest))].
Proof.
  intros Hv Hw Hpre Hx Hjunk Hrest.
  destruct (dot_run_split (junk ++ rest)) as (rest' & E & Hb & Hrest').
  set (body := dot_run (junk ++ rest)) in *. clearbody body.
  unfold parseTaskCommand, re_task. rewrite str_match_anchored.
  change (replicate _ _) with [@None jsstring; None; None; None].
  rewrite matcher_Grp, matcher_Cat, matcher_Bol. cbv beta.
  rewrite matcher_Cat, matcher_Grp.
  assert (toLowerCase v = js "t" ∨ toLowerCase v = js "t" ++ js "ask") as Hv'.
  { apply list_elem_of_In in Hv. simpl in Hv. destruct Hv as [<-|[<-|[]]]; [by left|by right]. }
  eapply matcher_verb; [reflexivity|exact Hv'|by apply space_not_letter|].
  rewrite matcher_Cat, matcher_Cls by done. cbv beta.
  rewrite matcher_Cat. apply matcher_Opt_take.
  apply matcher_tag_group; [done..|]. rewrite E.
  apply matcher_body; [done..|].
  set (whole := v ++ w :: 64%N :: pre ++ [x] ++ body).
  replace (v ++ w :: 64%N :: pre ++ x :: body ++ rest') with (whole ++ rest').
  2: { unfold whole. by repeat (rewrite <- ?(assoc_L (++)); cbn [app]). }
  simpl. rewrite Nat.sub_0_r.
  assert (take (length v) (whole ++ rest') = v) as ->.
  { unfold whole. rewrite <- (assoc_L (++)). apply take_app_length. }
  do 3 f_equal.
  apply take_whole. unfold whole. rewrite !length_app. simpl.
  rewrite !length_app. simpl. lia.
Qed.

Lemma parseCommand_move v w d ds w' pre x junk rest :
  toLowerCase v ∈ js <$> ["mv"; "move"] → cls_s w = true →
  cls_d d = true → Forall (λ y, cls_d y = true) ds → cls_s w' = true →
  Forall (λ y, cls_S y = true) pre → cls_tag x = true →
  Forall (λ y, cls_S y = true ∧ cls_tag y = false) junk → stops cls_S rest →
  parseCommand (v ++ w :: d :: ds ++ w' :: 64%N :: pre ++ x :: junk ++ rest) =
    Normal (Some {| command := Some v; cmd_tag := Some (64%N :: pre ++ [x]);
                    cmd_text := None; cmd_id := parseInt (Some (d :: ds)) |}).
Proof.
  intros Hv Hw Hd Hds Hw' Hpre Hx Hjunk Hrest. unfold parseCommand.
  assert (∃ u, toLowerCase v = 109%N :: u) as (u & Hu).
  { apply list_elem_of_In in Hv. simpl in Hv. destruct Hv as [<-|[<-|[]]]; eauto. }
  rewrite (parseTaskCommand_mismatch v _ _ _ Hu) by (vm_compute; discriminate).
  rewrite (parseEditCommand_mismatch v _ _ _ Hu) by (vm_compute; discriminate).
  by rewrite (parseMoveCommand_complete v w d ds w' pre x junk rest) by done.
Qed.

(** X22.  A move: on [mv] or [move] (in any case), one white-space
    character, a run of digits, one white-space character and a word that
    begins with [@] and holds a character of [[0-9a-zA-Z'-]], parseCommand
    returns a move command with the verb as typed, as id what parseInt
    reads from the digits (their decimal value when that is at most 2^53),
    and as tag the word up to its last character of [[0-9a-zA-Z'-]]; what
    follows that character is ignored. *)
Theorem move_is_parsed v w d ds w' pre x junk rest :
  toLowerCase v ∈ js <$> ["mv"; "move"] → cls_s w = true →
  cls_d d = true → Forall (λ y, cls_d y = true) ds → cls_s w' = true →
  Forall (λ y, cls_S y = true) pre → cls_tag x = true →
  Forall (λ y, cls_S y = true ∧ cls_tag y = false) junk → stops cls_S rest →
  ∃ i, parsed_id (d :: ds) i ∧
    parseCommand (v ++ w :: d :: ds ++ w' :: 64%N :: pre ++ x :: junk ++ rest) =
      Normal (Some {| command := Some v; cmd_tag := Some (64%N :: pre ++ [x]);
                      cmd_text := None; cmd_id := i |}).
Proof.
  intros Hv Hw Hd Hds Hw' Hpre Hx Hjunk Hrest. exists (parseInt (Some (d :: ds))).
  split; [by apply parsed_id_parseInt|by apply parseCommand_move].
Qed.

Lemma move_is_parsed_witness :
  parseCommand (js "Move 12 @side-project!? now") =
    Normal (Some {| command := Some (js "Move"); cmd_tag := Some (js "@side-project");
                    cmd_text := None; cmd_id := Some 12%Z |}).
Proof.
  destruct (move_is_parsed (js "Move") 32%N 49%N (js "2") 32%N (js "side-projec") 116%N
              (js "!?") (js " now")) as (i & [_ Hi] & Hp);
    [..|rewrite Hi in Hp; [exact Hp|vm_compute; discriminate]]; try reflexivity.
  - apply (bool_decide_unpack _). vm_compute. exact I.
  - apply (bool_decide_unpack _). vm_compute. exact I.
  - apply (bool_decide_unpack _). vm_compute. exact I.
  - apply (bool_decide_unpack _). vm_compute. exact I.
Defined.

(** X23.  A task with a tag: on [t] or [task] (in any case), one
    white-space character and a word that begins with [@] and holds a
    character of [[0-9a-zA-Z'-]], parseCommand returns a task command with
    the verb as typed, as tag the word up to its last character of
    [[0-9a-zA-Z'-]], and as text what follows that character up to the
    first line terminator, trimmed. *)
Theorem tagged_task_is_parsed v w pre x junk rest :
  toLowerCase v ∈ js <$> ["t"; "task"] → cls_s w = true →
  Forall (λ y, cls_S y = true) pre → cls_tag x = true →
  Forall (λ y, cls_S y = true ∧ cls_tag y = false) junk → stops cls_S rest →
  parseCommand (v ++ w :: 64%N :: pre ++ x :: junk ++ rest) =
    Normal (Some {| command := Some v; cmd_tag := Some (64%N :: pre ++ [x]);
                    cmd_text := Some (trim (dot_run (junk ++ rest))); cmd_id := None |}).
Proof.
  intros Hv Hw Hpre Hx Hjunk Hrest. unfold parseCommand.
  by rewrite (parseTaskCommand_tagged v w pre x junk rest).
Qed.

Lemma tagged_task_is_parsed_witness :
  parseCommand (js "t @work!! write it ") =
    Normal (Some {| command := Some (js "t"); cmd_tag := Some (js "@work");
                    cmd_text := Some (js "!! write it"); cmd_id := None |}).
Proof.
  apply (tagged_task_is_parsed (js "t") 32%N (js "wor") 107%N (js "!!") (js " write it "));
    try reflexivity.
  - apply (bool_decide_unpack _). vm_compute. exact I.
  - apply (bool_decide_unpack _). vm_compute. exact I.
  - apply (bool_decide_unpack _). vm_compute. exact I.
Defined.

(** ** The line as the patterns divide it *)

(** a run of characters that are not white space, divided at its last
    character of [[0-9a-zA-Z'-]] when it holds one *)
Lemma tag_word_split s :
  (∃ junk rest, s = junk ++ rest ∧
     Forall (λ y, cls_S y = true ∧ cls_tag y = false) junk ∧ stops cls_S rest) ∨
  (∃ pre x junk rest, s = pre ++ x :: junk ++ rest ∧
     Forall (λ y, cls_S y = true) pre ∧ cls_tag x = true ∧
     Forall (λ y, cls_S y = true ∧ cls_tag y = false) junk ∧ stops cls_S rest).
Proof.
  induction s as [|y s IH]; [left; by exists [], []|].
  destruct (cls_S y) eqn:Hy; [|left; by exists [], (y :: s)].
  destruct IH as [(junk & rest & -> & Hj & Hr)|(pre & x & junk & rest & -> & Hp & Hx & Hj & Hr)].
  - destruct (cls_tag y) eqn:Ht.
    + right. by exists [], y, junk, rest.
    + left. exists (y :: junk), rest. split; [done|]. split; [by constructor|done].
  - right. exists (y :: pre), x, junk, rest. split; [done|]. split; [by constructor|done].
Qed.

(** no character of [[0-9a-zA-Z'-]] in the run: no other division of it *)
Lemma no_tag_char_in_run junk : ∀ rest pre x tl,
  Forall (λ y, cls_S y = true ∧ cls_tag y = false) junk → stops cls_S rest →
  Forall (λ y, cls_S y = true) pre → cls_tag x = true →
  junk ++ rest ≠ pre ++ x :: tl.
Proof.
  induction junk as [|z junk IH]; intros rest pre x tl Hj Hr Hp Hx E.
  - simpl in E. subst rest. destruct pre as [|y pre]; simpl in Hr.
    + apply cls_tag_not_space in Hx. congruence.
    + inversion Hp; subst. congruence.
  - inversion Hj as [|?? [Hz Hz'] Hj']; subst. destruct pre as [|y pre]; simplify_eq/=.
    + congruence.
    + inversion Hp; subst. by eapply IH.
Qed.

Lemma tag_group_no_tag_char n k i junk rest c :
  Forall (λ y, cls_S y = true ∧ cls_tag y = false) junk → stops cls_S rest →
  matcher (tag_group n) k i (64%N :: junk ++ rest) c = None.
Proof.
  intros Hjunk Hrest. unfold tag_group.
  rewrite matcher_Grp, matcher_Cat, matcher_Chr by done. cbv beta.
  rewrite matcher_Cat, matcher_Cat, matcher_Star. cbv beta.
  apply star_all_fail.
  - eapply Forall_impl; [done|]. by intros y [? _].
  - done.
  - intros v1 v2 ->. apply tag_tail_fails.
    apply Forall_app in Hjunk as [_ Hv2]. by apply no_tag_char_stops.
Qed.

(** a task whose text does not begin with a tag *)
Lemma parseTaskCommand_no_tag v w rest :
  toLowerCase v ∈ js <$> ["t"; "task"] → cls_s w = true →
  (∀ k i c, matcher (tag_group 2) k i rest c = None) →
  parseTaskCommand (v ++ w :: rest) =
    Some [Some (v ++ w :: dot_run rest); Some v; None; Some (dot_run rest)].
Proof.
  intros Hv Hw Hrest. destruct (dot_run_split rest) as (rest' & E & Hb & Hrest').
  set (body := dot_run rest) in *. clearbody body. subst rest.
  unfold parseTaskCommand, re_task. rewrite str_match_anchored.
  change (replicate _ _) with [@None jsstring; None; None; None].
  rewrite matcher_Grp, matcher_Cat, matcher_Bol. cbv beta.
  rewrite matcher_Cat, matcher_Grp.
  assert (toLowerCase v = js "t" ∨ toLowerCase v = js "t" ++ js "ask") as Hv'.
  { apply list_elem_of_In in Hv. simpl in Hv. destruct Hv as [<-|[<-|[]]]; [by left|by right]. }
  eapply matcher_verb; [reflexivity|exact Hv'|by apply space_not_letter|].
  rewrite matcher_Cat, matcher_Cls by done. cbv beta.
  rewrite matcher_Cat, matcher_Opt_skip by apply Hrest.
  apply matcher_body; [done..|]. simpl. rewrite !Nat.sub_0_r, take_app_length.
  replace (v ++ w :: body ++ rest') with ((v ++ w :: body) ++ rest')
    by (by rewrite <- (assoc_L (++))).
  rewrite (take_whole (v ++ w :: body)); [done|]. rewrite length_app. simpl. lia.
Qed.

(** the line of a task *)
Lemma task_line_parses v w s cmd :
  toLowerCase v ∈ js <$> ["t"; "task"] → cls_s w = true →
  parseCommand (v ++ w :: s) = Normal (Some cmd) → parses_as (v ++ w :: s) cmd.
Proof.
  intros Hv Hw H. unfold parseCommand in H.
  assert (∀ rest,
    (∀ pre x tl, Forall (λ y, cls_S y = true) pre → cls_tag x = true →
                 rest ≠ 64%N :: pre ++ x :: tl) →
    (∀ k i c, matcher (tag_group 2) k i rest c = None) →
    parseCommand (v ++ w :: rest) = Normal (Some cmd) → parses_as (v ++ w :: rest) cmd)
    as Hno.
  { intros rest Hne Hm. unfold parseCommand.
    rewrite (parseTaskCommand_no_tag v w rest) by done. simpl. intros [= <-].
    by constructor. }
  fold (parseCommand (v ++ w :: s)) in H.
  destruct s as [|a s].
  { apply Hno; [by intros ???|by intros; apply tag_group_no_at|done]. }
  destruct (N.eq_dec a 64%N) as [->|Ha].
  2: { apply Hno; [intros ????? [= ? _]; congruence|by intros; apply tag_group_no_at|done]. }
  destruct (tag_word_split s)
    as [(junk & rest & -> & Hj & Hr)|(pre & x & junk & rest & -> & Hp & Hx & Hj & Hr)].
  - apply Hno; [|by intros; apply tag_group_no_tag_char|done].
    intros pre x tl Hp Hx [= E]. by eapply no_tag_char_in_run.
  - unfold parseCommand in H.
    rewrite (parseTaskCommand_tagged v w pre x junk rest) in H by done.
    simpl in H. injection H as <-. by constructor.
Qed.

Lemma digits_cons ds :
  digits ds → ∃ d ds', ds = d :: ds' ∧ cls_d d = true ∧ Forall (λ y, cls_d y = true) ds'.
Proof.
  intros [Hne Hds]. destruct ds as [|d ds]; [done|]. inversion Hds; subst. eauto.
Qed.

Lemma tag_ok_last g :
  tag_ok g = true →
  ∃ pre x, g = 64%N :: pre ++ [x] ∧ Forall (λ y, cls_S y = true) pre ∧ cls_tag x = true.
Proof.
  destruct g as [|a body]; [done|]. cbn [tag_ok].
  rewrite !andb_true_iff. intros [[->%N.eqb_eq Hb] Hl].
  destruct body as [|x body _] using rev_ind; [done|].
  rewrite last_snoc in Hl. simpl in Hl.
  apply forallb_intro, Forall_app in Hb as [Hb _]. by exists body, x.
Qed.

(** X1.  The command that parseCommand returns is the line divided the way
    the patterns divide it: the line begins with the verb as typed (one of
    the verbs, in any case), which, save for the three keywords, is
    followed by one white-space character and the fields of the verb, every
    run taken as far as it goes: the whole run of digits, read by parseInt
    (its decimal value when that is at most 2^53); the word that begins
    with [@], up to its last character of [[0-9a-zA-Z'-]]; as text all that
    follows up to the first line terminator, trimmed.  The command holds
    exactly those fields. *)
Theorem parsed_command_reads_the_input input cmd :
  parseCommand input = Normal (Some cmd) → parses_as input cmd.
Proof.
  intros H.
  assert (∃ cmd0, reads_as input cmd0) as [cmd0 Hr]
    by (eexists; by apply parseCommand_reads).
  destruct Hr as [v w body rest Hv Hw Hb|v w g body rest Hv Hw Hg Hb
                 |v w ds body rest Hv Hw Hd Hb|v w ds w' g rest Hv Hw Hd Hw' Hg
                 |v w ds rest Hv Hw Hd|v rest Hv].
  - by apply task_line_parses.
  - by apply task_line_parses.
  - apply digits_cons in Hd as (d & ds' & -> & Hd & Hds).
    cbn [app] in *. clear Hds.
    destruct (digit_run_split (ds' ++ body ++ rest)) as (rest' & E & Hds & Hrest').
    rewrite E in H |- *.
    rewrite parseCommand_edit in H by done. injection H as <-.
    apply parses_edit; [done..|]. by apply parsed_id_parseInt.
  - apply digits_cons in Hd as (d & ds' & -> & Hd & Hds).
    apply tag_ok_last in Hg as (pre0 & x0 & -> & Hp0 & Hx0).
    cbn [app] in *.
    destruct (tag_word_split ((pre0 ++ [x0]) ++ rest))
      as [(junk & rest' & E & Hj & Hr)|(pre & x & junk & rest' & E & Hp & Hx & Hj & Hr)].
    { rewrite <- (assoc_L (++)) in E. simpl in E. symmetry in E.
      by apply no_tag_char_in_run in E. }
    rewrite E in H |- *.
    rewrite parseCommand_move in H by done. injection H as <-.
    apply parses_move; [done..|]. by apply parsed_id_parseInt.
  - apply digits_cons in Hd as (d & ds' & -> & Hd & Hds).
    cbn [app] in *. clear Hds.
    assert (is_case (toLowerCase v) one_id_verbs = true) as Hv'
      by (by apply bool_decide_eq_true_2).
    rewrite parseCommand_one_id in H by done. injection H as <-.
    cbn [digit_run]. rewrite Hd.
    destruct (digit_run_split (ds' ++ rest)) as (rest' & E & Hds & Hrest').
    rewrite E at 1.
    apply parses_one_id; [done..|]. by apply parsed_id_parseInt.
  - rewrite parseCommand_keyword in H by done. injection H as <-. by constructor.
Qed.

(** ** The shape of a step of the switch *)

Lemma is_case_weaken v labels labels' :
  labels ⊆ labels' → is_case v labels = true → is_case v labels' = true.
Proof.
  unfold is_case. intros Hl H%bool_decide_eq_true_1. apply bool_decide_eq_true_2.
  apply list_elem_of_fmap in H as (l & -> & Hin). apply list_elem_of_fmap. eauto.
Qed.

Lemma array_map_pure {A B} (f : A → B) l w :
  array_map (pure_callback f) l w = (f <$> l, w).
Proof.
  induction l as [|x l IH]; [done|]. rewrite array_map_cons. cbn [pure_callback ret fst snd].
  fold (pure_callback f). by rewrite IH.
Qed.

Lemma dispatch_shape clock s cmd w s' w' :
  dispatch clock s cmd w = (Some s', w') →
  (∃ f, mutator clock cmd f ∧ array_map f (tasks s) w = (tasks s', w') ∧
        s' = set_tasks s (tasks s')) ∨
  (verb_in cmd ["d"; "delete"] = true ∧
   s' = set_tasks s (filter (λ t, same_id t cmd = false) (tasks s)) ∧ w' = w) ∨
  (verb_in cmd ["t"; "task"] = true ∧
   ∃ t, new_task (tasks s) cmd t ∧ s' = set_tasks s (tasks s ++ [t]) ∧ w' = w) ∨
  (verb_in cmd ["help"; "close-help"; "today"] = true ∧ tasks s' = tasks s ∧ w' = w).
Proof.
  unfold dispatch. destruct (command cmd) as [v|] eqn:Ev; [|done].
  cbn [fmap option_fmap option_map]. set (u := toLowerCase v).
  assert (∀ labels, is_case u labels = true → verb_in cmd labels = true) as Hverb.
  { intros labels H. unfold verb_in. by rewrite Ev. }
  destruct (is_case u ["mv"; "move"]) eqn:Hmv.
  { intros [= <- <-]. left. exists (pure_callback (move_task cmd)).
    split; [constructor; by apply Hverb|]. by rewrite array_map_pure. }
  destruct (is_case u ["b"; "begin"]) eqn:Hb.
  { unfold bind, ret. destruct (array_map _ _ w) as [l w1] eqn:E. intros [= <- <-].
    left. exists (begin_task clock cmd). split; [constructor; by apply Hverb|done]. }
  destruct (is_case u ["c"; "check"]) eqn:Hc.
  { unfold bind, ret. destruct (array_map _ _ w) as [l w1] eqn:E. intros [= <- <-].
    left. exists (check_task clock cmd). split; [constructor; by apply Hverb|done]. }
  destruct (is_case u ["d"; "delete"]) eqn:Hd.
  { intros [= <- <-]. right. left. split; [by apply Hverb|done]. }
  destruct (is_case u ["fl"; "flag"]) eqn:Hfl.
  { unfold bind, ret. destruct (array_map _ _ w) as [l w1] eqn:E. intros [= <- <-].
    left. exists (flag_task clock cmd). split; [constructor; by apply Hverb|done]. }
  destruct (is_case u ["st"; "stop"]) eqn:Hst.
  { unfold bind, ret. destruct (array_map _ _ w) as [l w1] eqn:E. intros [= <- <-].
    left. exists (stop_task clock cmd). split; [constructor; by apply Hverb|done]. }
  destruct (is_case u ["t"; "task"]) eqn:Ht.
  { destruct (cmd_text cmd) as [[|c x]|] eqn:Hx; try done. intros [= <- <-].
    right. right. left. split; [by apply Hverb|]. eexists. split; [|done].
    unfold new_task. cbn [id status logs title tag]. rewrite Hx.
    done. }
  destruct (is_case u ["e"; "edit"]) eqn:He.
  { destruct (cmd_text cmd) as [[|c x]|] eqn:Hx; try done. intros [= <- <-].
    left. exists (pure_callback (edit_task cmd (c :: x))).
    split; [econstructor; [by apply Hverb|done..]|]. by rewrite array_map_pure. }
  assert (∀ l, l ∈ ["help"; "close-help"; "today"] → is_case u [l] = true →
               is_case u ["help"; "close-help"; "today"] = true) as Hk.
  { intros l Hl. apply is_case_weaken. by intros ? ->%list_elem_of_singleton. }
  destruct (is_case u ["help"]) eqn:Hh.
  { intros [= <- <-]. do 3 right. split; [|done]. apply Hverb. eapply Hk; [|done]. repeat constructor. }
  destruct (is_case u ["close-help"]) eqn:Hch.
  { intros [= <- <-]. do 3 right. split; [|done]. apply Hverb. eapply Hk; [|done]. repeat constructor. }
  destruct (is_case u ["today"]) eqn:Htd; [|done].
  intros [= <- <-]. do 3 right. split; [|done]. apply Hverb. eapply Hk; [|done]. repeat constructor.
Qed.

(** what every callback does: the id stays, a task with another id is
    returned as it is, and the world is only read for the time *)
Lemma mutator_id clock cmd f t w : mutator clock cmd f → id (f t w).1 = id t.
Proof.
  destruct 1; unfold pure_callback, move_task, edit_task, begin_task, check_task,
    flag_task, stop_task; destruct (same_id t cmd); try done.
  - by destruct (decide (status t ≠ WIP)).
  - cbv zeta. destruct (decide (status (set_status t _) = DONE)); [|done].
    by destruct (stopWorkLogging_frame clock (set_status t (if decide (status t = DONE) then WAIT else DONE)) w) as (-> & _).
  - cbv zeta.
    by destruct (stopWorkLogging_frame clock (set_status t (if decide (status t = FLAG) then WAIT else FLAG)) w) as (-> & _).
  - destruct (decide (status t = WIP)); [|done].
    by destruct (stopWorkLogging_frame clock (set_status t WAIT) w) as (-> & _).
Qed.

Lemma mutator_other clock cmd f t w :
  mutator clock cmd f → same_id t cmd = false → f t w = (t, w).
Proof.
  intros Hm Hs. destruct Hm; unfold pure_callback, move_task, edit_task, begin_task,
    check_task, flag_task, stop_task; by rewrite Hs.
Qed.

Lemma mutator_world clock cmd f : mutator clock cmd f → reads_clock f.
Proof.
  destruct 1; try done.
  - apply begin_task_world.
  - apply check_task_world.
  - apply flag_task_world.
  - apply stop_task_world.
Qed.

Lemma array_map_ids clock cmd f l w :
  mutator clock cmd f → id <$> (array_map f l w).1 = id <$> l.
Proof.
  intros Hf. revert w. induction l as [|t l IH]; intros w; [done|].
  rewrite array_map_cons. cbn [fst fmap list_fmap]. fold (fmap (M:=list) id).
  by rewrite (mutator_id _ _ _ _ _ Hf), IH.
Qed.

Lemma array_map_others clock cmd f l w :
  mutator clock cmd f →
  filter (λ t, same_id t cmd = false) (array_map f l w).1 =
  filter (λ t, same_id t cmd = false) l.
Proof.
  intros Hf. revert w. induction l as [|t l IH]; intros w; [done|].
  rewrite array_map_cons. cbn [fst]. rewrite !filter_cons, IH.
  destruct (same_id t cmd) eqn:E.
  - rewrite (same_id_frame t (f t w).1), E by (by apply (mutator_id clock cmd)).
    by destruct (decide (true = false)).
  - rewrite (mutator_other _ _ _ _ _ Hf E). cbn [fst snd]. rewrite E.
    by destruct (decide (false = false)).
Qed.

Lemma is_case_narrow v labels labels' :
  labels ⊆ labels' → is_case v labels' = false → is_case v labels = false.
Proof.
  intros Hl H. destruct (is_case v labels) eqn:E; [|done].
  by rewrite (is_case_weaken _ _ _ Hl E) in H.
Qed.

Ltac sublabels :=
  let l := fresh in let H := fresh in
  intros l H; apply list_elem_of_In in H; apply list_elem_of_In;
  unfold switch_labels; simpl in *; intuition.

Lemma dispatch_ignored clock s cmd w : ignored cmd = true → dispatch clock s cmd w = (None, w).
Proof.
  unfold ignored, verb_in, dispatch. destruct (command cmd) as [v|]; [|done].
  cbn [fmap option_fmap option_map]. set (u := toLowerCase v).
  intros [H|[H Hx]%andb_true_iff]%orb_true_iff.
  - apply negb_true_iff in H.
    rewrite (is_case_narrow u ["mv"; "move"] switch_labels ltac:(sublabels) H).
    rewrite (is_case_narrow u ["b"; "begin"] switch_labels ltac:(sublabels) H).
    rewrite (is_case_narrow u ["c"; "check"] switch_labels ltac:(sublabels) H).
    rewrite (is_case_narrow u ["d"; "delete"] switch_labels ltac:(sublabels) H).
    rewrite (is_case_narrow u ["fl"; "flag"] switch_labels ltac:(sublabels) H).
    rewrite (is_case_narrow u ["st"; "stop"] switch_labels ltac:(sublabels) H).
    rewrite (is_case_narrow u ["t"; "task"] switch_labels ltac:(sublabels) H).
    rewrite (is_case_narrow u ["e"; "edit"] switch_labels ltac:(sublabels) H).
    rewrite (is_case_narrow u ["help"] switch_labels ltac:(sublabels) H).
    rewrite (is_case_narrow u ["close-help"] switch_labels ltac:(sublabels) H).
    rewrite (is_case_narrow u ["today"] switch_labels ltac:(sublabels) H).
    done.
  - verb_cases H; rewrite H; by destruct (cmd_text cmd) as [[|c x]|].
Qed.

Lemma dispatch_world clock s cmd w s' w' :
  dispatch clock s cmd w = (Some s', w') → ticks w ≤ ticks w' ∧ allocated w' = allocated w.
Proof.
  intros [(f & Hf & E & _)|[(_ & _ & ->)|[(_ & t & _ & _ & ->)|(_ & _ & ->)]]]%dispatch_shape;
    try done.
  pose proof (array_map_world f (tasks s) w (mutator_world _ _ _ Hf)) as H.
  by rewrite E in H.
Qed.

Lemma dispatch_acts clock s cmd w :
  ignored cmd = false → ∃ s' w', dispatch clock s cmd w = (Some s', w').
Proof.
  unfold ignored, verb_in, dispatch. destruct (command cmd) as [v|]; [|done].
  cbn [fmap option_fmap option_map]. set (u := toLowerCase v).
  intros [H Hx]%orb_false_iff. apply negb_false_iff in H.
  destruct (is_case u ["mv"; "move"]) eqn:Hmv; [unfold ret; eauto|].
  destruct (is_case u ["b"; "begin"]) eqn:Hb.
  { unfold bind, ret. destruct (array_map _ _ w). eauto. }
  destruct (is_case u ["c"; "check"]) eqn:Hc.
  { unfold bind, ret. destruct (array_map _ _ w). eauto. }
  destruct (is_case u ["d"; "delete"]) eqn:Hd; [unfold ret; eauto|].
  destruct (is_case u ["fl"; "flag"]) eqn:Hfl.
  { unfold bind, ret. destruct (array_map _ _ w). eauto. }
  destruct (is_case u ["st"; "stop"]) eqn:Hst.
  { unfold bind, ret. destruct (array_map _ _ w). eauto. }
  destruct (is_case u ["t"; "task"]) eqn:Ht.
  { rewrite (is_case_weaken u ["t"; "task"] ["t"; "task"; "e"; "edit"] ltac:(sublabels) Ht) in Hx.
    destruct (cmd_text cmd) as [[|c x]|]; try done. unfold ret. eauto. }
  destruct (is_case u ["e"; "edit"]) eqn:He.
  { rewrite (is_case_weaken u ["e"; "edit"] ["t"; "task"; "e"; "edit"] ltac:(sublabels) He) in Hx.
    destruct (cmd_text cmd) as [[|c x]|]; try done. unfold ret. eauto. }
  destruct (is_case u ["help"]) eqn:Hh; [unfold ret; eauto|].
  destruct (is_case u ["close-help"]) eqn:Hch; [unfold ret; eauto|].
  destruct (is_case u ["today"]) eqn:Htd; [unfold ret; eauto|].
  exfalso. clear Hx. verb_cases H; rewrite H in *; done.
Qed.

Lemma filter_all {A} (P : A → Prop) `{∀ x, Decision (P x)} (l : list A) :
  (∀ x, x ∈ l → P x) → filter P l = l.
Proof.
  induction l as [|x l IH]; intros Hl; [done|].
  rewrite filter_cons, decide_True by (apply Hl; left). f_equal. apply IH.
  intros y Hy. apply Hl. by right.
Qed.

Lemma filter_twice {A} (P : A → Prop) `{∀ x, Decision (P x)} (l : list A) :
  filter P (filter P l) = filter P l.
Proof. apply filter_all. intros x Hx. by apply list_elem_of_filter in Hx as [Hx _]. Qed.

(** X9.  A command other than [task] leaves the tasks with another id as they
    are, and in their order. *)
Theorem other_tasks_are_untouched clock s cmd w s' w' :
  dispatch clock s cmd w = (Some s', w') →
  verb_in cmd ["t"; "task"] = false →
  filter (λ t, same_id t cmd = false) (tasks s') =
  filter (λ t, same_id t cmd = false) (tasks s).
Proof.
  intros [(f & Hf & E & _)|[(_ & -> & _)|[(Ht & _)|(_ & -> & _)]]]%dispatch_shape Hv.
  - rewrite <- (array_map_others clock cmd f (tasks s) w Hf). by rewrite E.
  - apply filter_twice.
  - by rewrite Ht in Hv.
  - done.
Qed.

(** X10.  A command other than [task] whose id is the id of no task leaves the
    list of tasks as it is and does not read the clock. *)
Theorem unknown_id_changes_nothing clock st cmd w :
  (∀ t, t ∈ tasks (content st) → same_id t cmd = false) →
  verb_in cmd ["t"; "task"] = false →
  tasks (content (handle clock st cmd w).1) = tasks (content st) ∧
  ticks (handle clock st cmd w).2 = ticks w.
Proof.
  intros Hid Hv. unfold handle, bind.
  destruct (dispatch clock (content st) cmd w) as [[s'|] w'] eqn:E.
  - cbn [setState fst snd content ticks].
    apply dispatch_shape in E
      as [(f & Hf & E & _)|[(_ & -> & ->)|[(Ht & _)|(_ & -> & ->)]]]; try done.
    + rewrite array_map_id in E; [by injection E as <- <-|].
      intros t w0 Ht. eapply mutator_other; [done|]. by apply Hid.
    + split; [|done]. simpl. by apply filter_all.
    + by rewrite Ht in Hv.
  - rewrite dispatch_ignored in E; [by injection E as <-|].
    destruct (ignored cmd) eqn:Hi; [done|].
    destruct (dispatch_acts clock (content st) cmd w Hi) as (s' & w'' & E'). congruence.
Qed.

(** X8.  On a command the switch ignores (no case for its verb, or a task or
    an edit without text) the handler returns the state object it was given
    and leaves the world alone; on any other command it calls setState
    once, with a new object. *)
Theorem ignored_command_keeps_the_state_object clock st cmd w :
  (ignored cmd = true → handle clock st cmd w = (st, w)) ∧
  (ignored cmd = false →
     addr (handle clock st cmd w).1 = allocated w ∧
     allocated (handle clock st cmd w).2 = S (allocated w)).
Proof.
  split; intros Hi; unfold handle, bind.
  - by rewrite dispatch_ignored.
  - destruct (dispatch_acts clock (content st) cmd w Hi) as (s' & w' & E). rewrite E.
    apply dispatch_world in E as [_ Ea]. simpl. by rewrite Ea.
Qed.

Lemma reads_as_verb input cmd :
  reads_as input cmd →
  ∃ v, command cmd = Some v ∧
    ((toLowerCase v ∈ js <$> ["t"; "task"] ∧ ∃ body, cmd_text cmd = Some (trim body)) ∨
     (toLowerCase v ∈ js <$> ["e"; "edit"] ∧ ∃ body, cmd_text cmd = Some (trim body)) ∨
     (toLowerCase v ∈ js <$> ["mv"; "move"] ∧ cmd_text cmd = None) ∨
     (toLowerCase v ∈ js <$> one_id_verbs ∧ cmd_text cmd = None) ∨
     (toLowerCase v ∈ js <$> ["close-help"; "help"; "today"] ∧ cmd_text cmd = None)).
Proof. destruct 1; eexists; (split; [reflexivity|]); simpl; eauto 10. Qed.

(** X7.  Every command the parser returns has a case in the switch, and the
    switch ignores it only when it is a task or an edit whose text is
    empty. *)
Theorem parsed_command_has_a_case input cmd :
  parseCommand input = Normal (Some cmd) →
  verb_in cmd switch_labels = true ∧
  (ignored cmd = true ↔
   verb_in cmd ["t"; "task"; "e"; "edit"] = true ∧ cmd_text cmd = Some []).
Proof.
  intros (v & Hc & H)%parseCommand_reads%reads_as_verb. unfold ignored, verb_in. rewrite Hc.
  assert (∀ labels, toLowerCase v ∈ js <$> labels → is_case (toLowerCase v) labels = true)
    as Hin by (intros; by apply bool_decide_eq_true_2).
  destruct H as [[Hv [body Hx]]|[[Hv [body Hx]]|[[Hv Hx]|[[Hv Hx]|[Hv Hx]]]]];
    apply list_elem_of_In in Hv; cbn [In fmap list_fmap one_id_verbs] in Hv;
    repeat (destruct Hv as [Hv|Hv]; [rewrite <- Hv, Hx; split; [reflexivity|]|]);
    try done;
    repeat match goal with
    | |- context [is_case ?a ?b] =>
        let r := eval vm_compute in (is_case a b) in change (is_case a b) with r
    end; cbn [negb orb andb]; try destruct (trim body); intuition congruence.
Qed.

(** ** Ids *)

Section MoreIds.
Local Open Scope Z_scope.
Variable clock : nat → Z.

Lemma ids_ok_filter (P : TaskItem → Prop) `{∀ t, Decision (P t)} ts :
  ids_ok ts → ids_ok (filter P ts).
Proof.
  unfold ids_ok. induction ts as [|t ts IH]; [done|].
  rewrite fmap_cons, StronglySorted_cons, Forall_cons. intros [[Hlt Hs] [H1 Hall]].
  destruct (IH (conj Hs Hall)) as [IHs IHa].
  rewrite filter_cons. destruct (decide (P t)); [|done].
  rewrite fmap_cons, StronglySorted_cons, Forall_cons. split; [split; [|done]|done].
  apply Forall_fmap, Forall_forall. intros u Hu. apply list_elem_of_filter in Hu as [_ Hu].
  rewrite Forall_fmap, Forall_forall in Hlt. by apply Hlt.
Qed.

Lemma ids_ok_snoc ts t : ids_ok ts → id t = nextId ts + 1 → ids_ok (ts ++ [t]).
Proof.
  intros [Hs Ha] Ht. destruct (nextId_bounds ts) as (H0 & Hle & _).
  unfold ids_ok. rewrite fmap_app, StronglySorted_app, Forall_app. cbn [fmap list_fmap].
  repeat split; try done.
  - intros x y (u & -> & Hu)%list_elem_of_fmap ->%list_elem_of_singleton.
    apply Hle in Hu. lia.
  - repeat constructor.
  - repeat constructor. lia.
Qed.

Lemma dispatch_ids_ok s cmd w s' w' :
  dispatch clock s cmd w = (Some s', w') → ids_ok (tasks s) → ids_ok (tasks s').
Proof.
  intros [(f & Hf & E & _)|[(_ & -> & _)|[(_ & t & Ht & -> & _)|(_ & -> & _)]]]%dispatch_shape Hok;
    try done.
  - unfold ids_ok in *. rewrite <- (array_map_ids clock cmd f (tasks s) w Hf) in Hok.
    by rewrite E in Hok.
  - by apply ids_ok_filter.
  - apply ids_ok_snoc; [done|]. apply Ht.
Qed.

Lemma reachable_ids_ok s : reachable clock s → ids_ok (tasks s).
Proof.
  induction 1 as [|s cmd w s' w' _ IH Hd]; [by split; constructor|].
  by eapply dispatch_ids_ok.
Qed.

Lemma ids_ok_lookup ts i j t u :
  ids_ok ts → ts !! i = Some t → ts !! j = Some u → (i < j)%nat → id t < id u.
Proof.
  intros [Hs _]. revert i j. induction ts as [|x ts IH]; intros i j Hi Hj Hij; [done|].
  rewrite fmap_cons in Hs. apply StronglySorted_cons in Hs as [Hlt Hs].
  destruct j as [|j]; [lia|]. destruct i as [|i]; simpl in *.
  - injection Hi as ->. rewrite Forall_fmap, Forall_forall in Hlt.
    apply Hlt. by eapply list_elem_of_lookup_2.
  - apply (IH Hs i j); [done..|lia].
Qed.

(** X11.  The ids of the tasks of a reachable state are positive and increase
    along the list, so no two tasks have the same id. *)
Theorem ids_are_positive_and_increase s i j t u :
  reachable clock s → tasks s !! i = Some t → tasks s !! j = Some u →
  1 ≤ id t ∧ ((i < j)%nat → id t < id u) ∧ (id t = id u → i = j).
Proof.
  intros Hok%reachable_ids_ok Hi Hj. split; [|split].
  - destruct Hok as [_ Ha]. rewrite Forall_fmap, Forall_forall in Ha.
    apply Ha. by eapply list_elem_of_lookup_2.
  - by apply (ids_ok_lookup (tasks s)).
  - intros E. destruct (Nat.lt_trichotomy i j) as [Hlt|[->|Hlt]]; [|done|].
    + pose proof (ids_ok_lookup _ _ _ _ _ Hok Hi Hj Hlt). lia.
    + pose proof (ids_ok_lookup _ _ _ _ _ Hok Hj Hi Hlt). lia.
Qed.

Lemma filter_other_ids ts cmd k t :
  ids_ok ts → ts !! k = Some t → same_id t cmd = true →
  filter (λ t, same_id t cmd = false) ts = delete k ts.
Proof.
  unfold same_id. destruct (cmd_id cmd) as [i|]; [|done].
  intros Hok Hk Ht%Z.eqb_eq. revert k Hk Hok.
  induction ts as [|x ts IH]; intros k Hk Hok; [done|].
  rewrite filter_cons. destruct k as [|k]; simpl in *.
  - injection Hk as ->. rewrite decide_False by (rewrite (proj2 (Z.eqb_eq _ _) Ht); done).
    apply filter_all. intros u Hu. apply list_elem_of_lookup_1 in Hu as [j Hj].
    apply Z.eqb_neq.
    pose proof (ids_ok_lookup (t :: ts) 0 (S j) t u Hok eq_refl Hj). lia.
  - assert (id x < id t) by (apply (ids_ok_lookup (x :: ts) 0 (S k) x t Hok eq_refl Hk); lia).
    rewrite decide_True by (apply Z.eqb_neq; lia). f_equal. apply IH; [done|].
    destruct Hok as [Hs Ha]. rewrite fmap_cons in Hs, Ha.
    apply StronglySorted_cons in Hs as [_ Hs]. apply Forall_cons in Ha as [_ Ha]. done.
Qed.

(** X12.  In a reachable state a delete removes the one task that has the id,
    and nothing else. *)
Theorem delete_removes_one_task st cmd w k t :
  reachable clock (content st) → verb_in cmd ["d"; "delete"] = true →
  tasks (content st) !! k = Some t → same_id t cmd = true →
  tasks (content (handle clock st cmd w).1) = delete k (tasks (content st)).
Proof.
  intros Hr Hv Hk Ht. rewrite (handle_delete clock st cmd w Hv). simpl.
  apply (filter_other_ids _ cmd k t); [by apply reachable_ids_ok|done..].
Qed.
End MoreIds.

(** ** A task in progress *)

Section InProgress.
Variable clock : nat → Z.

Lemma stopWorkLogging_status t w : status (stopWorkLogging clock t w).1 = status t.
Proof. by destruct (stopWorkLogging_frame clock t w) as (_ & _ & _ & ->). Qed.

Lemma mutator_wip_open cmd f t w :
  mutator clock cmd f → wip_open t → wip_open (f t w).1.
Proof.
  intros Hf Ht. destruct Hf as [Hv|Hv|Hv|Hv|Hv|x Hv Hx Hne]; unfold pure_callback, move_task, edit_task, begin_task,
    check_task, flag_task, stop_task; destruct (same_id t cmd); try done.
  - destruct (decide (status t ≠ WIP)); [|done]. intros _. simpl. eauto.
  - cbv zeta. destruct (decide (status (set_status t _) = DONE)) as [E|E].
    + intros H. rewrite stopWorkLogging_status in H. simpl in H.
      by destruct (decide (status t = DONE)).
    + intros H. simpl in *. by destruct (decide (status t = DONE)).
  - cbv zeta. intros H. rewrite stopWorkLogging_status in H. simpl in H.
    by destruct (decide (status t = FLAG)).
  - destruct (decide (status t = WIP)); [|done].
    intros H. by rewrite stopWorkLogging_status in H.
Qed.

Lemma dispatch_wip_open s cmd w s' w' :
  dispatch clock s cmd w = (Some s', w') →
  Forall wip_open (tasks s) → Forall wip_open (tasks s').
Proof.
  intros [(f & Hf & E & _)|[(_ & -> & _)|[(_ & t & Ht & -> & _)|(_ & -> & _)]]]%dispatch_shape Hok;
    try done.
  - pose proof (array_map_Forall wip_open wip_open f (tasks s) w) as H. rewrite E in H.
    apply H; [|done]. intros x w0. by apply mutator_wip_open with cmd.
  - simpl. apply Forall_forall. intros t Ht. apply list_elem_of_filter in Ht as [_ Ht].
    by apply (proj1 (Forall_forall _ _) Hok).
  - simpl. apply Forall_app. split; [done|]. constructor; [|done].
    destruct Ht as (_ & Hs & _). intros H. congruence.
Qed.

Lemma reachable_wip_open s : reachable clock s → Forall wip_open (tasks s).
Proof.
  induction 1 as [|s cmd w s' w' _ IH Hd]; [constructor|]. by eapply dispatch_wip_open.
Qed.

Lemma all_closed_open_count t : all_closed t → open_count t = 0.
Proof.
  intros H. unfold open_count.
  destruct (filter is_open (logs_or_empty t)) as [|l r] eqn:E; [done|]. exfalso.
  assert (l ∈ filter is_open (logs_or_empty t)) as Hl by (rewrite E; left).
  apply list_elem_of_filter in Hl as [Ho Hl]. apply list_elem_of_lookup_1 in Hl as [j Hj].
  by destruct (H j l Hj).
Qed.

(** X13.  In a reachable state, with a clock that never reads 0, a task has an
    open log exactly when it is in progress: one open log, the last one,
    when its status is WIP, and none otherwise. *)
Theorem open_log_exactly_when_in_progress s t :
  (∀ n, clock n ≠ 0%Z) → reachable clock s → t ∈ tasks s →
  open_count t = (if decide (status t = WIP) then 1 else 0) ∧
  (status t = WIP → ∃ ls l, logs t = Some (ls ++ [l]) ∧ end_ l = 0%Z).
Proof.
  intros Hclock Hr Ht.
  pose proof (proj1 (Forall_forall _ _) (reachable_ok clock Hclock s Hr) t Ht) as Hok.
  pose proof (proj1 (Forall_forall _ _) (reachable_wip_open s Hr) t Ht) as Hwip.
  split; [|done]. destruct (decide (status t = WIP)) as [E|E].
  - destruct (Hwip E) as (ls & l & Hl & He).
    pose proof (task_ok_open_count t Hok) as Hle. unfold open_count in *.
    unfold logs_or_empty in *. rewrite Hl in *. simpl in *.
    rewrite filter_app, length_app in *. rewrite (filter_cons _ l) in *.
    rewrite decide_True in * by done. simpl in *. lia.
  - apply all_closed_open_count. by apply task_ok_not_WIP.
Qed.
End InProgress.

(** ** Typing *)

Section Typing.
Variable clock : nat → Z.

Lemma typed_reachable s : typed clock s → reachable clock s.
Proof. induction 1; [constructor|by eapply reachable_step]. Qed.

Lemma onKeyPress_typed st input w :
  typed clock (content st) → typed clock (content (onKeyPress clock st input w).1).
Proof.
  intros H. unfold onKeyPress. destruct (parseCommand input) as [[cmd|]|] eqn:E; try done.
  unfold handle, bind. destruct (dispatch clock (content st) cmd w) as [[s'|] w'] eqn:Ed; [|done].
  simpl. by eapply typed_step.
Qed.

Lemma type_all_typed inputs : ∀ st w,
  typed clock (content st) → typed clock (content (type_all clock st inputs w).1).
Proof.
  induction inputs as [|input inputs IH]; intros st w H; [done|].
  cbn [type_all]. unfold bind.
  pose proof (onKeyPress_typed st input w H) as H1.
  destruct (onKeyPress clock st input w) as [st1 w1]. by apply IH.
Qed.

(** what a parsed command carries, by the case of the switch it reaches *)
Ltac wrong_verb Hv H :=
  exfalso; unfold verb_in in H; cbn [command] in H;
  apply list_elem_of_In in Hv; cbn [In fmap list_fmap one_id_verbs] in Hv;
  repeat (destruct Hv as [Hv|Hv]; [rewrite <- Hv in H; vm_compute in H; discriminate H|]);
  exact Hv.

Lemma reads_as_move input cmd :
  reads_as input cmd → verb_in cmd ["mv"; "move"] = true →
  ∃ g, cmd_tag cmd = Some g ∧ tag_ok g = true.
Proof.
  intros Hr H. destruct Hr as [v ??? Hv|v ???? Hv|v ???? Hv|v ????? Hv|v ??? Hv|v ? Hv];
    try wrong_verb Hv H. simpl. eauto.
Qed.

Lemma reads_as_text input cmd x :
  reads_as input cmd → cmd_text cmd = Some x → x ≠ [] → title_ok x.
Proof.
  intros Hr Hx Hne.
  assert (∃ body, x = trim body ∧ Forall (λ c, cls_dot c = true) body) as (body & -> & Hb).
  { destruct Hr; simpl in Hx; try done; injection Hx as <-; eauto. }
  split; [done|]. split; [apply trim_trimmed|].
  eapply Forall_impl; [by apply trim_no_line_terminator|].
  intros c Hc. by apply negb_true_iff in Hc.
Qed.

Lemma reads_as_task_tag input cmd :
  reads_as input cmd → verb_in cmd ["t"; "task"] = true →
  tag_ok match cmd_tag cmd with
         | Some (c :: g) => c :: g
         | _ => js "@uncategorized"
         end = true.
Proof.
  intros Hr H. destruct Hr as [v ??? Hv|v ? g ?? Hv ? Hg|v ???? Hv|v ????? Hv|v ??? Hv|v ? Hv];
    try wrong_verb Hv H; simpl; [done|]. by destruct g.
Qed.

Lemma mutator_labelled input cmd f t w :
  reads_as input cmd → mutator clock cmd f → labelled t → labelled (f t w).1.
Proof.
  intros Hr Hf Ht.
  destruct Hf as [Hv|Hv|Hv|Hv|Hv|x Hv Hx Hne]; unfold pure_callback, move_task, edit_task,
    begin_task, check_task, flag_task, stop_task; destruct (same_id t cmd); try done.
  - destruct (reads_as_move input cmd Hr Hv) as (g & -> & Hg). split; [|apply Ht].
    simpl. eauto.
  - by destruct (decide (status t ≠ WIP)).
  - cbv zeta. destruct (decide (status (set_status t _) = DONE)); [|done].
    unfold labelled. by destruct (stopWorkLogging_frame clock (set_status t (if decide (status t = DONE) then WAIT else DONE)) w) as (_ & -> & -> & _).
  - cbv zeta. unfold labelled.
    by destruct (stopWorkLogging_frame clock (set_status t (if decide (status t = FLAG) then WAIT else FLAG)) w) as (_ & -> & -> & _).
  - destruct (decide (status t = WIP)); [|done]. unfold labelled.
    by destruct (stopWorkLogging_frame clock (set_status t WAIT) w) as (_ & -> & -> & _).
  - split; [apply Ht|]. simpl. by apply (reads_as_text input cmd).
Qed.

Lemma dispatch_labelled input s cmd w s' w' :
  reads_as input cmd → dispatch clock s cmd w = (Some s', w') →
  Forall labelled (tasks s) → Forall labelled (tasks s').
Proof.
  intros Hr [(f & Hf & E & _)|[(_ & -> & _)|[(Hv & t & Ht & -> & _)|(_ & -> & _)]]]%dispatch_shape Hok;
    try done.
  - pose proof (array_map_Forall labelled labelled f (tasks s) w) as H. rewrite E in H.
    apply H; [|done]. intros x w0. by apply mutator_labelled with input cmd.
  - simpl. apply Forall_forall. intros t Ht. apply list_elem_of_filter in Ht as [_ Ht].
    by apply (proj1 (Forall_forall _ _) Hok).
  - simpl. apply Forall_app. split; [done|]. constructor; [|done].
    destruct Ht as (_ & _ & _ & Hx & Hne & Hg). split.
    + eexists. split; [exact Hg|]. by apply (reads_as_task_tag input).
    + by apply (reads_as_text input cmd).
Qed.

Lemma typed_labelled s : typed clock s → Forall labelled (tasks s).
Proof.
  induction 1 as [|s input cmd w s' w' _ IH Hp Hd]; [constructor|].
  eapply dispatch_labelled; [by apply parseCommand_reads|done..].
Qed.

(** X14.  Whatever lines are typed, starting from the default state, every task
    has a tag token as its tag ([@], no white space, a last character from
    [[0-9a-zA-Z'-]]) and a title that is not empty, has no white space at
    either end and is on one line. *)
Theorem typed_tasks_have_a_tag_and_a_title inputs w t :
  t ∈ tasks (content (type_all clock initial_object inputs w).1) →
  (∃ g, tag t = Some g ∧ tag_ok g = true) ∧
  title t ≠ [] ∧ trimmed (title t) = true ∧
  Forall (λ c, is_line_terminator c = false) (title t).
Proof.
  intros Ht.
  pose proof (type_all_typed inputs initial_object w (typed_default clock)) as H.
  apply typed_labelled in H. by apply (proj1 (Forall_forall _ _) H).
Qed.

(** X15.  The three keywords, typed with anything after them, only switch the
    panels: the tasks stay, [help] and [close-help] set showHelp, [today]
    flips showToday, the clock is not read and setState is called once. *)
Theorem keywords_switch_the_panels st v rest w :
  toLowerCase v ∈ js <$> ["close-help"; "help"; "today"] →
  let s := content st in
  let s' := content (onKeyPress clock st (v ++ rest) w).1 in
  tasks s' = tasks s ∧
  showHelp s' = (if decide (toLowerCase v = js "help") then true
                 else if decide (toLowerCase v = js "close-help") then false
                 else showHelp s) ∧
  showToday s' = (if decide (toLowerCase v = js "today") then negb (showToday s)
                  else showToday s) ∧
  (onKeyPress clock st (v ++ rest) w).2 =
    {| ticks := ticks w; allocated := S (allocated w) |}.
Proof.
  intros Hv. cbv zeta. unfold onKeyPress. rewrite parseCommand_keyword by done.
  unfold handle, bind, dispatch. cbn [command fmap option_fmap option_map].
  apply list_elem_of_In in Hv. cbn [In fmap list_fmap] in Hv.
  destruct Hv as [Hv|[Hv|[Hv|[]]]]; rewrite <- Hv; done.
Qed.
End Typing.

(** ** The time spent *)

Section TimeSpent.
Local Open Scope Z_scope.
Variable clock : nat → Z.

Lemma array_reduce_app {A B} (f : B → A → M B) l1 l2 init w :
  array_reduce f (l1 ++ l2) init w =
  array_reduce f l2 (array_reduce f l1 init w).1 (array_reduce f l1 init w).2.
Proof.
  revert init w. induction l1 as [|x l1 IH]; intros init w; [done|].
  cbn [array_reduce app]. unfold bind. destruct (f init x w) as [acc w1]. apply IH.
Qed.

Lemma sum_closed ls total w :
  Forall (λ l, end_ l ≠ 0) ls →
  array_reduce (add_log clock) ls total w = (total + foldr Z.add 0 (spent <$> ls), w).
Proof.
  intros H. revert total. induction H as [|l ls Hl _ IH]; intros total.
  - simpl. unfold ret. f_equal. lia.
  - cbn [array_reduce]. unfold bind, add_log at 1.
    rewrite (proj2 (truthy_true _) Hl). cbn [ret]. rewrite IH. f_equal.
    cbn [fmap list_fmap foldr]. unfold spent at 2. lia.
Qed.

Lemma all_closed_Forall t : all_closed t → Forall (λ l, end_ l ≠ 0) (logs_or_empty t).
Proof.
  intros H. apply Forall_forall. intros l [j Hj]%list_elem_of_lookup_1. by destruct (H j l Hj).
Qed.

(** X16.  The time spent on a task whose logs are all closed is the sum of
    their lengths: computing it does not read the clock, so its value does
    not change with the time of day. *)
Theorem time_of_closed_logs_is_fixed t w :
  (∀ l, l ∈ logs_or_empty t → end_ l ≠ 0) →
  totalTime_ms clock t w = (foldr Z.add 0 (spent <$> logs_or_empty t), w).
Proof.
  intros H. unfold totalTime_ms.
  rewrite sum_closed by (by apply Forall_forall). done.
Qed.

(** X17.  In a reachable state, with a clock that never reads 0, the time spent
    on a task that is not in progress is the sum of the lengths of its
    logs, and the clock is not read; for a task in progress the clock is
    read once, and the time from the start of the last log to that reading
    is added to the lengths of the logs before it. *)
Theorem time_spent_reads_the_clock_only_in_progress s t w :
  (∀ n, clock n ≠ 0) → reachable clock s → t ∈ tasks s →
  (status t ≠ WIP →
     totalTime_ms clock t w = (foldr Z.add 0 (spent <$> logs_or_empty t), w)) ∧
  (status t = WIP →
     ∃ ls l, logs t = Some (ls ++ [l]) ∧
       totalTime_ms clock t w =
         (foldr Z.add 0 (spent <$> ls) + (clock (ticks w) - start l),
          {| ticks := S (ticks w); allocated := allocated w |})).
Proof.
  intros Hclock Hr Ht.
  pose proof (proj1 (Forall_forall _ _) (reachable_ok clock Hclock s Hr) t Ht) as Hok.
  pose proof (proj1 (Forall_forall _ _) (reachable_wip_open clock s Hr) t Ht) as Hwip.
  split; intros Hs.
  - unfold totalTime_ms.
    rewrite sum_closed by (by apply all_closed_Forall, task_ok_not_WIP). done.
  - destruct (Hwip Hs) as (ls & l & Hl & He). exists ls, l. split; [done|].
    unfold totalTime_ms. unfold logs_or_empty. rewrite Hl. simpl default.
    rewrite array_reduce_app, (sum_closed ls).
    + cbn [fst snd array_reduce]. unfold bind, add_log. rewrite He. done.
    + apply Forall_forall. intros l' [j Hj]%list_elem_of_lookup_1.
      destruct (Hok j l') as [_ Hopen].
      { unfold logs_or_empty. rewrite Hl. simpl. by apply lookup_app_l_Some. }
      intros He'. destruct (Hopen He') as [E _].
      unfold logs_or_empty in E. rewrite Hl in E. simpl in E. rewrite length_app in E.
      apply lookup_lt_Some in Hj. simpl in E. lia.
Qed.
End TimeSpent.

(** ** The groups *)

Lemma taskGroups_snoc ts t :
  taskGroups (ts ++ [t]) = push_group (group_key t) t (taskGroups ts).
Proof. unfold taskGroups. by rewrite foldl_app. Qed.

Lemma push_group_keys k t gs :
  (push_group k t gs).*1 = if decide (k ∈ gs.*1) then gs.*1 else gs.*1 ++ [k].
Proof.
  induction gs as [|[k' g] gs IH].
  - destruct (decide (k ∈ [].*1)) as [H|]; [|done]. by apply elem_of_nil in H.
  - cbn [push_group]. rewrite !fmap_cons. cbn [fst].
    destruct (decide (k' = k)) as [->|Hne].
    + rewrite fmap_cons. cbn [fst]. rewrite decide_True; [done|]. left.
    + rewrite fmap_cons. cbn [fst]. rewrite IH. destruct (decide (k ∈ gs.*1)) as [Hin|Hin].
      * rewrite decide_True; [done|]. by right.
      * rewrite decide_False; [done|]. intros [?|?]%elem_of_cons; done.
Qed.

Lemma push_group_elem k t gs k' g' :
  NoDup gs.*1 →
  (k', g') ∈ push_group k t gs ↔
    (k' ≠ k ∧ (k', g') ∈ gs) ∨
    (k' = k ∧ ((∃ g, (k, g) ∈ gs ∧ g' = g ++ [t]) ∨ ((k ∉ gs.*1) ∧ g' = [t]))).
Proof.
  induction gs as [|[k0 g0] gs IH]; intros Hnd; cbn [push_group].
  - rewrite list_elem_of_singleton. setoid_rewrite elem_of_nil. split.
    + intros [= -> ->]. right. split; [done|]. right. split; [tauto|done].
    + intros [[_ []]|[-> [(g & [] & _)|[_ ->]]]]. done.
  - rewrite fmap_cons in Hnd. cbn [fst] in Hnd.
    apply NoDup_cons in Hnd as [Hk0 Hnd]. specialize (IH Hnd). rewrite fmap_cons. cbn [fst].
    assert (∀ g, (k0, g) ∉ gs) as Hk0'.
    { intros g Hin. apply Hk0. apply list_elem_of_fmap. by exists (k0, g). }
    destruct (decide (k0 = k)) as [->|Hne].
    + setoid_rewrite elem_of_cons. split.
      * intros [[= -> ->]|Hin]; [eauto 8|]. left. split; [|by right]. intros ->. by apply (Hk0' g').
      * intros [[Hne [[= ? ?]|Hin]]|[-> [(g & [[= ->]|Hin] & ->)|[Hnot ->]]]]; try done; eauto.
        -- by destruct (Hk0' g).
        -- destruct Hnot. by left.
    + setoid_rewrite elem_of_cons. rewrite IH. split.
      * intros [[= -> ->]|[[Hne' Hin]|[-> [(g & Hin & ->)|[Hnot ->]]]]]; eauto 8.
        right. split; [done|]. right. split; [|done]. intros [?|?]; done.
      * intros [[Hne' [[= -> ->]|Hin]]|[-> [(g & [[= ? ?]|Hin] & ->)|[Hnot ->]]]]; try done; eauto 8.
        right. right. split; [done|]. right. split; [|done]. intros Hin. apply Hnot. by right.
Qed.

Lemma filter_snoc {A} (P : A → Prop) `{∀ x, Decision (P x)} (l : list A) x :
  filter P (l ++ [x]) = filter P l ++ (if decide (P x) then [x] else []).
Proof. by rewrite filter_app. Qed.

Lemma filter_nil_not_elem {A} (P : A → Prop) `{∀ x, Decision (P x)} (l : list A) :
  filter P l = [] ↔ ∀ x, x ∈ l → ¬ P x.
Proof.
  split.
  - intros E x Hx HP. assert (x ∈ filter P l) as H' by (by apply list_elem_of_filter).
    rewrite E in H'. by apply elem_of_nil in H'.
  - intros Hl. destruct (filter P l) as [|x r] eqn:E; [done|]. exfalso.
    assert (x ∈ filter P l) as H' by (rewrite E; left).
    apply list_elem_of_filter in H' as [HP Hx]. by apply (Hl x).
Qed.

Lemma grouped_keys ts gs k :
  grouped ts gs → k ∈ gs.*1 ↔ ∃ t, t ∈ ts ∧ group_key t = k.
Proof.
  intros [_ Hg]. split.
  - intros ([k' g] & -> & Hin)%list_elem_of_fmap. apply Hg in Hin as [Hne ->]. simpl.
    destruct (filter _ ts) as [|t r] eqn:E; [done|]. exists t.
    assert (t ∈ filter (λ t, group_key t = k') ts) as H' by (rewrite E; left).
    apply list_elem_of_filter in H' as [? ?]. done.
  - intros (t & Ht & Hk). apply list_elem_of_fmap.
    exists (k, filter (λ t, group_key t = k) ts). split; [done|]. apply Hg. split; [|done].
    intros E. by apply (proj1 (filter_nil_not_elem _ _) E t).
Qed.

Lemma grouped_snoc ts gs t :
  grouped ts gs → grouped (ts ++ [t]) (push_group (group_key t) t gs).
Proof.
  intros Hgr. pose proof Hgr as [Hnd Hg]. split.
  - rewrite push_group_keys. destruct (decide (_ ∈ _)) as [|Hnot]; [done|].
    apply NoDup_app. split; [done|]. split; [|apply NoDup_singleton].
    by intros x Hx ->%list_elem_of_singleton.
  - intros k g. rewrite push_group_elem by done. rewrite filter_snoc. split.
    + intros [[Hne Hin]|[-> [(g0 & Hin & ->)|[Hnot ->]]]].
      * apply Hg in Hin as [Hn ->]. rewrite decide_False by done.
        by rewrite app_nil_r.
      * apply Hg in Hin as [Hn ->]. rewrite decide_True by done. split; [|done].
        by intros [? _]%app_eq_nil.
      * rewrite decide_True by done. split; [done|].
        assert (filter (λ t0, group_key t0 = group_key t) ts = []) as ->; [|done].
        apply filter_nil_not_elem. intros u Hu Hk. apply Hnot.
        apply (grouped_keys ts gs); eauto.
    + intros [Hne ->]. destruct (decide (group_key t = k)) as [<-|Hk].
      * right. split; [done|].
        destruct (filter (λ t0, group_key t0 = group_key t) ts) as [|u r] eqn:E.
        -- right. split; [|done]. intros (u & Hu & Hk)%(grouped_keys ts gs); [|done].
           by apply (proj1 (filter_nil_not_elem _ _) E u).
        -- left. exists (u :: r). split; [|done]. apply Hg. by rewrite E.
      * left. split; [done|]. rewrite app_nil_r in *. by apply Hg.
Qed.

Lemma taskGroups_grouped ts : grouped ts (taskGroups ts).
Proof.
  induction ts as [|t ts IH] using rev_ind.
  - split; [constructor|]. intros k g. split; [by intros ?%elem_of_nil|by intros [? ->]].
  - rewrite taskGroups_snoc. by apply grouped_snoc.
Qed.

Lemma taskGroups_order ts : first_seen_order ts (taskGroups ts).*1.
Proof.
  induction ts as [|t ts IH] using rev_ind; [by intros i j k k' ?|].
  pose proof (taskGroups_grouped ts) as Hgr.
  rewrite taskGroups_snoc, push_group_keys.
  assert (∀ i j k k', (taskGroups ts).*1 !! i = Some k → (taskGroups ts).*1 !! j = Some k' →
            i < j →
            ∃ p u, (ts ++ [t]) !! p = Some u ∧ group_key u = k ∧
              ∀ q t', (ts ++ [t]) !! q = Some t' → group_key t' = k' → p < q) as Hold.
  { intros i j k k' Hi Hj Hij. destruct (IH i j k k' Hi Hj Hij) as (p & u & Hp & Hk & Hq).
    exists p, u. split; [by apply lookup_app_l_Some|]. split; [done|].
    intros q t' Ht' Hk'. apply lookup_lt_Some in Hp as Hlt.
    destruct (decide (q < length ts)) as [Hql|Hql]; [|lia].
    rewrite lookup_app_l in Ht' by done. by apply (Hq q t'). }
  destruct (decide (group_key t ∈ (taskGroups ts).*1)) as [Hin|Hnot]; [exact Hold|].
  intros i j k k' Hi Hj Hij.
  destruct (decide (j < length (taskGroups ts).*1)) as [Hjl|Hjl].
  { rewrite lookup_app_l in Hi, Hj by lia. by apply (Hold i j). }
  rewrite lookup_app_r in Hj by lia. rewrite lookup_app_l in Hi.
  2: { apply lookup_lt_Some in Hj. simpl in Hj. lia. }
  destruct (j - length (taskGroups ts).*1) as [|n]; [|done]. injection Hj as <-.
  assert (k ∈ (taskGroups ts).*1) as Hk by (by eapply list_elem_of_lookup_2).
  apply (grouped_keys ts) in Hk as (u & [p Hp]%list_elem_of_lookup_1 & Hu); [|done].
  exists p, u. split; [by apply lookup_app_l_Some|]. split; [done|].
  intros q t' Ht' Hk'. apply lookup_lt_Some in Hp as Hlt.
  destruct (decide (q < length ts)) as [Hql|Hql]; [|lia]. exfalso.
  rewrite lookup_app_l in Ht' by done. apply Hnot. apply (grouped_keys ts); [done|].
  exists t'. split; [by eapply list_elem_of_lookup_2|done].
Qed.

Lemma filter_agree {A} (P Q : A → Prop) `{∀ x, Decision (P x)} `{∀ x, Decision (Q x)}
    (l : list A) :
  (∀ x, x ∈ l → P x ↔ Q x) → filter P l = filter Q l.
Proof.
  induction l as [|x l IH]; intros Hl; [done|]. rewrite !filter_cons.
  rewrite IH by (intros y Hy; apply Hl; by right).
  destruct (decide (P x)) as [HP|HP], (decide (Q x)) as [HQ|HQ]; try done.
  - destruct HQ. by apply (Hl x); [left|].
  - destruct HP. by apply (Hl x); [left|].
Qed.

Section Views.
Variable clock : nat → Z.

(** X18.  Whatever lines are typed, starting from the default state, the groups
    of the task list are a stable partition of it by tag: the keys are
    distinct tag tokens, and the group of a key is not empty and holds the
    tasks with that tag, all of them, in the order of the list. *)
Theorem groups_are_a_stable_partition inputs w :
  let ts := tasks (content (type_all clock initial_object inputs w).1) in
  NoDup (taskGroups ts).*1 ∧
  (∀ k g, (k, g) ∈ taskGroups ts ↔ g ≠ [] ∧ g = filter (λ t, tag t = Some k) ts) ∧
  (∀ k, k ∈ (taskGroups ts).*1 → tag_ok k = true).
Proof.
  intros ts.
  assert (Forall labelled ts) as Hl.
  { apply typed_labelled with clock, type_all_typed, typed_default. }
  rewrite Forall_forall in Hl.
  assert (∀ k t, t ∈ ts → group_key t = k ↔ tag t = Some k) as Hkey.
  { intros k t Ht. destruct (Hl t Ht) as [(g & Hg & _) _]. unfold group_key. rewrite Hg.
    simpl. split; congruence. }
  destruct (taskGroups_grouped ts) as [Hnd Hg]. split; [done|]. split.
  - intros k g. rewrite Hg. by rewrite (filter_agree _ (λ t, tag t = Some k) ts (Hkey k)).
  - intros k (t & Ht & Hk)%(grouped_keys ts); [|by apply taskGroups_grouped].
    destruct (Hl t Ht) as [(g & Hg' & Hok) _]. unfold group_key in Hk. rewrite Hg' in Hk.
    simpl in Hk. by subst.
Qed.

(** X19.  The groups come in the order in which the task list first shows their
    tags: of two groups, a task of the earlier one comes before every task
    of the later one. *)
Theorem groups_are_in_first_seen_order inputs w i j k g k' g' :
  let ts := tasks (content (type_all clock initial_object inputs w).1) in
  taskGroups ts !! i = Some (k, g) → taskGroups ts !! j = Some (k', g') → i < j →
  ∃ p t, ts !! p = Some t ∧ tag t = Some k ∧
    ∀ q t', ts !! q = Some t' → tag t' = Some k' → p < q.
Proof.
  intros ts Hi Hj Hij.
  assert (Forall labelled ts) as Hl.
  { apply typed_labelled with clock, type_all_typed, typed_default. }
  rewrite Forall_forall in Hl.
  assert (∀ k t, t ∈ ts → group_key t = k ↔ tag t = Some k) as Hkey.
  { intros k0 t Ht. destruct (Hl t Ht) as [(g0 & Hg & _) _]. unfold group_key. rewrite Hg.
    simpl. split; congruence. }
  destruct (taskGroups_order ts i j k k') as (p & t & Hp & Hk & Hq); [..|done|].
  { by rewrite list_lookup_fmap, Hi. }
  { by rewrite list_lookup_fmap, Hj. }
  exists p, t. split; [done|]. split.
  - apply Hkey; [by eapply list_elem_of_lookup_2|done].
  - intros q t' Ht' Hk'. apply (Hq q t' Ht'). apply Hkey; [by eapply list_elem_of_lookup_2|done].
Qed.
End Views.

(** ** The summary *)

Lemma summary_snoc ts t :
  summary (ts ++ [t]) =
  match status t with
  | WAIT => {| done := done (summary ts); wip := wip (summary ts);
               pending := pending (summary ts) + 1 |}
  | DONE => {| done := done (summary ts) + 1; wip := wip (summary ts);
               pending := pending (summary ts) |}
  | WIP => {| done := done (summary ts); wip := wip (summary ts) + 1;
              pending := pending (summary ts) |}
  | _ => summary ts
  end.
Proof. unfold summary. by rewrite foldl_app. Qed.

Lemma count_status_snoc s ts t :
  count_status s (ts ++ [t]) = (count_status s ts + if decide (status t = s) then 1 else 0)%Z.
Proof.
  unfold count_status. rewrite filter_snoc, length_app.
  destruct (decide (status t = s)); simpl; lia.
Qed.

Lemma summary_counts ts :
  done (summary ts) = count_status DONE ts ∧ wip (summary ts) = count_status WIP ts ∧
  pending (summary ts) = count_status WAIT ts.
Proof.
  induction ts as [|t ts (Hd & Hw & Hp)] using rev_ind; [done|].
  rewrite summary_snoc, !count_status_snoc.
  destruct (status t); simpl; rewrite Hd, Hw, Hp; repeat split; lia.
Qed.

Lemma status_partition ts :
  (count_status NONE ts + count_status DONE ts + count_status WIP ts +
   count_status WAIT ts + count_status FLAG ts)%Z = Z.of_nat (length ts).
Proof.
  induction ts as [|t ts IH] using rev_ind; [done|].
  rewrite !count_status_snoc, length_app. simpl. destruct (status t); simpl; lia.
Qed.

Section Statuses.
Variable clock : nat → Z.

Lemma mutator_status cmd f t w :
  mutator clock cmd f → status t ≠ NONE → status (f t w).1 ≠ NONE.
Proof.
  intros Hf Ht. destruct Hf as [Hv|Hv|Hv|Hv|Hv|x Hv Hx Hne]; unfold pure_callback, move_task,
    edit_task, begin_task, check_task, flag_task, stop_task; destruct (same_id t cmd); try done.
  - by destruct (decide (status t ≠ WIP)).
  - cbv zeta. destruct (decide (status (set_status t _) = DONE)) as [E|E].
    + rewrite stopWorkLogging_status. simpl. by destruct (decide (status t = DONE)).
    + simpl. by destruct (decide (status t = DONE)).
  - cbv zeta. rewrite stopWorkLogging_status. simpl. by destruct (decide (status t = FLAG)).
  - destruct (decide (status t = WIP)); [|done]. by rewrite stopWorkLogging_status.
Qed.

Lemma reachable_status s : reachable clock s → Forall (λ t, status t ≠ NONE) (tasks s).
Proof.
  induction 1 as [|s cmd w s' w' _ IH Hd]; [constructor|].
  apply dispatch_shape in Hd
    as [(f & Hf & E & _)|[(_ & -> & _)|[(_ & t & Ht & -> & _)|(_ & -> & _)]]]; try done.
  - pose proof (array_map_Forall (λ t, status t ≠ NONE) (λ t, status t ≠ NONE) f (tasks s) w) as H.
    rewrite E in H. apply H; [|done]. intros x w0. by apply mutator_status with cmd.
  - simpl. apply Forall_forall. intros t Ht. apply list_elem_of_filter in Ht as [_ Ht].
    by apply (proj1 (Forall_forall _ _) IH).
  - simpl. apply Forall_app. split; [done|]. constructor; [|done].
    destruct Ht as (_ & -> & _). done.
Qed.

(** X20.  The summary counts the tasks by status, and in a reachable state
    every task that it does not count is a flagged one: done, in-progress
    and waiting add up to the number of tasks less the flagged ones. *)
Theorem summary_leaves_out_the_flagged_tasks s :
  reachable clock s →
  done (summary (tasks s)) = count_status DONE (tasks s) ∧
  wip (summary (tasks s)) = count_status WIP (tasks s) ∧
  pending (summary (tasks s)) = count_status WAIT (tasks s) ∧
  (done (summary (tasks s)) + wip (summary (tasks s)) + pending (summary (tasks s)) +
   count_status FLAG (tasks s))%Z = Z.of_nat (length (tasks s)).
Proof.
  intros Hr%reachable_status. destruct (summary_counts (tasks s)) as (Hd & Hw & Hp).
  repeat split; try done. rewrite Hd, Hw, Hp.
  pose proof (status_partition (tasks s)) as H.
  assert (count_status NONE (tasks s) = 0%Z) as E; [|lia].
  unfold count_status. rewrite (proj2 (filter_nil_not_elem _ _)); [done|].
  intros t Ht. by apply (proj1 (Forall_forall _ _) Hr).
Qed.
End Statuses.

(** ** Loading *)

(** X21.  getInitialState never throws: it returns a stored value exactly when
    there is storage, the string stored under the key is not empty and
    parses, and the parsed value is truthy, and then it returns that value
    as parsed, whatever it is; otherwise it returns the default state. *)
Theorem getInitialState_returns_the_stored_value_or_the_default
    {json} (JSON_parse : jsstring → completion json) (json_truthy : json → bool)
    (localStorage : option Storage) :
  (∃ parsed, loads JSON_parse json_truthy localStorage parsed ∧
     getInitialState json JSON_parse json_truthy localStorage = Normal (Saved parsed)) ∨
  ((∀ parsed, ¬ loads JSON_parse json_truthy localStorage parsed) ∧
   getInitialState json JSON_parse json_truthy localStorage = Normal (Literal default_state)).
Proof.
  unfold getInitialState, loads. destruct localStorage as [storage|].
  2: { right. split; [|done]. by intros p (? & ? & ? & _). }
  destruct (storage (js "pomoday")) as [[|c x]|] eqn:Es.
  - right. split; [|done]. intros p (? & ? & [= <-] & E & Hne & _). congruence.
  - destruct (JSON_parse (c :: x)) as [p|e] eqn:Ep.
    + destruct (json_truthy p) eqn:Ht.
      * left. exists p. split; [|done]. exists storage, (c :: x). done.
      * right. split; [|done]. intros p' (? & ? & [= <-] & E & _ & Hp & Ht'). congruence.
    + right. split; [|done]. intros p' (? & ? & [= <-] & E & _ & Hp & Ht'). congruence.
  - right. split; [|done]. intros p (? & ? & [= <-] & E & _). congruence.
Qed.

(** ** stopWorkLogging once more *)

Section Resources.
Variable clock : nat → Z.

(** X24.  stopWorkLogging is idempotent when the clock never reads 0: on
    the task it returns, a second call returns the same task and does not
    read the clock. *)
Theorem stopWorkLogging_twice_is_once t w w' :
  (∀ n, clock n ≠ 0%Z) →
  stopWorkLogging clock (stopWorkLogging clock t w).1 w' =
    ((stopWorkLogging clock t w).1, w').
Proof.
  intros Hclock. destruct (logs_cases (logs t)) as [Hn|(ls0 & l & Hl)].
  - destruct (stopWorkLogging_none clock t w Hn) as [E _].
    apply (stopWorkLogging_closed clock _ w' [] _ E). right. apply Hclock.
  - destruct (decide (start l ≠ 0%Z ∧ end_ l = 0%Z)) as [[Hs He]|Hc].
    + destruct (stopWorkLogging_open clock t w ls0 l Hl Hs He) as [E _].
      apply (stopWorkLogging_closed clock _ w' _ _ E). right. apply Hclock.
    + assert (start l = 0%Z ∨ end_ l ≠ 0%Z) as Hc'.
      { destruct (decide (start l = 0%Z)); [by left|]. right. intros He. by apply Hc. }
      rewrite (stopWorkLogging_closed clock t w ls0 l Hl Hc'). simpl.
      by apply (stopWorkLogging_closed clock t w' ls0 l).
Qed.

Lemma stopWorkLogging_ticks t w : ticks (stopWorkLogging clock t w).2 ≤ ticks w + 2.
Proof.
  unfold stopWorkLogging. destruct (logs t ≫= last) as [l|]; [|simpl; lia].
  destruct (_ && _); simpl; lia.
Qed.

Lemma mutator_ticks cmd f t w : mutator clock cmd f → ticks (f t w).2 ≤ ticks w + 2.
Proof.
  intros Hf. destruct Hf as [Hv|Hv|Hv|Hv|Hv|x Hv Hx Hne]; unfold pure_callback, move_task,
    edit_task, begin_task, check_task, flag_task, stop_task;
    destruct (same_id t cmd); simpl; try lia.
  - destruct (decide (status t ≠ WIP)); simpl; lia.
  - destruct (decide (_ = DONE)); [apply stopWorkLogging_ticks|simpl; lia].
  - apply stopWorkLogging_ticks.
  - destruct (decide (status t = WIP)); [apply stopWorkLogging_ticks|simpl; lia].
Qed.

Lemma array_map_ticks cmd f ts w :
  mutator clock cmd f → ids_ok ts → ticks (array_map f ts w).2 ≤ ticks w + 2.
Proof.
  intros Hf. revert w. induction ts as [|t ts IH]; intros w Hok; [simpl; lia|].
  rewrite array_map_cons. cbn [snd].
  assert (ids_ok ts) as Hok'.
  { destruct Hok as [Hs Ha]. rewrite fmap_cons in Hs, Ha.
    apply StronglySorted_cons in Hs as [_ Hs]. apply Forall_cons in Ha as [_ Ha]. done. }
  destruct (same_id t cmd) eqn:E.
  - rewrite array_map_id; [by apply mutator_ticks with cmd|].
    intros u w0 Hu. eapply mutator_other; [done|].
    apply list_elem_of_lookup_1 in Hu as [j Hj].
    pose proof (ids_ok_lookup (t :: ts) 0 (S j) t u Hok eq_refl Hj ltac:(lia)) as Hlt.
    unfold same_id in *. destruct (cmd_id cmd) as [i|]; [|done].
    apply Z.eqb_eq in E. apply Z.eqb_neq. lia.
  - rewrite (mutator_other clock cmd f t w Hf E). by apply IH.
Qed.

(** X25.  In a reachable state one command makes the handler read the
    clock at most twice, whatever the number of tasks. *)
Theorem handler_reads_the_clock_at_most_twice st cmd w :
  reachable clock (content st) →
  ticks w ≤ ticks (handle clock st cmd w).2 ≤ ticks w + 2.
Proof.
  intros Hr%reachable_ids_ok. unfold handle, bind.
  destruct (dispatch clock (content st) cmd w) as [[s'|] w'] eqn:E.
  2: { rewrite dispatch_ignored in E; [injection E as <-; simpl; lia|].
       destruct (ignored cmd) eqn:Hi; [done|].
       destruct (dispatch_acts clock (content st) cmd w Hi) as (s' & w'' & E'). congruence. }
  cbn [setState snd ticks]. pose proof (dispatch_world clock _ _ _ _ _ E) as [Hle _].
  split; [done|].
  apply dispatch_shape in E
    as [(f & Hf & E & _)|[(_ & _ & ->)|[(_ & t & _ & _ & ->)|(_ & _ & ->)]]]; try lia.
  pose proof (array_map_ticks cmd f (tasks (content st)) w Hf Hr) as H. by rewrite E in H.
Qed.
End Resources.

(** ** Time never runs backwards *)

Section Forward.
Local Open Scope Z_scope.
Variable clock : nat → Z.

Lemma stamped_mono n n' t : stamped clock n t → (n ≤ n')%nat → stamped clock n' t.
Proof.
  intros H Hn l Hl. destruct (H l Hl) as (i & Hi & Hs & He). exists i.
  split; [lia|]. split; [done|]. destruct He as [He|(j & ? & ? & He)]; [by left|].
  right. exists j. split; [done|]. split; [lia|done].
Qed.

Lemma stopWorkLogging_stamped t w :
  stamped clock (ticks w) t →
  stamped clock (ticks (stopWorkLogging clock t w).2) (stopWorkLogging clock t w).1.
Proof.
  intros H. destruct (logs_cases (logs t)) as [Hn|(ls0 & l & Hl)].
  - destruct (stopWorkLogging_none clock t w Hn) as [E Et]. rewrite Et.
    intros l Hl. unfold logs_or_empty in Hl. rewrite E in Hl. simpl in Hl.
    apply list_elem_of_singleton in Hl as ->. exists (ticks w). simpl.
    split; [lia|]. split; [done|]. right. exists (S (ticks w)). split; [lia|]. split; [lia|done].
  - destruct (decide (start l ≠ 0 ∧ end_ l = 0)) as [[Hs He]|Hc].
    + destruct (stopWorkLogging_open clock t w ls0 l Hl Hs He) as [E Et]. rewrite Et.
      intros l' Hl'. unfold logs_or_empty in Hl'. rewrite E in Hl'. simpl in Hl'.
      apply elem_of_app in Hl' as [Hl'|Hl'].
      * apply (stamped_mono (ticks w) (S (ticks w)) t H ltac:(lia) l').
        unfold logs_or_empty. rewrite Hl. simpl. apply elem_of_app. by left.
      * apply list_elem_of_singleton in Hl' as ->.
        destruct (H l) as (i & Hi & Hst & _).
        { unfold logs_or_empty. rewrite Hl. simpl. apply elem_of_app. right. left. }
        exists i. simpl. split; [lia|]. split; [done|]. right. exists (ticks w).
        split; [lia|]. split; [lia|done].
    + assert (start l = 0 ∨ end_ l ≠ 0) as Hc'.
      { destruct (decide (start l = 0)); [by left|]. right. intros He. by apply Hc. }
      by rewrite (stopWorkLogging_closed clock t w ls0 l Hl Hc').
Qed.

Lemma mutator_stamped cmd f t w :
  mutator clock cmd f → stamped clock (ticks w) t →
  stamped clock (ticks (f t w).2) (f t w).1.
Proof.
  intros Hf Ht. destruct Hf as [Hv|Hv|Hv|Hv|Hv|x Hv Hx Hne]; unfold pure_callback, move_task,
    edit_task, begin_task, check_task, flag_task, stop_task; destruct (same_id t cmd); try done.
  - destruct (decide (status t ≠ WIP)); [|done]. simpl.
    intros l Hl. unfold logs_or_empty in Hl. simpl in Hl. apply elem_of_app in Hl as [Hl|Hl].
    + by apply (stamped_mono (ticks w) (S (ticks w)) t Ht ltac:(lia) l).
    + apply list_elem_of_singleton in Hl as ->. exists (ticks w). simpl.
      split; [lia|]. split; [done|]. by left.
  - cbv zeta. destruct (decide (_ = DONE)); [|done].
    by apply stopWorkLogging_stamped.
  - by apply stopWorkLogging_stamped.
  - destruct (decide (status t = WIP)); [|done]. by apply stopWorkLogging_stamped.
Qed.

Lemma array_map_stamped cmd f ts w :
  mutator clock cmd f → Forall (stamped clock (ticks w)) ts →
  Forall (stamped clock (ticks (array_map f ts w).2)) (array_map f ts w).1.
Proof.
  intros Hf. revert w. induction ts as [|t ts IH]; intros w Hts; [constructor|].
  rewrite array_map_cons. cbn [fst snd]. apply Forall_cons in Hts as [Ht Hts].
  pose proof (mutator_world clock cmd f Hf t w) as [Hle _].
  pose proof (array_map_world f ts (f t w).2 (mutator_world clock cmd f Hf)) as [Hle' _].
  constructor.
  - apply (stamped_mono (ticks (f t w).2)); [by apply mutator_stamped with cmd|done].
  - apply IH. eapply Forall_impl; [done|]. intros u Hu. by apply (stamped_mono (ticks w)).
Qed.

Lemma handle_stamped st cmd w :
  Forall (stamped clock (ticks w)) (tasks (content st)) →
  Forall (stamped clock (ticks (handle clock st cmd w).2))
    (tasks (content (handle clock st cmd w).1)).
Proof.
  intros H. unfold handle, bind.
  destruct (dispatch clock (content st) cmd w) as [[s'|] w'] eqn:E.
  2: { rewrite dispatch_ignored in E; [by injection E as <-|].
       destruct (ignored cmd) eqn:Hi; [done|].
       destruct (dispatch_acts clock (content st) cmd w Hi) as (s' & w'' & E'). congruence. }
  cbn [setState fst snd content ticks].
  apply dispatch_shape in E
    as [(f & Hf & E & _)|[(_ & -> & ->)|[(_ & t & Ht & -> & ->)|(_ & E & ->)]]].
  - pose proof (array_map_stamped cmd f (tasks (content st)) w Hf H) as H'.
    by rewrite E in H'.
  - simpl. apply Forall_forall. intros t Ht. apply list_elem_of_filter in Ht as [_ Ht].
    by apply (proj1 (Forall_forall _ _) H).
  - simpl. apply Forall_app. split; [done|]. constructor; [|done].
    destruct Ht as (_ & _ & Hl & _). intros l Hin. unfold logs_or_empty in Hin.
    rewrite Hl in Hin. by apply elem_of_nil in Hin.
  - by rewrite E.
Qed.

Lemma handle_all_stamped cmds : ∀ st w,
  Forall (stamped clock (ticks w)) (tasks (content st)) →
  Forall (stamped clock (ticks (handle_all clock st cmds w).2))
    (tasks (content (handle_all clock st cmds w).1)).
Proof.
  induction cmds as [|cmd cmds IH]; intros st w H; [done|].
  rewrite handle_all_cons. apply IH. by apply handle_stamped.
Qed.

Lemma add_logs_forward ls : ∀ total w n,
  (∀ i j, (i ≤ j)%nat → clock i ≤ clock j) →
  (∀ l, l ∈ ls → ∃ i, (i < n)%nat ∧ start l = clock i ∧
     (end_ l = 0 ∨ ∃ j, (i ≤ j)%nat ∧ (j < n)%nat ∧ end_ l = clock j)) →
  (n ≤ ticks w)%nat → 0 ≤ total →
  0 ≤ (array_reduce (add_log clock) ls total w).1.
Proof.
  induction ls as [|l ls IH]; intros total w n Hmono Hls Hn Htotal; [done|].
  cbn [array_reduce]. unfold bind.
  destruct (Hls l) as (i & Hi & Hs & He); [left|].
  assert (∀ l', l' ∈ ls → ∃ i, (i < n)%nat ∧ start l' = clock i ∧
     (end_ l' = 0 ∨ ∃ j, (i ≤ j)%nat ∧ (j < n)%nat ∧ end_ l' = clock j)) as Hls'.
  { intros l' Hl'. apply Hls. by right. }
  unfold add_log, bind, ret, Date_now. destruct (truthy (end_ l)) eqn:Et.
  - apply (IH _ _ n); [done..|].
    apply truthy_true in Et. destruct He as [He|(j & Hij & Hj & He)]; [done|].
    rewrite Hs, He. pose proof (Hmono i j Hij). lia.
  - apply (IH _ _ n); [done|done|simpl; lia|].
    rewrite Hs. pose proof (Hmono i (ticks w) ltac:(lia)). lia.
Qed.

(** X26.  With a clock that never runs backwards the time spent on a task
    is never negative: after any commands, handled from the default state,
    the sum of the log lengths of every task, computed then or later, is at
    least 0. *)
Theorem time_spent_is_never_negative cmds w0 t w :
  (∀ i j, (i ≤ j)%nat → clock i ≤ clock j) →
  t ∈ tasks (content (handle_all clock initial_object cmds w0).1) →
  (ticks (handle_all clock initial_object cmds w0).2 ≤ ticks w)%nat →
  0 ≤ (totalTime_ms clock t w).1.
Proof.
  intros Hmono Ht Hw.
  pose proof (handle_all_stamped cmds initial_object w0 (Forall_nil_2 _)) as H.
  rewrite Forall_forall in H. specialize (H t Ht).
  unfold totalTime_ms.
  by apply (add_logs_forward _ _ _ (ticks (handle_all clock initial_object cmds w0).2)).
Qed.
End Forward.

(** ** One command, one task *)

Section OneTask.
Variable clock : nat → Z.

Lemma ids_ok_tail t ts : ids_ok (t :: ts) → ids_ok ts.
Proof.
  intros [Hs Ha]. rewrite fmap_cons in Hs, Ha.
  apply StronglySorted_cons in Hs as [_ Hs]. apply Forall_cons in Ha as [_ Ha]. done.
Qed.

Lemma same_id_unique ts i j t u cmd :
  ids_ok ts → ts !! i = Some t → ts !! j = Some u →
  same_id t cmd = true → i ≠ j → same_id u cmd = false.
Proof.
  intros Hok Hi Hj Ht Hij. unfold same_id in *. destruct (cmd_id cmd) as [z|]; [|done].
  apply Z.eqb_eq in Ht. apply Z.eqb_neq.
  destruct (Nat.lt_trichotomy i j) as [Hlt|[->|Hlt]]; [|done|].
  - pose proof (ids_ok_lookup _ _ _ _ _ Hok Hi Hj Hlt). lia.
  - pose proof (ids_ok_lookup _ _ _ _ _ Hok Hj Hi Hlt). lia.
Qed.

(** in a list with distinct ids the callback acts on one element *)
Lemma array_map_single cmd f ts : ∀ k t w,
  mutator clock cmd f → ids_ok ts → ts !! k = Some t → same_id t cmd = true →
  array_map f ts w = (<[k := (f t w).1]> ts, (f t w).2).
Proof.
  induction ts as [|u ts IH]; intros k t w Hf Hok Hk Ht; [done|].
  rewrite array_map_cons. destruct k as [|k]; simpl in Hk.
  - injection Hk as ->. rewrite array_map_id; [done|].
    intros v w0 [j Hj]%list_elem_of_lookup_1. eapply mutator_other; [done|].
    by apply (same_id_unique (t :: ts) 0 (S j) t v cmd).
  - rewrite (mutator_other clock cmd f u w Hf).
    2: { by apply (same_id_unique (u :: ts) (S k) 0 t u cmd). }
    cbn [fst snd]. rewrite (IH k t w Hf (ids_ok_tail _ _ Hok) Hk Ht). done.
Qed.

(** X27.  A begin, in a reachable state, on the id of a task that is not
    in progress: that task, and no other, gets the status WIP and one more
    log, open, whose start is the one reading of the clock the handler
    takes. *)
Theorem begin_opens_a_log st cmd w k t :
  reachable clock (content st) → verb_in cmd ["b"; "begin"] = true →
  tasks (content st) !! k = Some t → same_id t cmd = true → status t ≠ WIP →
  handle clock st cmd w =
    ({| addr := allocated w;
        content := set_tasks (content st)
          (<[k := set_logs (set_status t WIP)
                    (logs_or_empty t ++ [ {| start := clock (ticks w); end_ := 0 |} ])]>
             (tasks (content st))) |},
     {| ticks := S (ticks w); allocated := S (allocated w) |}).
Proof.
  intros Hr%reachable_ids_ok Hv Hk Ht Hs. rewrite (handle_begin clock st cmd w Hv). cbv zeta.
  rewrite (array_map_single cmd (begin_task clock cmd) _ k t w
             (mutator_begin clock cmd Hv) Hr Hk Ht).
  unfold begin_task. rewrite Ht. destruct (decide (status t ≠ WIP)); done.
Qed.

(** X28.  A stop, in a reachable state with a clock that never reads 0,
    on the id of a task in progress: that task, and no other, gets the
    status WAIT, and its last log, which is open, is closed with the one
    reading of the clock the handler takes. *)
Theorem stop_closes_the_open_log st cmd w k t :
  (∀ n, clock n ≠ 0%Z) → reachable clock (content st) →
  verb_in cmd ["st"; "stop"] = true →
  tasks (content st) !! k = Some t → same_id t cmd = true → status t = WIP →
  ∃ ls l, logs t = Some (ls ++ [l]) ∧ end_ l = 0%Z ∧
    handle clock st cmd w =
      ({| addr := allocated w;
          content := set_tasks (content st)
            (<[k := set_logs (set_status t WAIT) (ls ++ [set_end l (clock (ticks w))])]>
               (tasks (content st))) |},
       {| ticks := S (ticks w); allocated := S (allocated w) |}).
Proof.
  intros Hclock Hr Hv Hk Ht Hs.
  assert (t ∈ tasks (content st)) as Hin by (by eapply list_elem_of_lookup_2).
  pose proof (proj1 (Forall_forall _ _) (reachable_ok clock Hclock _ Hr) t Hin) as Hok.
  pose proof (proj1 (Forall_forall _ _) (reachable_wip_open clock _ Hr) t Hin) as Hwip.
  destruct (Hwip Hs) as (ls & l & Hl & He). exists ls, l. split; [done|]. split; [done|].
  assert (start l ≠ 0%Z) as Hst.
  { destruct (Hok (length ls) l) as [? _]; [|done].
    unfold logs_or_empty. rewrite Hl. simpl. by rewrite lookup_app_r, Nat.sub_diag. }
  rewrite (handle_stop clock st cmd w Hv). cbv zeta.
  rewrite (array_map_single cmd (stop_task clock cmd) _ k t w
             (mutator_stop clock cmd Hv) (reachable_ids_ok clock _ Hr) Hk Ht).
  unfold stop_task. rewrite Ht. destruct (decide (status t = WIP)); [|done].
  unfold stopWorkLogging, logs_or_empty. cbn [logs set_status]. rewrite Hl. simpl.
  rewrite last_snoc. rewrite (proj2 (truthy_true _) Hst), (proj2 (truthy_false _) He). simpl.
  rewrite length_app. simpl.
  replace (length ls + 1 - 1) with (length ls + 0) by lia.
  by rewrite insert_app_r.
Qed.

Lemma verb_in_two cmd labels labels' :
  verb_in cmd labels = true → verb_in cmd labels' = true →
  ∃ l, l ∈ labels ∧ js l ∈ js <$> labels'.
Proof.
  unfold verb_in, is_case. destruct (command cmd) as [v|]; [|done].
  intros (l & E & Hl)%bool_decide_eq_true_1%list_elem_of_fmap H'%bool_decide_eq_true_1.
  exists l. split; [done|]. by rewrite <- E.
Qed.

Ltac other_case Hv H :=
  exfalso; destruct (verb_in_two _ _ _ Hv H) as (l & Hl & Hl');
  apply list_elem_of_In in Hl; cbn [In] in Hl;
  repeat (destruct Hl as [<-|Hl]; [revert Hl'; apply (bool_decide_unpack _); vm_compute; exact I|]);
  exact Hl.

(** X29.  An edit and a move keep the id, the status and the logs of every
    task, and do not read the clock. *)
Theorem edit_and_move_keep_status_and_logs st cmd w :
  verb_in cmd ["mv"; "move"; "e"; "edit"] = true →
  kept_by_edit <$> tasks (content (handle clock st cmd w).1) =
    kept_by_edit <$> tasks (content st) ∧
  ticks (handle clock st cmd w).2 = ticks w.
Proof.
  intros Hv. unfold handle, bind.
  destruct (dispatch clock (content st) cmd w) as [[s'|] w'] eqn:E.
  2: { rewrite dispatch_ignored in E; [by injection E as <-|].
       destruct (ignored cmd) eqn:Hi; [done|].
       destruct (dispatch_acts clock (content st) cmd w Hi) as (s' & w'' & E'). congruence. }
  cbn [setState fst snd content ticks].
  apply dispatch_shape in E
    as [(f & Hf & E & _)|[(H & _ & _)|[(H & _)|(H & _ & _)]]]; try other_case Hv H.
  destruct Hf as [H|H|H|H|H|x H Hx Hne]; try other_case Hv H;
    rewrite array_map_pure in E; injection E as <- <-; (split; [|done]);
    rewrite <- list_fmap_compose; apply list_fmap_ext; intros i t _; simpl;
    unfold move_task, edit_task; by destruct (same_id t cmd).
Qed.
End OneTask.

(** ** The total of the Today panel *)

Lemma Today_total_sum now l :
  ∀ z, foldl (λ total t, total + entry_time now t)%Z z l =
       (z + foldr Z.add 0 (entry_time now <$> l))%Z.
Proof.
  induction l as [|a l IH]; intros z; cbn [foldl foldr fmap list_fmap]; [lia|].
  rewrite IH. lia.
Qed.

Lemma sum_perm (l l' : list Z) : l ≡ₚ l' → foldr Z.add 0%Z l = foldr Z.add 0%Z l'.
Proof. induction 1; simpl; lia. Qed.

(** X30.  The total of the Today panel is the sum, over the logs it shows,
    of the time from the start of the log to its end, or to the reading of
    the clock the panel took when the log is open; sorting the list does
    not change it. *)
Theorem Today_total_is_the_sum_over_the_shown_logs clock state w :
  let now := clock (ticks w) in
  Today_totalTime_ms now (Today clock state w).1 =
    foldr Z.add 0%Z (entry_time now <$> activities now (tasks state)).
Proof.
  cbv zeta. unfold Today, bind, ret, Date_now, Today_totalTime_ms. cbn [fst].
  rewrite Today_total_sum. rewrite Z.add_0_l. apply sum_perm.
  apply fmap_Permutation, array_sort_perm.
Qed.

Lemma sample_typed_typed : typed sample_clock (content sample_typed.1).
Proof. apply type_all_typed, typed_default. Qed.

Lemma sample_typed_reachable : reachable sample_clock (content sample_typed.1).
Proof. apply typed_reachable, sample_typed_typed. Qed.

Lemma sample_clock_nonzero n : sample_clock n ≠ 0%Z.
Proof. unfold sample_clock. lia. Qed.

Lemma sample_nth_elem n :
  n < 3 → sample_nth n ∈ tasks (content sample_typed.1).
Proof.
  intros Hn. apply list_elem_of_lookup_2 with n.
  destruct n as [|[|[|n]]]; [reflexivity..|lia].
Qed.

Lemma parsed_command_reads_the_input_witness :
  parses_as (js "mv 3 @home")
    {| command := Some (js "mv"); cmd_tag := Some (js "@home"); cmd_text := None;
       cmd_id := Some 3%Z |}.
Proof. apply (parsed_command_reads_the_input (js "mv 3 @home")). reflexivity. Defined.

Lemma parsed_text_is_trimmed_witness :
  trimmed (js "buy milk") = true ∧
  Forall (λ c, is_line_terminator c = false) (js "buy milk").
Proof.
  apply (parsed_text_is_trimmed (js "t   buy milk  ")
           {| command := Some (js "t"); cmd_tag := None; cmd_text := Some (js "buy milk");
              cmd_id := None |} (js "buy milk")); reflexivity.
Defined.

Lemma unknown_first_letter_is_null_witness : parseCommand (js "open 1") = Normal None.
Proof.
  apply (unknown_first_letter_is_null (js "open 1")).
  intros x s [= <- <-]. apply (bool_decide_unpack _). vm_compute. exact I.
Defined.

Lemma parsed_command_has_a_case_witness :
  verb_in (task_cmd "") switch_labels = true ∧
  (ignored (task_cmd "") = true ↔
   verb_in (task_cmd "") ["t"; "task"; "e"; "edit"] = true ∧ cmd_text (task_cmd "") = Some []).
Proof. apply (parsed_command_has_a_case (js "t  ")). reflexivity. Defined.

Lemma other_tasks_are_untouched_witness :
  let r := dispatch sample_clock (content sample_typed.1) (one_id_cmd "c" 1) sample_typed.2 in
  filter (λ t, same_id t (one_id_cmd "c" 1) = false) (tasks (default default_state r.1)) =
  filter (λ t, same_id t (one_id_cmd "c" 1) = false) (tasks (content sample_typed.1)).
Proof.
  intros r.
  apply (other_tasks_are_untouched sample_clock (content sample_typed.1) (one_id_cmd "c" 1)
           sample_typed.2 (default default_state r.1) r.2); reflexivity.
Defined.

Lemma unknown_id_changes_nothing_witness :
  tasks (content (handle sample_clock sample_typed.1 (one_id_cmd "b" 7) sample_typed.2).1) =
    tasks (content sample_typed.1) ∧
  ticks (handle sample_clock sample_typed.1 (one_id_cmd "b" 7) sample_typed.2).2 =
    ticks sample_typed.2.
Proof.
  apply (unknown_id_changes_nothing sample_clock sample_typed.1 (one_id_cmd "b" 7));
    [|reflexivity].
  apply Forall_forall. apply (bool_decide_unpack _). vm_compute. exact I.
Defined.

Lemma ids_are_positive_and_increase_witness :
  (1 ≤ id (sample_nth 0))%Z ∧ (0 < 2 → (id (sample_nth 0) < id (sample_nth 2))%Z) ∧
  (id (sample_nth 0) = id (sample_nth 2) → 0 = 2).
Proof.
  apply (ids_are_positive_and_increase sample_clock (content sample_typed.1) 0 2);
    [apply sample_typed_reachable|reflexivity..].
Defined.

Lemma delete_removes_one_task_witness :
  tasks (content (handle sample_clock sample_typed.1 (one_id_cmd "d" 2) sample_typed.2).1) =
  delete 1 (tasks (content sample_typed.1)).
Proof.
  apply (delete_removes_one_task sample_clock sample_typed.1 (one_id_cmd "d" 2)
           sample_typed.2 1 (sample_nth 1)); [apply sample_typed_reachable|reflexivity..].
Defined.

Lemma open_log_exactly_when_in_progress_witness :
  open_count (sample_nth 0) = (if decide (status (sample_nth 0) = WIP) then 1 else 0) ∧
  (status (sample_nth 0) = WIP →
   ∃ ls l, logs (sample_nth 0) = Some (ls ++ [l]) ∧ end_ l = 0%Z).
Proof.
  apply (open_log_exactly_when_in_progress sample_clock (content sample_typed.1)).
  - apply sample_clock_nonzero.
  - apply sample_typed_reachable.
  - apply sample_nth_elem. lia.
Defined.

Lemma typed_tasks_have_a_tag_and_a_title_witness :
  (∃ g, tag (sample_nth 1) = Some g ∧ tag_ok g = true) ∧
  title (sample_nth 1) ≠ [] ∧ trimmed (title (sample_nth 1)) = true ∧
  Forall (λ c, is_line_terminator c = false) (title (sample_nth 1)).
Proof.
  apply (typed_tasks_have_a_tag_and_a_title sample_clock sample_inputs initial_world).
  apply sample_nth_elem. lia.
Defined.

Lemma keywords_switch_the_panels_witness :
  let s := content initial_object in
  let s' := content (onKeyPress sample_clock initial_object (js "Today!") initial_world).1 in
  tasks s' = tasks s ∧
  showHelp s' = (if decide (toLowerCase (js "Today") = js "help") then true
                 else if decide (toLowerCase (js "Today") = js "close-help") then false
                 else showHelp s) ∧
  showToday s' = (if decide (toLowerCase (js "Today") = js "today") then negb (showToday s)
                  else showToday s) ∧
  (onKeyPress sample_clock initial_object (js "Today!") initial_world).2 =
    {| ticks := ticks initial_world; allocated := S (allocated initial_world) |}.
Proof.
  apply (keywords_switch_the_panels sample_clock initial_object (js "Today") (js "!")).
  apply (bool_decide_unpack _). vm_compute. exact I.
Defined.

Lemma time_of_closed_logs_is_fixed_witness :
  totalTime_ms sample_clock (sample_task DONE [ {| start := 1000; end_ := 4000 |} ])
    initial_world = (3000%Z, initial_world).
Proof.
  apply (time_of_closed_logs_is_fixed sample_clock
           (sample_task DONE [ {| start := 1000; end_ := 4000 |} ]) initial_world).
  apply Forall_forall. apply (bool_decide_unpack _). vm_compute. exact I.
Defined.

Lemma time_spent_reads_the_clock_only_in_progress_witness :
  (status (sample_nth 0) ≠ WIP →
     totalTime_ms sample_clock (sample_nth 0) sample_typed.2 =
       (foldr Z.add 0%Z (spent <$> logs_or_empty (sample_nth 0)), sample_typed.2)) ∧
  (status (sample_nth 0) = WIP →
     ∃ ls l, logs (sample_nth 0) = Some (ls ++ [l]) ∧
       totalTime_ms sample_clock (sample_nth 0) sample_typed.2 =
         ((foldr Z.add 0 (spent <$> ls) + (sample_clock (ticks sample_typed.2) - start l))%Z,
          {| ticks := S (ticks sample_typed.2); allocated := allocated sample_typed.2 |})).
Proof.
  apply (time_spent_reads_the_clock_only_in_progress sample_clock (content sample_typed.1)).
  - apply sample_clock_nonzero.
  - apply sample_typed_reachable.
  - apply sample_nth_elem. lia.
Defined.

Lemma groups_are_in_first_seen_order_witness :
  ∃ p t, tasks (content sample_typed.1) !! p = Some t ∧ tag t = Some (js "@home") ∧
    ∀ q t', tasks (content sample_typed.1) !! q = Some t' →
      tag t' = Some (js "@uncategorized") → p < q.
Proof.
  apply (groups_are_in_first_seen_order sample_clock sample_inputs initial_world 0 1
           (js "@home") [sample_nth 0; sample_nth 2]
           (js "@uncategorized") [sample_nth 1]); [reflexivity..|lia].
Defined.

Lemma summary_leaves_out_the_flagged_tasks_witness :
  let ts := tasks (content sample_typed.1) in
  done (summary ts) = count_status DONE ts ∧
  wip (summary ts) = count_status WIP ts ∧
  pending (summary ts) = count_status WAIT ts ∧
  (done (summary ts) + wip (summary ts) + pending (summary ts) +
   count_status FLAG ts)%Z = Z.of_nat (length ts).
Proof.
  apply (summary_leaves_out_the_flagged_tasks sample_clock (content sample_typed.1)).
  apply sample_typed_reachable.
Defined.

Lemma stopWorkLogging_twice_is_once_witness :
  stopWorkLogging sample_clock
    (stopWorkLogging sample_clock (sample_task WAIT [ {| start := 5; end_ := 0 |} ])
       initial_world).1 initial_world =
  ((stopWorkLogging sample_clock (sample_task WAIT [ {| start := 5; end_ := 0 |} ])
      initial_world).1, initial_world).
Proof. apply (stopWorkLogging_twice_is_once sample_clock). apply sample_clock_nonzero. Defined.

Lemma handler_reads_the_clock_at_most_twice_witness :
  ticks sample_typed.2 ≤
    ticks (handle sample_clock sample_typed.1 (one_id_cmd "fl" 2) sample_typed.2).2 ≤
  ticks sample_typed.2 + 2.
Proof.
  apply (handler_reads_the_clock_at_most_twice sample_clock sample_typed.1).
  apply sample_typed_reachable.
Defined.

Lemma time_spent_is_never_negative_witness :
  (0 ≤ (totalTime_ms sample_clock (sample_nth 0) {| ticks := 9; allocated := 9 |}).1)%Z.
Proof.
  apply (time_spent_is_never_negative sample_clock
           [ {| command := Some (js "t"); cmd_tag := Some (js "@home");
                cmd_text := Some (js "buy milk"); cmd_id := None |};
             one_id_cmd "b" 1 ] initial_world (sample_nth 0)).
  - intros i j Hij. unfold sample_clock. lia.
  - apply list_elem_of_lookup_2 with 0. vm_compute. reflexivity.
  - vm_compute. lia.
Defined.

Lemma begin_opens_a_log_witness :
  handle sample_clock sample_typed.1 (one_id_cmd "b" 2) sample_typed.2 =
    ({| addr := allocated sample_typed.2;
        content := set_tasks (content sample_typed.1)
          (<[1 := set_logs (set_status (sample_nth 1) WIP)
                    (logs_or_empty (sample_nth 1) ++
                     [ {| start := sample_clock (ticks sample_typed.2); end_ := 0 |} ])]>
             (tasks (content sample_typed.1))) |},
     {| ticks := S (ticks sample_typed.2); allocated := S (allocated sample_typed.2) |}).
Proof.
  apply (begin_opens_a_log sample_clock sample_typed.1 (one_id_cmd "b" 2) sample_typed.2 1
           (sample_nth 1)); [apply sample_typed_reachable|reflexivity..|discriminate].
Defined.

Lemma stop_closes_the_open_log_witness :
  ∃ ls l, logs (sample_nth 0) = Some (ls ++ [l]) ∧ end_ l = 0%Z ∧
    handle sample_clock sample_typed.1 (one_id_cmd "st" 1) sample_typed.2 =
      ({| addr := allocated sample_typed.2;
          content := set_tasks (content sample_typed.1)
            (<[0 := set_logs (set_status (sample_nth 0) WAIT)
                      (ls ++ [set_end l (sample_clock (ticks sample_typed.2))])]>
               (tasks (content sample_typed.1))) |},
       {| ticks := S (ticks sample_typed.2); allocated := S (allocated sample_typed.2) |}).
Proof.
  apply (stop_closes_the_open_log sample_clock sample_typed.1 (one_id_cmd "st" 1)
           sample_typed.2 0 (sample_nth 0));
    [apply sample_clock_nonzero|apply sample_typed_reachable|reflexivity..].
Defined.

Lemma edit_and_move_keep_status_and_logs_witness :
  let cmd := {| command := Some (js "Move"); cmd_tag := Some (js "@shop");
                cmd_text := None; cmd_id := Some 1%Z |} in
  kept_by_edit <$> tasks (content (handle sample_clock sample_typed.1 cmd sample_typed.2).1) =
    kept_by_edit <$> tasks (content sample_typed.1) ∧
  ticks (handle sample_clock sample_typed.1 cmd sample_typed.2).2 = ticks sample_typed.2.
Proof.
  intros cmd. apply (edit_and_move_keep_status_and_logs sample_clock sample_typed.1 cmd).
  reflexivity.
Defined.
